(** * CodeCanvas: the bubble-sort trace simulator of [services/geminiService.ts]

    A shallow embedding of [findLine], [BubbleSortSimulator] and
    [generateExecutionTrace], and the properties of the traces they produce.

    - The JavaScript object store is explicit: arrays and the [variables]
      record are heap objects referred to by location, so that the copies
      the simulator takes ([[...arr]], [JSON.parse(JSON.stringify(..))]) and
      any sharing between snapshots are visible in the model.  The simulator
      is written in a state-and-error monad over that store.
    - Strings are sequences of 8-bit code units (the Latin-1 fragment of
      JavaScript's UTF-16 strings).
    - An array element is an integer in the safe-integer range (on which
      JavaScript numbers are exact), the number [NaN] or [null]; the
      simulator only compares, moves and prints elements.  Numbers with a
      fraction, strings and nested arrays are not embedded.
    - [evaluate] runs its argument as JavaScript; the embedding covers
      bracketed lists of integer literals, [NaN], [null] and one reading of
      the clock, [Date.now()], which the store carries.  It also covers the
      failure of [evaluate] on a text with a semicolon that nothing can
      hide, which is neither an expression nor JSON: the error carries the
      message of the engine's [JSON.parse], which the store carries too.
      A call on any other expression has the outcome [Unmodelled], about
      which nothing is claimed.
    - The promise [generateExecutionTrace] returns is modelled by its
      settlement; its delay and the console are not modelled. *)

From Stdlib Require Import Ascii String ZArith DecimalString DecimalZ Sorted Permutation.
From stdpp Require Import gmap strings list fin_maps sorting.

Open Scope string_scope.
Open Scope nat_scope.

(** ** Strings *)

Module Str.

(** [s.startsWith(p)] *)
Fixpoint starts_with (p s : string) : bool :=
  match p, s with
  | EmptyString, _ => true
  | String a p', String b s' => if Ascii.eqb a b then starts_with p' s' else false
  | String _ _, EmptyString => false
  end.

(** [s.includes(sub)] *)
Fixpoint includes (s sub : string) : bool :=
  if starts_with sub s then true
  else match s with
       | EmptyString => false
       | String _ s' => includes s' sub
       end.

(** [s.split(sep)] for a one-character separator. *)
Fixpoint split (sep : ascii) (s : string) : list string :=
  match s with
  | EmptyString => [EmptyString]
  | String c s' =>
      if Ascii.eqb c sep then EmptyString :: split sep s'
      else match split sep s' with
           | [] => [String c EmptyString]
           | w :: ws => String c w :: ws
           end
  end.

(** [l.join(sep)] *)
Fixpoint join (sep : string) (l : list string) : string :=
  match l with
  | [] => EmptyString
  | [x] => x
  | x :: rest => x +:+ sep +:+ join sep rest
  end.

(** The longest prefix whose characters satisfy [p], and the rest. *)
Fixpoint span (p : ascii -> bool) (s : string) : string * string :=
  match s with
  | EmptyString => (EmptyString, EmptyString)
  | String c s' =>
      if p c then let '(a, b) := span p s' in (String c a, b)
      else (EmptyString, s)
  end.

(** Drop [n] characters. *)
Fixpoint skip (n : nat) (s : string) : string :=
  match n, s with
  | S n', String _ s' => skip n' s'
  | _, _ => s
  end.

Definition all (p : ascii -> bool) (s : string) : bool :=
  forallb p (list_ascii_of_string s).

(** [s] has [sub] as a substring. *)
Definition contains (s sub : string) : Prop :=
  exists pre post, s = pre +:+ sub +:+ post.

End Str.

(** ** The line locator *)

(** [Array.prototype.findIndex]: the callback receives the element and its
    index; [None] stands for the result [-1]. *)
Fixpoint findIndex_from {A} (p : A -> nat -> bool) (l : list A) (i : nat) : option nat :=
  match l with
  | [] => None
  | x :: l' => if p x i then Some i else findIndex_from p l' (S i)
  end.

Definition findIndex {A} (p : A -> nat -> bool) (l : list A) : option nat :=
  findIndex_from p l 0.

Definition findLine (codeLines : list string) (searchString : string) (startLine : nat) : nat :=
  match findIndex (fun line i => (startLine <=? i) && Str.includes line searchString) codeLines with
  | Some index => index + 1
  | None => startLine + 1
  end.

(** ** Numbers and their decimal rendering *)

(** [Number.MAX_SAFE_INTEGER]: integers up to this magnitude are exact
    JavaScript numbers and print in plain decimal notation. *)
Definition MAX_SAFE_INTEGER : Z := 9007199254740991.

Definition safe_integer (z : Z) : bool := (Z.abs z <=? MAX_SAFE_INTEGER)%Z.

(** [String(z)], the text a template literal or [join] inserts for a number. *)
Definition number_to_string (z : Z) : string :=
  NilZero.string_of_int (Z.to_int z).

(** A numeric literal of the modelled fragment: the canonical decimal text of
    a safe integer (no leading zeros, no exponent, no fraction). *)
Definition parse_number (tok : string) : option Z :=
  match NilZero.int_of_string tok with
  | Some d =>
      let z := Z.of_int d in
      if String.eqb (number_to_string z) tok && safe_integer z then Some z else None
  | None => None
  end.

(** The characters a rendered integer is made of. *)
Definition numeric_char (c : ascii) : bool :=
  match c with
  | "-" | "0" | "1" | "2" | "3" | "4" | "5" | "6" | "7" | "8" | "9" => true
  | _ => false
  end%char.

Definition no_comma (t : string) : Prop :=
  Str.all (fun c => negb (Ascii.eqb c ",")) t = true.

(** ** Character classes of the regular expression *)

Definition code_between (lo hi : nat) (c : ascii) : bool :=
  let n := nat_of_ascii c in (lo <=? n) && (n <=? hi).

(** [\s]: TAB, LF, VT, FF, CR, SP and NBSP. *)
Definition is_space (c : ascii) : bool :=
  code_between 9 13 c || code_between 32 32 c || code_between 160 160 c.

(** [[a-zA-Z0-9_]] *)
Definition is_ident (c : ascii) : bool :=
  code_between 97 122 c || code_between 65 90 c || code_between 48 57 c
  || code_between 95 95 c.

(** [.] (without the [s] flag): anything but LF and CR. *)
Definition is_dot (c : ascii) : bool :=
  negb (code_between 10 10 c || code_between 13 13 c).

(** ** [arrInitRegex]

    [/(?:let|var|const)\s+([a-zA-Z0-9_]+)\s*=\s*(\[.*\])/]

    Each greedy quantifier is followed by a character outside its own class,
    so backtracking never finds a shorter repetition: the spaces and the
    name are the maximal runs.  Only [.*] gives back characters, up to the
    last closing bracket of the line. *)

Record RegExpMatch := {
  group0 : string;   (* arrMatch[0], the matched text *)
  group1 : string;   (* arrMatch[1], the array's name *)
  group2 : string;   (* arrMatch[2], the bracketed literal *)
}.

(** [(?:let|var|const)] at the head of [s]: the keyword and what follows. *)
Definition match_keyword (s : string) : option (string * string) :=
  if Str.starts_with "let" s then Some ("let", Str.skip 3 s)
  else if Str.starts_with "var" s then Some ("var", Str.skip 3 s)
  else if Str.starts_with "const" s then Some ("const", Str.skip 5 s)
  else None.

(** The longest prefix of [s] ending in a closing bracket, if there is one:
    what [.*\]] keeps of a line after backtracking. *)
Fixpoint up_to_last_bracket (s : string) : option string :=
  match s with
  | EmptyString => None
  | String c s' =>
      match up_to_last_bracket s' with
      | Some t => Some (String c t)
      | None => if Ascii.eqb c "]" then Some (String c EmptyString) else None
      end
  end.

(** The regular expression anchored at the head of [s]. *)
Definition arrInitRegex_at (s : string) : option RegExpMatch :=
  match match_keyword s with
  | None => None
  | Some (kw, r0) =>
      let '(ws1, r1) := Str.span is_space r0 in
      let '(name, r2) := Str.span is_ident r1 in
      let '(ws2, r3) := Str.span is_space r2 in
      match ws1, name, r3 with
      | String _ _, String _ _, String "=" r4 =>
          let '(ws3, r5) := Str.span is_space r4 in
          match r5 with
          | String "[" r6 =>
              match up_to_last_bracket (fst (Str.span is_dot r6)) with
              | Some body =>
                  let lit := String "[" body in
                  Some {| group0 := kw +:+ ws1 +:+ name +:+ ws2 +:+ "=" +:+ ws3 +:+ lit;
                          group1 := name;
                          group2 := lit |}
              | None => None
              end
          | _ => None
          end
      | _, _, _ => None
      end
  end.

(** [codeText.match(arrInitRegex)]: the leftmost position where the
    expression matches. *)
Fixpoint arrInitRegex_match (codeText : string) : option RegExpMatch :=
  match arrInitRegex_at codeText with
  | Some m => Some m
  | None =>
      match codeText with
      | EmptyString => None
      | String _ rest => arrInitRegex_match rest
      end
  end.

(** ** Array literals

    [evaluate] compiles its argument with [new Function] and runs it.  The
    embedding covers a bracketed list, separated by commas and with
    optional blanks, of integer literals, [NaN], [null] and at most one
    call [Date.now()]: the elements on which the comparison [>], the
    template literals, [join] and [JSON.stringify] of the simulator differ
    from what they do on integers, and the one element whose value changes
    from one call to the next. *)

Fixpoint trim_end (s : string) : string :=
  match s with
  | EmptyString => EmptyString
  | String c s' =>
      match trim_end s' with
      | EmptyString => if is_space c then EmptyString else String c EmptyString
      | t => String c t
      end
  end.

Definition trim (s : string) : string :=
  trim_end (snd (Str.span is_space s)).

(** The text between the outer brackets of [s], when [s] is bracketed. *)
Fixpoint before_closing_bracket (s : string) : option string :=
  match s with
  | EmptyString => None
  | String c EmptyString => if Ascii.eqb c "]" then Some EmptyString else None
  | String c s' => option_map (String c) (before_closing_bracket s')
  end.

Definition bracketed (s : string) : option string :=
  match s with
  | String "[" s' => before_closing_bracket s'
  | _ => None
  end.

(** The values an element of the array takes in the embedded fragment. *)
Inductive element :=
  | Int (z : Z)   (* a number that is an integer *)
  | NaN           (* the number [NaN] *)
  | Null.         (* [null] *)

#[global] Instance element_inhabited : Inhabited element := populate (Int 0).

#[global] Instance element_eq_dec : EqDecision element.
Proof. solve_decision. Defined.

(** [ToNumber(x)], when it is not [NaN]. *)
Definition to_number (x : element) : option Z :=
  match x with
  | Int z => Some z
  | NaN => None
  | Null => Some 0%Z
  end.

(** [x > y]: both sides are converted to numbers, and a comparison with
    [NaN] is false. *)
Definition greater (x y : element) : bool :=
  match to_number x, to_number y with
  | Some a, Some b => (a >? b)%Z
  | _, _ => false
  end.



(** [String(x)], the text a template literal inserts. *)
Definition element_to_string (x : element) : string :=
  match x with
  | Int z => number_to_string z
  | NaN => "NaN"
  | Null => "null"
  end.

(** The text [join] inserts for an element: nothing for [null]. *)
Definition joined (x : element) : string :=
  match x with
  | Null => ""
  | _ => element_to_string x
  end.

(** An element in JSON: a number that is not finite is written [null]. *)
Definition to_json (x : element) : option Z :=
  match x with
  | Int z => Some z
  | NaN | Null => None
  end.

Definition of_json (j : option Z) : element :=
  match j with
  | Some z => Int z
  | None => Null
  end.

(** An integer element is in the range where numbers are exact. *)
Definition safe_element (x : element) : Prop :=
  match x with
  | Int z => safe_integer z = true
  | _ => True
  end.

(** An element expression: an integer literal, [NaN], [null], or a reading
    of the clock. *)
Definition parse_element (clock : Z) (tok : string) : option element :=
  if String.eqb tok "NaN" then Some NaN
  else if String.eqb tok "null" then Some Null
  else if String.eqb tok "Date.now()" then
    if safe_integer clock then Some (Int clock) else None
  else option_map Int (parse_number tok).

Fixpoint parse_elements (clock : Z) (toks : list string) : option (list element) :=
  match toks with
  | [] => Some []
  | tok :: toks' =>
      match parse_element clock (trim tok), parse_elements clock toks' with
      | Some x, Some xs => Some (x :: xs)
      | _, _ => None
      end
  end.

(** The number of readings of the clock among the element expressions. *)
Definition clock_readings (toks : list string) : nat :=
  length (filter (fun tok => trim tok = "Date.now()") toks).

(** The array an expression of the fragment evaluates to when the clock
    shows [clock].  The clock is read at most once: a second reading in the
    same expression may differ from the first. *)
Definition evaluate_literal (clock : Z) (expression : string) : option (list element) :=
  match bracketed expression with
  | None => None
  | Some body =>
      if Str.all is_space body then Some []
      else
        let toks := Str.split "," body in
        if decide (clock_readings toks <= 1) then parse_elements clock toks else None
  end.

(** A text that is neither an expression nor JSON: it holds a semicolon,
    and no character that could put it inside a string, a template, a
    regular expression, a comment or a function body, or close the
    parenthesis that [evaluate] opens before it.  [new Function] refuses
    the text, and so does [JSON.parse]. *)
Definition hides_semicolon (c : ascii) : bool :=
  (* the two quotes, the backquote, the slash, the backslash, the opening
     brace and the closing parenthesis *)
  bool_decide (nat_of_ascii c ∈ [34; 39; 96; 47; 92; 123; 41]).

Definition malformed (expression : string) : bool :=
  Str.includes expression ";"
  && Str.all (fun c => negb (hides_semicolon c)) expression.

(** ** The object store

    Arrays and records are objects in a heap; a property holds a number or a
    reference.  Allocation takes the next unused location.  The store also
    carries what the engine supplies during the call: what the clock shows,
    and the message of the error [JSON.parse] throws on a text. *)

Definition loc := positive.

Inductive value :=
  | VNum (z : Z)
  | VRef (l : loc).

Inductive object :=
  | OArray (elements : list element)
  | ORecord (fields : gmap string value).

Record heap := {
  objects : gmap loc object;
  next_loc : loc;
  clock : Z;                      (* [Date.now()] *)
  json_error : string -> string;  (* the message of [JSON.parse(text)] on a text that is no JSON *)
}.

Definition alloc (o : object) (h : heap) : loc * heap :=
  (next_loc h,
   {| objects := <[next_loc h := o]> (objects h);
      next_loc := (next_loc h + 1)%positive;
      clock := clock h; json_error := json_error h |}).

Definition update (l : loc) (o : object) (h : heap) : heap :=
  {| objects := <[l := o]> (objects h); next_loc := next_loc h;
     clock := clock h; json_error := json_error h |}.

(** The clock moves between two calls. *)
Definition set_clock (t : Z) (h : heap) : heap :=
  {| objects := objects h; next_loc := next_loc h; clock := t; json_error := json_error h |}.

(** [obj[name] = v] on a plain object: the name [__proto__] reaches the
    prototype setter and creates no own property. *)
Definition set_property {V} (name : string) (v : V) (fields : gmap string V)
  : gmap string V :=
  if decide (name = "__proto__") then fields else <[name := v]> fields.

(** ** JSON

    The text [JSON.stringify] produces is represented by the tree it denotes:
    it holds values only, no references. *)

Inductive json :=
  | JNum (z : Z)
  | JArr (elements : list (option Z)).   (* [None] is [null] *)

Definition stringify_value (h : heap) (v : value) : option json :=
  match v with
  | VNum z => Some (JNum z)
  | VRef l =>
      match objects h !! l with
      | Some (OArray xs) => Some (JArr (to_json <$> xs))
      | _ => None
      end
  end.

(** [JSON.stringify(obj)] for the record at [l]; properties without a JSON
    value are left out. *)
Definition JSON_stringify (h : heap) (l : loc) : option (gmap string json) :=
  match objects h !! l with
  | Some (ORecord fields) => Some (omap (stringify_value h) fields)
  | _ => None
  end.

Fixpoint parse_fields (text : list (string * json)) (h : heap)
  : gmap string value * heap :=
  match text with
  | [] => (∅, h)
  | (name, JNum z) :: text' =>
      let '(fields, h') := parse_fields text' h in
      (<[name := VNum z]> fields, h')
  | (name, JArr xs) :: text' =>
      let '(fields, h') := parse_fields text' h in
      let '(l, h'') := alloc (OArray (of_json <$> xs)) h' in
      (<[name := VRef l]> fields, h'')
  end.

(** [JSON.parse(text)]: every array and the record itself are new objects. *)
Definition JSON_parse (text : gmap string json) (h : heap) : loc * heap :=
  let '(fields, h') := parse_fields (map_to_list text) h in
  alloc (ORecord fields) h'.

(** ** Results of a call *)

Inductive outcome (A : Type) :=
  | Returned (a : A)
  | Thrown (message : string)
  | Unmodelled.   (* the call leaves the fragment of JavaScript embedded here *)

Arguments Returned {A} a.
Arguments Thrown {A} message.
Arguments Unmodelled {A}.

(** ** [types.ts] *)

Module ExecutionStep.
Record t := make {
  lineNumber : nat;
  variables : loc;                 (* Record<string, any>, by reference *)
  description : string;
  output : option (list string);   (* string[] | null *)
}.
End ExecutionStep.

Inductive Language := python | javascript.

(** ** [class BubbleSortSimulator] *)

Definition LF : ascii := Eval cbv in ascii_of_nat 10.
Definition newline : string := String LF EmptyString.

Definition nat_to_string (n : nat) : string := number_to_string (Z.of_nat n).

(** ** The step descriptions (the template literals of [run]) *)

Module Describe.

Definition init_array (arrName : string) (n : nat) : string :=
  "Initialize array '" +:+ arrName +:+ "' with " +:+ nat_to_string n +:+ " elements.".

Definition init_n (n : nat) : string :=
  "Initialize 'n' with the length of the array, which is " +:+ nat_to_string n +:+ ".".

Definition outer (i : nat) : string :=
  "Outer loop starts iteration. 'i' is now " +:+ nat_to_string i +:+ ".".

Definition inner (j : nat) : string :=
  "Inner loop starts iteration. 'j' is now " +:+ nat_to_string j +:+ ".".

Definition comparing (arrName : string) (j : nat) (val1 val2 : element) : string :=
  "Comparing " +:+ arrName +:+ "[" +:+ nat_to_string j +:+ "] ("
  +:+ element_to_string val1 +:+ ") with " +:+ arrName +:+ "["
  +:+ nat_to_string (j + 1) +:+ "] (" +:+ element_to_string val2 +:+ ").".

Definition condition_true (val1 val2 : element) : string :=
  "Condition true (" +:+ element_to_string val1 +:+ " > "
  +:+ element_to_string val2 +:+ "). Swapping elements.".

Definition array_is_now (text : string) : string :=
  "Array is now [" +:+ text +:+ "].".

Definition complete : string :=
  "Sorting complete. Final array assigned to 'sortedArray'.".

Definition printing : string :=
  "Printing the final sorted array to the console.".

(** The printed line, [`[${arr.join(', ')}]`]. *)
Definition printed (text : string) : string := "[" +:+ text +:+ "]".

End Describe.

Module BubbleSortSimulator.

Record state := {
  codeLines : list string;
  trace : list ExecutionStep.t;
  variables : loc;
  output : list string;
  currentLine : nat;
}.

(** The simulator object together with the store it runs in. *)
Record machine := { mem : heap; this : state }.

Definition M (A : Type) : Type := machine -> outcome (A * machine).

#[global] Instance M_ret : MRet M := fun A a m => Returned (a, m).
#[global] Instance M_bind : MBind M := fun A B f c m =>
  match c m with
  | Returned (a, m') => f a m'
  | Thrown msg => Thrown msg
  | Unmodelled => Unmodelled
  end.

Definition throw {A} (message : string) : M A := fun _ => Thrown message.
Definition unmodelled {A} : M A := fun _ => Unmodelled.
Definition gets {A} (f : state -> A) : M A := fun m => Returned (f (this m), m).
Definition get_heap : M heap := fun m => Returned (mem m, m).
Definition put_heap (h : heap) : M unit := fun m => Returned (tt, {| mem := h; this := this m |}).
Definition modify (f : state -> state) : M unit :=
  fun m => Returned (tt, {| mem := mem m; this := f (this m) |}).

(** [new BubbleSortSimulator(code)] *)
Definition new (code : string) (h : heap) : machine :=
  let '(scope, h') := alloc (ORecord ∅) h in
  {| mem := h';
     this := {| codeLines := Str.split LF code;
                trace := [];
                variables := scope;
                output := [];
                currentLine := 1 |} |}.

(** Arrays in the store. *)
Definition new_array (xs : list element) : M loc :=
  h ← get_heap; let '(l, h') := alloc (OArray xs) h in put_heap h';; mret l.

Definition read_array (a : loc) : M (list element) :=
  h ← get_heap;
  match objects h !! a with
  | Some (OArray xs) => mret xs
  | _ => unmodelled
  end.

(** [[...a]] *)
Definition spread (a : loc) : M loc := xs ← read_array a; new_array xs.

(** [a.length] *)
Definition array_length (a : loc) : M nat := xs ← read_array a; mret (length xs).

(** [a[i]], within bounds. *)
Definition array_get (a : loc) (i : nat) : M element :=
  xs ← read_array a;
  match xs !! i with
  | Some x => mret x
  | None => unmodelled
  end.

(** [a[i] = x], within bounds. *)
Definition array_set (a : loc) (i : nat) (x : element) : M unit :=
  xs ← read_array a;
  if decide (i < length xs) then
    h ← get_heap; put_heap (update a (OArray (<[i := x]> xs)) h)
  else unmodelled.

(** [a.join(sep)] *)
Definition array_join (a : loc) (sep : string) : M string :=
  xs ← read_array a; mret (Str.join sep (joined <$> xs)).

(** [this.variables[name] = v] *)
Definition assign_variable (name : string) (v : value) : M unit :=
  scope ← gets variables;
  h ← get_heap;
  match objects h !! scope with
  | Some (ORecord fields) => put_heap (update scope (ORecord (set_property name v fields)) h)
  | _ => unmodelled
  end.

(** [for (let i = lo; i < hi; i++) body] *)
Fixpoint for_upto (count i : nat) (body : nat -> M unit) : M unit :=
  match count with
  | 0 => mret tt
  | S count' => body i;; for_upto count' (S i) body
  end.

Definition for_range (lo hi : nat) (body : nat -> M unit) : M unit :=
  for_upto (hi - lo) lo body.

Definition logStep (description : string) (lineNumber : nat) : M unit :=
  (if decide (lineNumber = 0) then mret tt
   else modify (fun s => {| codeLines := codeLines s; trace := trace s;
                            variables := variables s; output := output s;
                            currentLine := lineNumber |}));;
  scope ← gets variables;
  h ← get_heap;
  match JSON_stringify h scope with
  | None => unmodelled
  | Some text =>
      let '(snapshot, h') := JSON_parse text h in
      put_heap h';;
      modify (fun s =>
        {| codeLines := codeLines s;
           trace := trace s ++
             [ExecutionStep.make (currentLine s) snapshot description
                (match output s with [] => None | _ => Some (output s) end)];
           variables := variables s;
           output := [];
           currentLine := currentLine s |})
  end.

Definition set_output (out : list string) : M unit :=
  modify (fun s => {| codeLines := codeLines s; trace := trace s;
                      variables := variables s; output := out;
                      currentLine := currentLine s |}).

(** [evaluate(expression)] with an empty scope: the array the expression
    evaluates to, as a new object.  When the text is no expression the
    source falls back on [JSON.parse], since the text starts with a
    bracket, and the error of [JSON.parse] leaves [evaluate]. *)
Definition evaluate (expression : string) : M loc :=
  h ← get_heap;
  match evaluate_literal (clock h) expression with
  | Some xs => new_array xs
  | None =>
      if malformed expression && Str.starts_with "[" (trim expression)
      then throw (json_error h expression)
      else unmodelled
  end.

Definition no_array_message : string :=
  "Could not find an array initialization like 'let myArray = [...]'. The simulator is not generic enough for this code.".

(** The body of the inner loop (lines 89-104).  The swap reads both
    elements into a temporary pair, which is not kept, and writes them back
    in the other order. *)
Definition inner_iteration (codeLines : list string) (arrName : string) (arr : loc)
    (innerLoopLine : nat) (j : nat) : M unit :=
  assign_variable "j" (VNum (Z.of_nat j));;
  logStep (Describe.inner j) innerLoopLine;;
  let ifLine := findLine codeLines "if (arr[j]" 0 in
  val1 ← array_get arr j;
  val2 ← array_get arr (j + 1);
  logStep (Describe.comparing arrName j val1 val2) ifLine;;
  if greater val1 val2 then
    let swapLine := findLine codeLines ("[" +:+ arrName +:+ "[j]") 0 in
    logStep (Describe.condition_true val1 val2) swapLine;;
    right ← array_get arr (j + 1);
    left ← array_get arr j;
    array_set arr j right;;
    array_set arr (j + 1) left;;
    copy ← spread arr;
    assign_variable arrName (VRef copy);;
    text ← array_join arr ", ";
    logStep (Describe.array_is_now text) swapLine
  else mret tt.

(** The body of the outer loop (lines 84-105). *)
Definition outer_iteration (codeLines : list string) (arrName : string) (arr : loc)
    (n : nat) (outerLoopLine : nat) (i : nat) : M unit :=
  assign_variable "i" (VNum (Z.of_nat i));;
  logStep (Describe.outer i) outerLoopLine;;
  let innerLoopLine := findLine codeLines "for (let j" 0 in
  for_range 0 (n - i - 1) (inner_iteration codeLines arrName arr innerLoopLine).

(** What [run] does once the array is in the store (lines 70-116). *)
Definition simulate (codeLines : list string) (arrMatch : RegExpMatch) (arrValue : loc)
  : M (list ExecutionStep.t) :=
  let arrName := group1 arrMatch in
  n ← array_length arrValue;
  assign_variable arrName (VRef arrValue);;
  let initLine := findLine codeLines (group0 arrMatch) 0 in
  logStep (Describe.init_array arrName n) initLine;;
  let nInitLine := findLine codeLines "n =" 0 in
  assign_variable "n" (VNum (Z.of_nat n));;
  logStep (Describe.init_n n) nInitLine;;
  arr ← spread arrValue;
  let outerLoopLine := findLine codeLines "for (let i" 0 in
  for_range 0 n (outer_iteration codeLines arrName arr n outerLoopLine);;
  let finalAssignLine := findLine codeLines "sortedArray =" 0 in
  copy ← spread arr;
  assign_variable "sortedArray" (VRef copy);;
  logStep Describe.complete finalAssignLine;;
  let logLine := findLine codeLines "console.log" 0 in
  text ← array_join arr ", ";
  set_output [Describe.printed text];;
  logStep Describe.printing logLine;;
  gets trace.

Definition run : M (list ExecutionStep.t) :=
  codeLines ← gets codeLines;
  let codeText := Str.join newline codeLines in
  match arrInitRegex_match codeText with
  | None => throw no_array_message
  | Some arrMatch =>
      arrValue ← evaluate (group2 arrMatch);
      simulate codeLines arrMatch arrValue
  end.

End BubbleSortSimulator.

(** ** [generateExecutionTrace]

    The promise the function returns is modelled by its settlement: resolved
    with the trace ([Returned]) or rejected with an error ([Thrown]).  The
    artificial delay before it resolves is not part of the model. *)

Definition unsupported_language_message : string :=
  "This non-AI demonstrator currently only supports the JavaScript bubble sort example. Please switch languages.".

Definition not_bubble_sort_message : string :=
  "The current non-AI simulator is a demonstration and only understands the default bubble sort code.".

Definition generateExecutionTrace (code : string) (language : Language) (h : heap)
  : outcome (list ExecutionStep.t * heap) :=
  match language with
  | python => Thrown unsupported_language_message
  | javascript =>
      if negb (Str.includes code "bubbleSort") || negb (Str.includes code "arr.length")
      then Thrown not_bubble_sort_message
      else
        let simulator := BubbleSortSimulator.new code h in
        match BubbleSortSimulator.run simulator with
        | Returned (trace, m) => Returned (trace, BubbleSortSimulator.mem m)
        | Thrown message => Thrown ("Simulation Failed: " +:+ message)
        | Unmodelled => Unmodelled
        end
  end.

(** The array of the source reads the clock. *)
Definition reads_clock (code : string) : bool :=
  match arrInitRegex_match code with
  | Some arrMatch => Str.includes (group2 arrMatch) "Date.now()"
  | None => false
  end.

(** ** Bubble sort on lists: what the two loops do to the working array *)

(** [for (let i = lo; i < lo + count; i++) s = body(i, s)] *)
Fixpoint iterate {T : Type} (count i : nat) (body : nat -> T -> T) (s : T) : T :=
  match count with
  | 0 => s
  | S count' => iterate count' (S i) body (body i s)
  end.

(** The loops compare with [>] and move elements; what they do is stated
    for any elements and any reading [gt] of [val1 > val2]: [greater] for
    the elements of the simulator, [Z.gtb] for integers. *)
Section Sorting.

Context {A : Type} `{Inhabited A}.
Variable gt : A -> A -> bool.

(** [[arr[j], arr[j + 1]] = [arr[j + 1], arr[j]]] *)
Definition swap_at (j : nat) (xs : list A) : list A :=
  <[j + 1 := xs !!! j]> (<[j := xs !!! (j + 1)]> xs).

Definition compare_swap (j : nat) (xs : list A) : list A :=
  let val1 := xs !!! j in
  let val2 := xs !!! (j + 1) in
  if gt val1 val2 then swap_at j xs else xs.

(** One pass of the inner loop, over positions [0 .. m]. *)
Definition pass (m : nat) (xs : list A) : list A := iterate m 0 compare_swap xs.

Definition bubble_sort (xs : list A) : list A :=
  let n := length xs in
  iterate n 0 (fun i => pass (n - i - 1)) xs.

(** The number of times the condition [val1 > val2] holds during the sort,
    that is, the number of swaps performed. *)
Definition count_swap (j : nat) (acc : list A * nat) : list A * nat :=
  let val1 := acc.1 !!! j in
  let val2 := acc.1 !!! (j + 1) in
  if gt val1 val2 then (swap_at j acc.1, S acc.2) else acc.

Definition swaps_performed (xs : list A) : nat :=
  let n := length xs in
  (iterate n 0 (fun i => iterate (n - i - 1) 0 count_swap) (xs, 0)).2.

End Sorting.

(** Every position among the last [i] holds a value at least as large as
    every value before it. *)
Definition settled (i : nat) (xs : list Z) : Prop :=
  forall a b, a < b < length xs -> length xs - i <= b -> (xs !!! a <= xs !!! b)%Z.

(** [Σ (n - i - 1) for i in 0..n-1] *)
Definition inner_entries (n : nat) : nat :=
  sum_list_with (fun i => n - i - 1) (seq 0 n).

(** ** Value-level reading of the simulator

    The same replay with every snapshot held by value.  The simulator on
    the store is shown below to produce, step for step, what this one
    does. *)

Module Replay.

Record step := {
  lineNumber : nat;
  variables : gmap string json;
  description : string;
  output : option (list string);
}.

Record state := {
  vars : gmap string json;
  steps : list step;
  out : list string;
  line : nat;
}.

Definition initial : state := {| vars := ∅; steps := []; out := []; line := 1 |}.

Definition assign (name : string) (v : json) (st : state) : state :=
  {| vars := set_property name v (vars st); steps := steps st;
     out := out st; line := line st |}.

Definition set_out (o : list string) (st : state) : state :=
  {| vars := vars st; steps := steps st; out := o; line := line st |}.

Definition log (description : string) (lineNumber : nat) (st : state) : state :=
  let line' := if decide (lineNumber = 0) then line st else lineNumber in
  {| vars := vars st;
     steps := steps st ++
       [{| lineNumber := line'; variables := vars st; description := description;
           output := match out st with [] => None | _ => Some (out st) end |}];
     out := [];
     line := line' |}.

Definition inner_iteration (codeLines : list string) (arrName : string)
    (innerLoopLine : nat) (j : nat) (acc : list element * state) : list element * state :=
  let xs := acc.1 in
  let st := log (Describe.inner j) innerLoopLine (assign "j" (JNum (Z.of_nat j)) acc.2) in
  let ifLine := findLine codeLines "if (arr[j]" 0 in
  let val1 := xs !!! j in
  let val2 := xs !!! (j + 1) in
  let st := log (Describe.comparing arrName j val1 val2) ifLine st in
  if greater val1 val2 then
    let swapLine := findLine codeLines ("[" +:+ arrName +:+ "[j]") 0 in
    let st := log (Describe.condition_true val1 val2) swapLine st in
    let xs' := swap_at j xs in
    let st := assign arrName (JArr (to_json <$> xs')) st in
    (xs', log (Describe.array_is_now (Str.join ", " (joined <$> xs'))) swapLine st)
  else (xs, st).

Definition outer_iteration (codeLines : list string) (arrName : string)
    (n : nat) (outerLoopLine : nat) (i : nat) (acc : list element * state)
  : list element * state :=
  let st := log (Describe.outer i) outerLoopLine (assign "i" (JNum (Z.of_nat i)) acc.2) in
  let innerLoopLine := findLine codeLines "for (let j" 0 in
  iterate (n - i - 1) 0 (inner_iteration codeLines arrName innerLoopLine) (acc.1, st).

Definition finish (codeLines : list string) (acc : list element * state) : state :=
  let st := assign "sortedArray" (JArr (to_json <$> acc.1)) acc.2 in
  let st := log Describe.complete (findLine codeLines "sortedArray =" 0) st in
  let text := Str.join ", " (joined <$> acc.1) in
  log Describe.printing (findLine codeLines "console.log" 0)
      (set_out [Describe.printed text] st).

Definition prologue (codeLines : list string) (arrMatch : RegExpMatch)
    (arrValue : list element) : state :=
  let arrName := group1 arrMatch in
  let n := length arrValue in
  let st := assign arrName (JArr (to_json <$> arrValue)) initial in
  let st := log (Describe.init_array arrName n) (findLine codeLines (group0 arrMatch) 0) st in
  let st := assign "n" (JNum (Z.of_nat n)) st in
  log (Describe.init_n n) (findLine codeLines "n =" 0) st.

Definition loops (codeLines : list string) (arrMatch : RegExpMatch)
    (arrValue : list element) : list element * state :=
  let n := length arrValue in
  iterate n 0
    (outer_iteration codeLines (group1 arrMatch) n (findLine codeLines "for (let i" 0))
    (arrValue, prologue codeLines arrMatch arrValue).

Definition simulate (codeLines : list string) (arrMatch : RegExpMatch)
    (arrValue : list element) : list step :=
  steps (finish codeLines (loops codeLines arrMatch arrValue)).

(** The steps at both ends of a trace, and the names a snapshot can hold. *)
Section Steps.

Variable codeLines : list string.
Variable arrMatch : RegExpMatch.
Variable arrValue : list element.

Definition init_array_step : step :=
  {| lineNumber := findLine codeLines (group0 arrMatch) 0;
     variables := set_property (group1 arrMatch) (JArr (to_json <$> arrValue)) ∅;
     description := Describe.init_array (group1 arrMatch) (length arrValue);
     output := None |}.

Definition init_n_step : step :=
  {| lineNumber := findLine codeLines "n =" 0;
     variables :=
       <["n" := JNum (Z.of_nat (length arrValue))]>
         (set_property (group1 arrMatch) (JArr (to_json <$> arrValue)) ∅);
     description := Describe.init_n (length arrValue);
     output := None |}.

Definition complete_step : step :=
  {| lineNumber := findLine codeLines "sortedArray =" 0;
     variables :=
       <["sortedArray" := JArr (to_json <$> bubble_sort greater arrValue)]>
         (vars (loops codeLines arrMatch arrValue).2);
     description := Describe.complete;
     output := None |}.

Definition printing_step : step :=
  {| lineNumber := findLine codeLines "console.log" 0;
     variables :=
       <["sortedArray" := JArr (to_json <$> bubble_sort greater arrValue)]>
         (vars (loops codeLines arrMatch arrValue).2);
     description := Describe.printing;
     output :=
       Some [Describe.printed
               (Str.join ", " (joined <$> bubble_sort greater arrValue))] |}.

Definition scope_names : gset string :=
  {[ group1 arrMatch; "n"; "i"; "j"; "sortedArray" ]}.

Definition names_within (st : state) : Prop :=
  dom (vars st) ⊆ scope_names
  /\ Forall (fun s => dom (variables s) ⊆ scope_names) (steps st).

End Steps.

End Replay.

(** ** Reading a trace out of the store *)

(** What a consumer of the trace sees in step [s]: its line, the contents of
    its [variables] object, its description and its output. *)
Definition observe_step (h : heap) (s : ExecutionStep.t) : option Replay.step :=
  match JSON_stringify h (ExecutionStep.variables s) with
  | Some snapshot =>
      Some {| Replay.lineNumber := ExecutionStep.lineNumber s;
              Replay.variables := snapshot;
              Replay.description := ExecutionStep.description s;
              Replay.output := ExecutionStep.output s |}
  | None => None
  end.

Definition observe (h : heap) (tr : list ExecutionStep.t) : option (list Replay.step) :=
  mapM (observe_step h) tr.

(** The settlement of [generateExecutionTrace] as its caller sees it. *)
Definition observe_outcome (r : outcome (list ExecutionStep.t * heap))
  : outcome (option (list Replay.step)) :=
  match r with
  | Returned (tr, h) => Returned (observe h tr)
  | Thrown message => Thrown message
  | Unmodelled => Unmodelled
  end.

(** ** Sharing in the store *)

Definition is_array (h : heap) (l : loc) : Prop :=
  exists xs, objects h !! l = Some (OArray xs).

Definition refers (fields : gmap string value) (r : loc) : Prop :=
  exists name, fields !! name = Some (VRef r).

(** The objects a record is made of: itself and the arrays it refers to. *)
Definition reach (h : heap) (l r : loc) : Prop :=
  r = l \/ exists fields, objects h !! l = Some (ORecord fields) /\ refers fields r.

(** A record all of whose references lead to arrays. *)
Definition record_ok (h : heap) (l : loc) : Prop :=
  exists fields, objects h !! l = Some (ORecord fields)
                 /\ forall r, refers fields r -> is_array h r.

(** Allocation is fresh: every object sits below the next location. *)
Definition heap_wf (h : heap) : Prop :=
  forall l, is_Some (objects h !! l) -> (l < next_loc h)%positive.

(** The store of a page that was just loaded, in a sample engine: the
    clock shows 0, and [JSON.parse] has one message for every error. *)
Definition empty_heap : heap :=
  {| objects := ∅; next_loc := 1%positive; clock := 0%Z;
     json_error := fun text => "Unexpected token in JSON" |}.

(** A store that differs from [h] only inside the objects of the record at [l]:
    the result of mutating that record or its arrays in place. *)
Definition mutated_within (h : heap) (l : loc) (h' : heap) : Prop :=
  forall r, ~ reach h l r -> objects h' !! r = objects h !! r.

(** ** The simulation invariant

    [inv m cl scope p]: the simulator [m] and the value-level state [p] agree
    on everything a consumer can read, and no step of the trace shares an
    object with another step or with the working scope. *)

Definition holds (h : heap) (a : loc) (xs : list element) : Prop :=
  objects h !! a = Some (OArray xs).

Record trace_inv (h : heap) (tr : list ExecutionStep.t) (ps : list Replay.step) : Prop := {
  tr_observe : observe h tr = Some ps;
  tr_ok : forall s, s ∈ tr -> record_ok h (ExecutionStep.variables s);
  tr_disjoint : forall i j si sj, i <> j ->
    tr !! i = Some si -> tr !! j = Some sj ->
    forall r, reach h (ExecutionStep.variables si) r ->
              ~ reach h (ExecutionStep.variables sj) r;
}.

Record inv (m : BubbleSortSimulator.machine) (cl : list string) (scope : loc)
    (p : Replay.state) : Prop := {
  inv_wf : heap_wf (BubbleSortSimulator.mem m);
  inv_code : BubbleSortSimulator.codeLines (BubbleSortSimulator.this m) = cl;
  inv_var : BubbleSortSimulator.variables (BubbleSortSimulator.this m) = scope;
  inv_scope_ok : record_ok (BubbleSortSimulator.mem m) scope;
  inv_scope : JSON_stringify (BubbleSortSimulator.mem m) scope = Some (Replay.vars p);
  inv_trace : trace_inv (BubbleSortSimulator.mem m)
                (BubbleSortSimulator.trace (BubbleSortSimulator.this m)) (Replay.steps p);
  inv_apart : forall s r,
    s ∈ BubbleSortSimulator.trace (BubbleSortSimulator.this m) ->
    reach (BubbleSortSimulator.mem m) (ExecutionStep.variables s) r ->
    ~ reach (BubbleSortSimulator.mem m) scope r;
  inv_out : BubbleSortSimulator.output (BubbleSortSimulator.this m) = Replay.out p;
  inv_line : BubbleSortSimulator.currentLine (BubbleSortSimulator.this m) = Replay.line p;
}.

(** The array at [a] holds [xs] and is private to the running loop: neither
    the scope nor any step refers to it. *)
Definition owns (m : BubbleSortSimulator.machine) (a : loc) (xs : list element) : Prop :=
  holds (BubbleSortSimulator.mem m) a xs
  /\ ~ reach (BubbleSortSimulator.mem m)
         (BubbleSortSimulator.variables (BubbleSortSimulator.this m)) a
  /\ forall s, s ∈ BubbleSortSimulator.trace (BubbleSortSimulator.this m) ->
               ~ reach (BubbleSortSimulator.mem m) (ExecutionStep.variables s) a.

(** What every later operation keeps: the contents of arrays, and the
    privacy of the arrays that are private. *)
Definition preserved (m m' : BubbleSortSimulator.machine) : Prop :=
  (forall b ys, holds (BubbleSortSimulator.mem m) b ys ->
                holds (BubbleSortSimulator.mem m') b ys)
  /\ (forall b ys, owns m b ys -> owns m' b ys).

(** ** Concrete programs *)

(** The JavaScript program the editor starts with ([defaultCode.javascript]). *)
Definition defaultCode : string :=
"function bubbleSort(arr) {
    const n = arr.length;
    for (let i = 0; i < n; i++) {
        for (let j = 0; j < n - i - 1; j++) {
            if (arr[j] > arr[j + 1]) {
                [arr[j], arr[j + 1]] = [arr[j + 1], arr[j]];
            }
        }
    }
    return arr;
}

let myArray = [64, 34, 25, 12, 22, 11, 90];
let sortedArray = bubbleSort(myArray);
console.log(sortedArray);".

(** The same program sorting a one-element array. *)
Definition singletonCode : string :=
"function bubbleSort(arr) {
    const n = arr.length;
    for (let i = 0; i < n; i++) {
        for (let j = 0; j < n - i - 1; j++) {
            if (arr[j] > arr[j + 1]) {
                [arr[j], arr[j + 1]] = [arr[j + 1], arr[j]];
            }
        }
    }
    return arr;
}

let myArray = [5];
let sortedArray = bubbleSort(myArray);
console.log(sortedArray);".

(** A bubble sort without an array to sort. *)
Definition noArrayCode : string :=
"function bubbleSort(arr) {
    const n = arr.length;
    return arr;
}".

(** The number of descriptions that start with [prefix]: the steps of one
    kind. *)
Definition kind_count (prefix : string) (descriptions : list string) : nat :=
  sum_list_with (fun d => if Str.starts_with prefix d then 1 else 0) descriptions.

(** The total weight of the steps logged so far, for a weight [w] on
    descriptions. *)
Definition weigh (w : string -> nat) (st : Replay.state) : nat :=
  sum_list_with w (Replay.description <$> Replay.steps st).

(** The same program sorting three elements. *)
Definition smallCode : string :=
"function bubbleSort(arr) {
    const n = arr.length;
    for (let i = 0; i < n; i++) {
        for (let j = 0; j < n - i - 1; j++) {
            if (arr[j] > arr[j + 1]) {
                [arr[j], arr[j + 1]] = [arr[j + 1], arr[j]];
            }
        }
    }
    return arr;
}

let myArray = [3, 1, 2];
let sortedArray = bubbleSort(myArray);
console.log(sortedArray);".

(** The result of running a program in the empty store. *)
Definition machine_of (code : string) : BubbleSortSimulator.machine :=
  match BubbleSortSimulator.run (BubbleSortSimulator.new code empty_heap) with
  | Returned (_, m) => m
  | _ => BubbleSortSimulator.new code empty_heap
  end.

Definition trace_of (code : string) : list ExecutionStep.t :=
  match BubbleSortSimulator.run (BubbleSortSimulator.new code empty_heap) with
  | Returned (tr, _) => tr
  | _ => []
  end.

Definition heap_of (code : string) : heap := BubbleSortSimulator.mem (machine_of code).

(** The same program sorting an array that holds [NaN]. *)
Definition nanCode : string :=
"function bubbleSort(arr) {
    const n = arr.length;
    for (let i = 0; i < n; i++) {
        for (let j = 0; j < n - i - 1; j++) {
            if (arr[j] > arr[j + 1]) {
                [arr[j], arr[j + 1]] = [arr[j + 1], arr[j]];
            }
        }
    }
    return arr;
}

let myArray = [3, NaN, 1];
let sortedArray = bubbleSort(myArray);
console.log(sortedArray);".

(** The same program sorting an array that holds the time of the call. *)
Definition clockCode : string :=
"function bubbleSort(arr) {
    const n = arr.length;
    for (let i = 0; i < n; i++) {
        for (let j = 0; j < n - i - 1; j++) {
            if (arr[j] > arr[j + 1]) {
                [arr[j], arr[j + 1]] = [arr[j + 1], arr[j]];
            }
        }
    }
    return arr;
}

let myArray = [Date.now(), 0];
let sortedArray = bubbleSort(myArray);
console.log(sortedArray);".

(** The same program with a second statement on the line of the array. *)
Definition secondStatementCode : string :=
"function bubbleSort(arr) {
    const n = arr.length;
    for (let i = 0; i < n; i++) {
        for (let j = 0; j < n - i - 1; j++) {
            if (arr[j] > arr[j + 1]) {
                [arr[j], arr[j + 1]] = [arr[j + 1], arr[j]];
            }
        }
    }
    return arr;
}

let myArray = [3, 1]; myArray[0] = 2;
let sortedArray = bubbleSort(myArray);
console.log(sortedArray);".

(** ** Inversions

    The pairs of positions of a list that are out of order. *)

Fixpoint inversions (xs : list Z) : nat :=
  match xs with
  | [] => 0
  | x :: rest => length (filter (fun y => (y < x)%Z) rest) + inversions rest
  end.

(** Every array of a snapshot is bound to the array's own name or to
    [sortedArray], and satisfies [R]. *)
Definition arrays_are (R : list (option Z) -> Prop) (arrName : string)
    (snapshot : gmap string json) : Prop :=
  forall name xs, snapshot !! name = Some (JArr xs) ->
    (name = arrName \/ name = "sortedArray") /\ R xs.

(** The places where [run] logs a step: the description it writes and the
    text it looks the line up with. *)
Inductive log_site (arrMatch : RegExpMatch) : string -> string -> Prop :=
  | site_init_array n :
      log_site arrMatch (Describe.init_array (group1 arrMatch) n) (group0 arrMatch)
  | site_init_n n : log_site arrMatch (Describe.init_n n) "n ="
  | site_outer i : log_site arrMatch (Describe.outer i) "for (let i"
  | site_inner j : log_site arrMatch (Describe.inner j) "for (let j"
  | site_comparing j val1 val2 :
      log_site arrMatch (Describe.comparing (group1 arrMatch) j val1 val2) "if (arr[j]"
  | site_condition_true val1 val2 :
      log_site arrMatch (Describe.condition_true val1 val2)
               ("[" +:+ group1 arrMatch +:+ "[j]")
  | site_array_is_now text :
      log_site arrMatch (Describe.array_is_now text) ("[" +:+ group1 arrMatch +:+ "[j]")
  | site_complete : log_site arrMatch Describe.complete "sortedArray ="
  | site_printing : log_site arrMatch Describe.printing "console.log".

(** The same program sorting an array that is sorted already. *)
Definition sortedCode : string :=
"function bubbleSort(arr) {
    const n = arr.length;
    for (let i = 0; i < n; i++) {
        for (let j = 0; j < n - i - 1; j++) {
            if (arr[j] > arr[j + 1]) {
                [arr[j], arr[j + 1]] = [arr[j + 1], arr[j]];
            }
        }
    }
    return arr;
}

let myArray = [1, 2, 3];
let sortedArray = bubbleSort(myArray);
console.log(sortedArray);".

(** ** The visualizer: [App.tsx]

    The component's state is the tuple of its [useState] cells, together
    with the object store the trace lives in.  A handler is a function on
    that state: the [set...] calls of one handler are applied in order, an
    updater [set(prev => e)] reading the value left by the calls before it.
    The [disabled] attributes and the conditional rendering of the JSX
    decide which handlers a user can reach in a given state. *)

Inductive Theme := light | dark.

(** [defaultCode.python]; [defaultCode.javascript] is [defaultCode] above. *)
Definition defaultCode_python : string :=
"def bubble_sort(arr):
    n = len(arr)
    for i in range(n):
        for j in range(0, n-i-1):
            if arr[j] > arr[j+1]:
                arr[j], arr[j+1] = arr[j+1], arr[j]
    return arr

my_array = [64, 34, 25, 12, 22, 11, 90]
sorted_array = bubble_sort(my_array)
print(sorted_array)".

Module App.

Record cells := {
  theme : Theme;
  language : Language;
  code : string;
  executionTrace : option (list ExecutionStep.t);   (* ExecutionStep[] | null *)
  currentStep : Z;
  isPlaying : bool;
  speed : Z;
  isLoading : bool;
  error : option string;                            (* string | null *)
  breakpoints : gset nat;                           (* Set<number> *)
  store : heap;
}.

Definition setTheme (v : Theme) (s : cells) : cells :=
  {| theme := v; language := language s; code := code s;
     executionTrace := executionTrace s; currentStep := currentStep s;
     isPlaying := isPlaying s; speed := speed s; isLoading := isLoading s;
     error := error s; breakpoints := breakpoints s; store := store s |}.

Definition setLanguage (v : Language) (s : cells) : cells :=
  {| theme := theme s; language := v; code := code s;
     executionTrace := executionTrace s; currentStep := currentStep s;
     isPlaying := isPlaying s; speed := speed s; isLoading := isLoading s;
     error := error s; breakpoints := breakpoints s; store := store s |}.

Definition setCode (v : string) (s : cells) : cells :=
  {| theme := theme s; language := language s; code := v;
     executionTrace := executionTrace s; currentStep := currentStep s;
     isPlaying := isPlaying s; speed := speed s; isLoading := isLoading s;
     error := error s; breakpoints := breakpoints s; store := store s |}.

Definition setExecutionTrace (v : option (list ExecutionStep.t)) (s : cells) : cells :=
  {| theme := theme s; language := language s; code := code s;
     executionTrace := v; currentStep := currentStep s;
     isPlaying := isPlaying s; speed := speed s; isLoading := isLoading s;
     error := error s; breakpoints := breakpoints s; store := store s |}.

Definition setCurrentStep (v : Z) (s : cells) : cells :=
  {| theme := theme s; language := language s; code := code s;
     executionTrace := executionTrace s; currentStep := v;
     isPlaying := isPlaying s; speed := speed s; isLoading := isLoading s;
     error := error s; breakpoints := breakpoints s; store := store s |}.

Definition setIsPlaying (v : bool) (s : cells) : cells :=
  {| theme := theme s; language := language s; code := code s;
     executionTrace := executionTrace s; currentStep := currentStep s;
     isPlaying := v; speed := speed s; isLoading := isLoading s;
     error := error s; breakpoints := breakpoints s; store := store s |}.

Definition setSpeed (v : Z) (s : cells) : cells :=
  {| theme := theme s; language := language s; code := code s;
     executionTrace := executionTrace s; currentStep := currentStep s;
     isPlaying := isPlaying s; speed := v; isLoading := isLoading s;
     error := error s; breakpoints := breakpoints s; store := store s |}.

Definition setIsLoading (v : bool) (s : cells) : cells :=
  {| theme := theme s; language := language s; code := code s;
     executionTrace := executionTrace s; currentStep := currentStep s;
     isPlaying := isPlaying s; speed := speed s; isLoading := v;
     error := error s; breakpoints := breakpoints s; store := store s |}.

Definition setError (v : option string) (s : cells) : cells :=
  {| theme := theme s; language := language s; code := code s;
     executionTrace := executionTrace s; currentStep := currentStep s;
     isPlaying := isPlaying s; speed := speed s; isLoading := isLoading s;
     error := v; breakpoints := breakpoints s; store := store s |}.

Definition setBreakpoints (v : gset nat) (s : cells) : cells :=
  {| theme := theme s; language := language s; code := code s;
     executionTrace := executionTrace s; currentStep := currentStep s;
     isPlaying := isPlaying s; speed := speed s; isLoading := isLoading s;
     error := error s; breakpoints := v; store := store s |}.

(** The store after a call that allocated in it. *)
Definition setStore (v : heap) (s : cells) : cells :=
  {| theme := theme s; language := language s; code := code s;
     executionTrace := executionTrace s; currentStep := currentStep s;
     isPlaying := isPlaying s; speed := speed s; isLoading := isLoading s;
     error := error s; breakpoints := breakpoints s; store := v |}.

(** The initial values of the [useState] cells. *)
Definition initialState : cells :=
  {| theme := dark; language := javascript; code := defaultCode;
     executionTrace := None; currentStep := 0%Z; isPlaying := false;
     speed := 2%Z; isLoading := false; error := None; breakpoints := ∅;
     store := empty_heap |}.

Definition defaultCodeOf (lang : Language) : string :=
  match lang with
  | python => defaultCode_python
  | javascript => defaultCode
  end.

(** [executionTrace[i]] for a number [i]: [undefined] outside the array. *)
Definition at_index (tr : list ExecutionStep.t) (i : Z) : option ExecutionStep.t :=
  if (0 <=? i)%Z then tr !! Z.to_nat i else None.

(** [executionTrace.length - 1] *)
Definition last_index (tr : list ExecutionStep.t) : Z := (Z.of_nat (length tr) - 1)%Z.

Definition toggleTheme (s : cells) : cells :=
  setTheme (match theme s with light => dark | dark => light end) s.

Definition toggleBreakpoint (lineNumber : nat) (s : cells) : cells :=
  let prev := breakpoints s in
  setBreakpoints
    (if decide (lineNumber ∈ prev) then prev ∖ {[lineNumber]} else prev ∪ {[lineNumber]}) s.

Definition handleLanguageChange (lang : Language) (s : cells) : cells :=
  setBreakpoints ∅
    (setError None
       (setCurrentStep 0%Z
          (setExecutionTrace None
             (setCode (defaultCodeOf lang) (setLanguage lang s))))).

(** [handleVisualize], from the click to the settlement of the promise.
    While the promise is pending [isLoading] disables or hides every control
    but the theme switch, so no other handler runs in between. *)
Definition handleVisualize (s : cells) : outcome cells :=
  let s1 :=
    setIsPlaying false
      (setCurrentStep 0%Z
         (setExecutionTrace None (setError None (setIsLoading true s)))) in
  match generateExecutionTrace (code s) (language s) (store s) with
  | Returned (trace, h) =>
      Returned (setIsLoading false (setExecutionTrace (Some trace) (setStore h s1)))
  | Thrown message => Returned (setIsLoading false (setError (Some message) s1))
  | Unmodelled => Unmodelled
  end.

Inductive direction := forward | backward.

Definition handleStep (d : direction) (s : cells) : cells :=
  match executionTrace s with
  | None => s
  | Some tr =>
      let s1 := setIsPlaying false s in
      match d with
      | forward => setCurrentStep (Z.min (currentStep s1 + 1) (last_index tr)) s1
      | backward => setCurrentStep (Z.max (currentStep s1 - 1) 0) s1
      end
  end.

Definition undefined_step_message : string :=
  "Cannot read properties of undefined (reading 'lineNumber')".

(** The callback of the playback interval. *)
Definition tick (s : cells) : outcome cells :=
  match executionTrace s with
  | None => Returned s
  | Some tr =>
      let prev := currentStep s in
      if (last_index tr <=? prev)%Z then Returned s
      else
        match at_index tr (prev + 1) with
        | None => Thrown undefined_step_message
        | Some nextStep =>
            let s1 :=
              if decide (ExecutionStep.lineNumber nextStep ∈ breakpoints s)
              then setIsPlaying false s else s in
            Returned (setCurrentStep (prev + 1)%Z s1)
        end
  end.

(** The effect on [[currentStep, executionTrace]] that stops playback at the
    last step. *)
Definition stopAtEnd (s : cells) : cells :=
  match executionTrace s with
  | Some tr => if (last_index tr <=? currentStep s)%Z then setIsPlaying false s else s
  | None => s
  end.

(** The render that follows a handler: the effect runs when [currentStep]
    has changed. *)
Definition rerender (s s' : cells) : cells :=
  if decide (currentStep s' = currentStep s) then s' else stopAtEnd s'.

(** [executionTrace?.[currentStep]] *)
Definition currentExecutionStep (s : cells) : option ExecutionStep.t :=
  match executionTrace s with
  | Some tr => at_index tr (currentStep s)
  | None => None
  end.

(** An array whose items are all numbers, [value.every(item => typeof item
    === 'number')]: in a snapshot, which is a JSON copy, an item is a number
    or [null]. *)
Fixpoint every_number (xs : list (option Z)) : option (list Z) :=
  match xs with
  | [] => Some []
  | Some z :: xs' => option_map (cons z) (every_number xs')
  | None :: _ => None
  end.

(** The entries of a snapshot that are arrays of numbers. *)
Definition array_entries (snapshot : gmap string json) : gmap string (list Z) :=
  omap (fun v => match v with JArr xs => every_number xs | JNum _ => None end) snapshot.

(** [arrayVariables]: the variables of the current step that are drawn as
    bar charts, by name. *)
Definition arrayVariables (s : cells) : gmap string (list Z) :=
  match currentExecutionStep s with
  | Some step =>
      match JSON_stringify (store s) (ExecutionStep.variables step) with
      | Some snapshot => array_entries snapshot
      | None => ∅
      end
  | None => ∅
  end.

(** What a user can do, and the interval firing.  A click on the
    visualize button happens at some time, which the clock shows during the
    call. *)
Inductive event :=
  | ToggleTheme
  | ChangeLanguage (lang : Language)
  | EditCode (text : string)
  | ToggleBreakpoint (lineNumber : nat)
  | Visualize (now : Z)
  | Step (d : direction)
  | PlayPause
  | SetSpeed (v : Z)
  | Tick.

(** Whether the control of an event is rendered and not disabled. *)
Definition enabled (ev : event) (s : cells) : bool :=
  match ev with
  | ToggleTheme => true
  | ChangeLanguage _ => negb (isLoading s)
  | EditCode _ =>
      match executionTrace s with
      | None => negb (isLoading s)
      | Some _ => false
      end
  | ToggleBreakpoint lineNumber =>
      match executionTrace s with
      | Some _ => (1 <=? lineNumber) && (lineNumber <=? length (Str.split LF (code s)))
      | None => false
      end
  | Visualize _ => negb (isLoading s)
  | Step backward =>
      match executionTrace s with
      | Some _ => negb (currentStep s =? 0)%Z && negb (isLoading s)
      | None => false
      end
  | Step forward =>
      match executionTrace s with
      | Some tr => negb (currentStep s =? last_index tr)%Z && negb (isLoading s)
      | None => false
      end
  | PlayPause =>
      match executionTrace s with
      | Some tr => negb (isLoading s) && negb (currentStep s =? last_index tr)%Z
      | None => false
      end
  | SetSpeed v =>
      match executionTrace s with
      | Some _ => negb (isLoading s) && (1 <=? v)%Z && (v <=? 10)%Z
      | None => false
      end
  | Tick =>
      match executionTrace s with
      | Some _ => isPlaying s
      | None => false
      end
  end.

Definition handle (ev : event) (s : cells) : outcome cells :=
  if enabled ev s then
    match ev with
    | ToggleTheme => Returned (toggleTheme s)
    | ChangeLanguage lang => Returned (handleLanguageChange lang s)
    | EditCode text => Returned (setCode text s)
    | ToggleBreakpoint lineNumber => Returned (toggleBreakpoint lineNumber s)
    | Visualize now =>
        match handleVisualize (setStore (set_clock now (store s)) s) with
        | Returned s' => Returned (stopAtEnd s')
        | Thrown message => Thrown message
        | Unmodelled => Unmodelled
        end
    | Step d => Returned (rerender s (handleStep d s))
    | PlayPause => Returned (setIsPlaying (negb (isPlaying s)) s)
    | SetSpeed v => Returned (setSpeed v s)
    | Tick =>
        match tick s with
        | Returned s' => Returned (rerender s s')
        | Thrown message => Thrown message
        | Unmodelled => Unmodelled
        end
    end
  else Returned s.

(** A session: the events in the order they happen. *)
Fixpoint session (events : list event) (s : cells) : outcome cells :=
  match events with
  | [] => Returned s
  | ev :: events' =>
      match handle ev s with
      | Returned s' => session events' s'
      | Thrown message => Thrown message
      | Unmodelled => Unmodelled
      end
  end.

(** What holds between the cells of the state in every session. *)
Record invariant (s : cells) : Prop := {
  inv_store : heap_wf (store s);
  inv_loading : isLoading s = false;
  inv_no_trace : executionTrace s = None -> currentStep s = 0%Z;
  inv_shown : forall tr, executionTrace s = Some tr ->
    error s = None
    /\ language s = javascript
    /\ (0 <= currentStep s <= last_index tr)%Z
    /\ (isPlaying s = true -> (currentStep s < last_index tr)%Z)
    /\ exists h, heap_wf h
         /\ generateExecutionTrace (code s) javascript h = Returned (tr, store s);
}.

(** The state a session ends in. *)
Definition after (events : list event) : cells :=
  match session events initialState with
  | Returned s => s
  | _ => initialState
  end.

End App.

(** A session: the three-element program is typed in and visualized, a
    breakpoint is set on the line of the comparison, and playback is
    started. *)
Definition sampleSession : list App.event :=
  [App.ChangeLanguage javascript; App.EditCode smallCode;
   App.Visualize 1700000000000;
   App.ToggleBreakpoint 5; App.PlayPause].

(** * Properties *)

(** ** The model on concrete inputs *)

Example match_default :
  arrInitRegex_match defaultCode
  = Some {| group0 := "let myArray = [64, 34, 25, 12, 22, 11, 90]";
            group1 := "myArray";
            group2 := "[64, 34, 25, 12, 22, 11, 90]" |}.
Proof. vm_compute. reflexivity. Qed.

(** The keyword may end a longer word, blanks may be line breaks, and [.*]
    runs to the last bracket of the line. *)
Example match_inside_word :
  arrInitRegex_match ("outlet x
= [1]; y = [2] // done")
  = Some {| group0 := "let x
= [1]; y = [2]";
            group1 := "x";
            group2 := "[1]; y = [2]" |}.
Proof. vm_compute. reflexivity. Qed.

Example match_needs_bracket_on_line :
  arrInitRegex_match ("let x = [1,
2]") = None.
Proof. vm_compute. reflexivity. Qed.

Example literal_default :
  evaluate_literal 0 "[64, 34, 25, 12, 22, 11, 90]"
  = Some (Int <$> [64; 34; 25; 12; 22; 11; 90]%Z).
Proof. vm_compute. reflexivity. Qed.

Example literal_negative :
  evaluate_literal 0 "[ -3,0 ,7 ]" = Some (Int <$> [-3; 0; 7]%Z).
Proof. vm_compute. reflexivity. Qed.

Example literal_empty : evaluate_literal 0 "[]" = Some [].
Proof. vm_compute. reflexivity. Qed.

Example literal_not_a_number :
  evaluate_literal 0 "[3, NaN, 1]" = Some [Int 3; NaN; Int 1]
  /\ evaluate_literal 0 "[null, 2]" = Some [Null; Int 2].
Proof. vm_compute. auto. Qed.

Example literal_clock :
  evaluate_literal 1700000000000 "[Date.now(), 0]" = Some [Int 1700000000000; Int 0].
Proof. vm_compute. reflexivity. Qed.

(** Outside the embedded fragment: a legacy octal literal, a number that is
    not a safe integer, a fraction, a string, a second reading of the clock,
    a second statement on the line. *)
Example literal_outside :
  evaluate_literal 0 "[012]" = None
  /\ evaluate_literal 0 "[9007199254740992]" = None
  /\ evaluate_literal 0 "[1.5]" = None
  /\ evaluate_literal 0 "['a']" = None
  /\ evaluate_literal 0 "[Date.now(), Date.now()]" = None
  /\ evaluate_literal 0 "[1]; y = [2]" = None.
Proof. vm_compute. auto 10. Qed.

Example lines_default :
  let codeLines := Str.split LF defaultCode in
  length codeLines = 15
  /\ findLine codeLines "n =" 0 = 2
  /\ findLine codeLines "for (let i" 0 = 3
  /\ findLine codeLines "for (let j" 0 = 4
  /\ findLine codeLines "if (arr[j]" 0 = 5
  /\ findLine codeLines "[myArray[j]" 0 = 1
  /\ findLine codeLines "sortedArray =" 0 = 14
  /\ findLine codeLines "console.log" 0 = 15.
Proof. vm_compute. auto 10. Qed.

Example sort_default :
  bubble_sort Z.gtb [64; 34; 25; 12; 22; 11; 90]%Z = [11; 12; 22; 25; 34; 64; 90]%Z
  /\ swaps_performed Z.gtb [64; 34; 25; 12; 22; 11; 90]%Z = 14.
Proof. vm_compute. auto. Qed.

(** No comparison with [NaN] holds, and [null] compares as 0. *)
Example sort_not_a_number :
  bubble_sort greater [Int 3; NaN; Int 1] = [Int 3; NaN; Int 1]
  /\ bubble_sort greater [Int 1; Null; Int (-1)] = [Int (-1); Null; Int 1].
Proof. vm_compute. auto. Qed.

Example count_default :
  let n := 7 in
  let k := 14 in
  inner_entries n = 21
  /\ length (trace_of defaultCode)
     = 2 + n + inner_entries n + inner_entries n + 2 * k + 2.
Proof. vm_compute. auto. Qed.

Example trace_small :
  ExecutionStep.description <$> trace_of smallCode
  = ["Initialize array 'myArray' with 3 elements.";
     "Initialize 'n' with the length of the array, which is 3.";
     "Outer loop starts iteration. 'i' is now 0.";
     "Inner loop starts iteration. 'j' is now 0.";
     "Comparing myArray[0] (3) with myArray[1] (1).";
     "Condition true (3 > 1). Swapping elements.";
     "Array is now [1, 3, 2].";
     "Inner loop starts iteration. 'j' is now 1.";
     "Comparing myArray[1] (3) with myArray[2] (2).";
     "Condition true (3 > 2). Swapping elements.";
     "Array is now [1, 2, 3].";
     "Outer loop starts iteration. 'i' is now 1.";
     "Inner loop starts iteration. 'j' is now 0.";
     "Comparing myArray[0] (1) with myArray[1] (2).";
     "Outer loop starts iteration. 'i' is now 2.";
     "Sorting complete. Final array assigned to 'sortedArray'.";
     "Printing the final sorted array to the console."]
  /\ ExecutionStep.lineNumber <$> trace_of smallCode
     = [13; 2; 3; 4; 5; 1; 1; 4; 5; 1; 1; 3; 4; 5; 3; 14; 15].
Proof. vm_compute. auto. Qed.

Example trace_not_a_number :
  ExecutionStep.description <$> trace_of nanCode
  = ["Initialize array 'myArray' with 3 elements.";
     "Initialize 'n' with the length of the array, which is 3.";
     "Outer loop starts iteration. 'i' is now 0.";
     "Inner loop starts iteration. 'j' is now 0.";
     "Comparing myArray[0] (3) with myArray[1] (NaN).";
     "Inner loop starts iteration. 'j' is now 1.";
     "Comparing myArray[1] (NaN) with myArray[2] (1).";
     "Outer loop starts iteration. 'i' is now 1.";
     "Inner loop starts iteration. 'j' is now 0.";
     "Comparing myArray[0] (3) with myArray[1] (NaN).";
     "Outer loop starts iteration. 'i' is now 2.";
     "Sorting complete. Final array assigned to 'sortedArray'.";
     "Printing the final sorted array to the console."]
  /\ ExecutionStep.output <$> last (trace_of nanCode) = Some (Some ["[3, NaN, 1]"]).
Proof. vm_compute. auto. Qed.

(** The pattern takes the text up to the last bracket of the line; with a
    second statement on the line that text is no expression, and the call
    is rejected with the message of the engine. *)
Example second_statement_rejected h :
  generateExecutionTrace secondStatementCode javascript h
  = Thrown ("Simulation Failed: " +:+ json_error h "[3, 1]; myArray[0]").
Proof. reflexivity. Qed.

Example clock_trace :
  ExecutionStep.output <$> last (trace_of clockCode) = Some (Some ["[0, 0]"])
  /\ (forall tr h,
        generateExecutionTrace clockCode javascript (set_clock 1700000000000 empty_heap)
        = Returned (tr, h) ->
        ExecutionStep.output <$> last tr = Some (Some ["[0, 1700000000000]"])).
Proof. split; [vm_compute; reflexivity|]. intros tr h. vm_compute. by intros [= <- <-]. Qed.

(** ** Strings *)

Section StringFacts.

Lemma starts_with_app p t : Str.starts_with p (p +:+ t) = true.
Proof. induction p as [|a p IH]; simpl; [done|]. by rewrite Ascii.eqb_refl. Qed.

Lemma starts_with_inv p s :
  Str.starts_with p s = true -> exists t, s = p +:+ t.
Proof.
  revert s. induction p as [|a p IH]; intros s H; simpl in *.
  - by exists s.
  - destruct s as [|b s]; [done|].
    destruct (Ascii.eqb_spec a b) as [->|]; [|done].
    destruct (IH _ H) as [t ->]. by exists t.
Qed.

Lemma includes_true s sub : Str.includes s sub = true -> Str.contains s sub.
Proof.
  induction s as [|c s IH]; simpl.
  - destruct (Str.starts_with sub "") eqn:E; [|done].
    intros _. apply starts_with_inv in E as [t E]. by exists "", t.
  - destruct (Str.starts_with sub (String c s)) eqn:E.
    + intros _. apply starts_with_inv in E as [t E]. by exists "", t.
    + intros H. destruct (IH H) as (pre & post & ->). by exists (String c pre), post.
Qed.

Lemma contains_includes s sub : Str.contains s sub -> Str.includes s sub = true.
Proof.
  intros (pre & post & ->). induction pre as [|c pre IH]; simpl.
  - destruct (sub +:+ post) eqn:E; simpl; rewrite <- E, starts_with_app; done.
  - by rewrite IH; destruct (Str.starts_with _ _).
Qed.

Lemma includes_spec s sub : Str.includes s sub = true <-> Str.contains s sub.
Proof. split; [apply includes_true | apply contains_includes]. Qed.

Lemma split_nonempty sep s : Str.split sep s <> [].
Proof.
  destruct s as [|c s]; simpl; [done|].
  destruct (Ascii.eqb c sep); [done|]. by destruct (Str.split sep s).
Qed.

Lemma join_cons_cons sep x y l :
  Str.join sep (x :: y :: l) = x +:+ sep +:+ Str.join sep (y :: l).
Proof. done. Qed.

Lemma join_split code : Str.join newline (Str.split LF code) = code.
Proof.
  induction code as [|c s IH]; simpl; [done|].
  destruct (Ascii.eqb_spec c LF) as [->|Hc].
  - pose proof (split_nonempty LF s) as Hne.
    destruct (Str.split LF s) as [|w ws]; [done|].
    rewrite join_cons_cons, IH. done.
  - pose proof (split_nonempty LF s) as Hne.
    destruct (Str.split LF s) as [|w ws]; [done|].
    destruct ws as [|w' ws]; simpl in *; by rewrite <- IH.
Qed.

End StringFacts.

(** ** The line locator *)

Section FindLine.

Context {A : Type} (p : A -> nat -> bool).

Lemma findIndex_from_Some l i k :
  findIndex_from p l i = Some k ->
  i <= k /\ (exists x, l !! (k - i) = Some x /\ p x k = true)
  /\ forall k' y, i <= k' < k -> l !! (k' - i) = Some y -> p y k' = false.
Proof.
  revert i. induction l as [|x l IH]; intros i; simpl; [done|].
  destruct (p x i) eqn:E.
  - intros [= <-]. split; [lia|]. split.
    + exists x. by rewrite Nat.sub_diag.
    + intros; lia.
  - intros H. destruct (IH _ H) as (Hle & (y & Hy & Hp) & Hmin).
    split; [lia|]. split.
    + exists y. split; [|done].
      replace (k - i) with (S (k - S i)) by lia. done.
    + intros k' z Hk' Hz.
      destruct (decide (k' = i)) as [->|Hne].
      * rewrite Nat.sub_diag in Hz. simpl in Hz. congruence.
      * apply (Hmin k' z); [lia|].
        replace (k' - i) with (S (k' - S i)) in Hz by lia. done.
Qed.

Lemma findIndex_from_None l i :
  findIndex_from p l i = None ->
  forall k x, l !! k = Some x -> p x (i + k) = false.
Proof.
  revert i. induction l as [|x l IH]; intros i; simpl; [done|].
  destruct (p x i) eqn:E; [done|].
  intros H [|k] y Hy; simpl in Hy.
  - rewrite Nat.add_0_r. congruence.
  - replace (i + S k) with (S i + k) by lia. by apply (IH _ H).
Qed.

End FindLine.

(** C4 (as amended): [findLine] returns the 1-based number of the first line
    at or after [startLine] that Str.contains [searchString]; when no such line
    exists it returns [startLine + 1].  The result is never zero, and it is
    the number of an existing line whenever [startLine] is itself the index
    of a line. *)
Theorem findLine_spec (codeLines : list string) (searchString : string) (startLine : nat) :
  let r := findLine codeLines searchString startLine in
  1 <= r
  /\ ((exists line, codeLines !! (r - 1) = Some line
                   /\ startLine <= r - 1
                   /\ Str.contains line searchString
                   /\ forall k line', startLine <= k < r - 1 ->
                        codeLines !! k = Some line' -> ~ Str.contains line' searchString)
      \/ (r = startLine + 1
          /\ forall k line', startLine <= k -> codeLines !! k = Some line' ->
               ~ Str.contains line' searchString))
  /\ (startLine < length codeLines -> r <= length codeLines).
Proof.
  unfold findLine, findIndex.
  destruct (findIndex_from _ codeLines 0) as [index|] eqn:E; simpl.
  - apply findIndex_from_Some in E as (_ & (x & Hx & Hp) & Hmin).
    rewrite Nat.sub_0_r in Hx.
    apply andb_true_iff in Hp as [Hle Hin].
    apply Nat.leb_le in Hle. apply includes_spec in Hin.
    split; [lia|]. split.
    + left. exists x. replace (index + 1 - 1) with index by lia.
      repeat split; try done.
      intros k line' Hk Hl Hc.
      specialize (Hmin k line'). rewrite Nat.sub_0_r in Hmin.
      specialize (Hmin ltac:(lia) Hl).
      apply andb_false_iff in Hmin as [Hf|Hf].
      * apply Nat.leb_gt in Hf. lia.
      * apply includes_spec in Hc. congruence.
    + intros _. apply lookup_lt_Some in Hx. lia.
  - split; [lia|]. split; [|lia].
    right. split; [done|].
    intros k line' Hk Hl Hc.
    pose proof (findIndex_from_None _ _ _ E k line' Hl) as Hf. simpl in Hf.
    apply andb_false_iff in Hf as [Hf|Hf].
    + apply Nat.leb_gt in Hf. lia.
    + apply includes_spec in Hc. congruence.
Qed.

Lemma findLine_spec_witness :
  let codeLines := Str.split LF defaultCode in
  let r := findLine codeLines "for (let j" 2 in
  1 <= r
  /\ ((exists line, codeLines !! (r - 1) = Some line
                   /\ 2 <= r - 1
                   /\ Str.contains line "for (let j"
                   /\ forall k line', 2 <= k < r - 1 ->
                        codeLines !! k = Some line' -> ~ Str.contains line' "for (let j")
      \/ (r = 2 + 1
          /\ forall k line', 2 <= k -> codeLines !! k = Some line' ->
               ~ Str.contains line' "for (let j"))
  /\ (2 < length codeLines -> r <= length codeLines).
Proof. exact (findLine_spec (Str.split LF defaultCode) "for (let j" 2). Defined.

(** C4 (as stated) fails: past the last line the fallback [startLine + 1] is
    not the number of any line. *)
Lemma findLine_out_of_range :
  findLine ["let a = [2, 1];"] "n =" 3 = 4
  /\ ~ (findLine ["let a = [2, 1];"] "n =" 3 <= length ["let a = [2, 1];"]).
Proof. split; [reflexivity|]. vm_compute. lia. Qed.

(** ** Rendering and reading numbers *)

Section Numbers.

Lemma append_cons c s t : String c s +:+ t = String c (s +:+ t).
Proof. done. Qed.

Lemma all_cons p c s : Str.all p (String c s) = p c && Str.all p s.
Proof. done. Qed.

Lemma all_app p s t : Str.all p (s +:+ t) = Str.all p s && Str.all p t.
Proof.
  induction s as [|c s IH]; [done|].
  change (String c s +:+ t) with (String c (s +:+ t)).
  by rewrite !all_cons, IH, andb_assoc.
Qed.

Lemma all_impl (p q : ascii -> bool) s :
  (forall c, p c = true -> q c = true) -> Str.all p s = true -> Str.all q s = true.
Proof.
  intros Hpq. induction s as [|c s IH]; [done|].
  rewrite !all_cons, !andb_true_iff. intros [? ?]. auto.
Qed.

Lemma string_of_uint_numeric d : Str.all numeric_char (NilEmpty.string_of_uint d) = true.
Proof. induction d; simpl; try done; by rewrite all_cons, IHd. Qed.

Lemma number_to_string_numeric z : Str.all numeric_char (number_to_string z) = true.
Proof.
  unfold number_to_string.
  destruct (Z.to_int z) as [d|d]; simpl; unfold NilZero.string_of_uint;
    destruct d; try done; try apply (string_of_uint_numeric (_ d));
    rewrite all_cons; apply (string_of_uint_numeric (_ d)).
Qed.

Lemma number_to_string_nonempty z : number_to_string z <> "".
Proof.
  unfold number_to_string.
  destruct (Z.to_int z) as [d|d]; simpl; [|done].
  unfold NilZero.string_of_uint. by destruct d.
Qed.

Lemma to_int_not_nil z :
  Z.to_int z <> Decimal.Pos Decimal.Nil /\ Z.to_int z <> Decimal.Neg Decimal.Nil.
Proof.
  destruct z as [|p|p]; simpl; split; try done; intros [= H];
    by apply DecimalPos.Unsigned.to_uint_nonnil in H.
Qed.

Lemma parse_number_to_string z :
  safe_integer z = true -> parse_number (number_to_string z) = Some z.
Proof.
  intros Hsafe. unfold parse_number, number_to_string.
  destruct (to_int_not_nil z) as [H1 H2].
  rewrite NilZero.isi by done.
  rewrite DecimalZ.of_to. fold (number_to_string z).
  by rewrite String.eqb_refl, Hsafe.
Qed.

Lemma parse_number_safe tok z : parse_number tok = Some z -> safe_integer z = true.
Proof.
  unfold parse_number. destruct (NilZero.int_of_string tok); [|done].
  destruct (_ && safe_integer _) eqn:E; [|done].
  intros [= <-]. by apply andb_true_iff in E as [_ ?].
Qed.

Lemma numeric_not_space c : numeric_char c = true -> is_space c = false.
Proof.
  destruct c as [[|] [|] [|] [|] [|] [|] [|] [|]]; try done.
Qed.

Lemma numeric_not_comma c : numeric_char c = true -> Ascii.eqb c "," = false.
Proof.
  destruct c as [[|] [|] [|] [|] [|] [|] [|] [|]]; try done.
Qed.

Lemma trim_end_numeric t : Str.all numeric_char t = true -> trim_end t = t.
Proof.
  induction t as [|c t IH]; [done|].
  rewrite all_cons, andb_true_iff. intros [Hc Ht]. simpl.
  rewrite (IH Ht). destruct t; [|done].
  by rewrite (numeric_not_space _ Hc).
Qed.

Lemma trim_numeric t :
  Str.all numeric_char t = true -> t <> "" -> trim t = t /\ trim (String " " t) = t.
Proof.
  intros Ht Hne. destruct t as [|c t]; [done|].
  pose proof Ht as Ht'. rewrite all_cons, andb_true_iff in Ht'. destruct Ht' as [Hc _].
  unfold trim. simpl. rewrite (numeric_not_space _ Hc). simpl.
  split; by apply (trim_end_numeric (String c t)).
Qed.

Lemma split_app_nosep sep t s :
  Str.all (fun c => negb (Ascii.eqb c sep)) t = true ->
  Str.split sep (t +:+ s) =
    match Str.split sep s with
    | [] => [t]
    | w :: ws => (t +:+ w) :: ws
    end.
Proof.
  induction t as [|c t IH].
  - intros _. change ("" +:+ s) with s. pose proof (split_nonempty sep s) as Hne.
    destruct (Str.split sep s); [by destruct Hne|done].
  - rewrite all_cons, andb_true_iff, negb_true_iff. intros [Hc Ht].
    change (String c t +:+ s) with (String c (t +:+ s)).
    cbn [Str.split]. rewrite Hc, (IH Ht).
    destruct (Str.split sep s); done.
Qed.

Lemma split_nosep sep t :
  Str.all (fun c => negb (Ascii.eqb c sep)) t = true -> Str.split sep t = [t].
Proof.
  induction t as [|c t IH]; [done|].
  rewrite all_cons, andb_true_iff, negb_true_iff. intros [Hc Ht].
  cbn [Str.split]. by rewrite Hc, (IH Ht).
Qed.

Lemma split_join_comma t toks :
  no_comma t -> Forall no_comma toks ->
  Str.split "," (Str.join ", " (t :: toks)) = t :: (String " " <$> toks).
Proof.
  intros Ht Htoks. revert t Ht. induction Htoks as [|u toks Hu Htoks IH]; intros t Ht.
  - simpl. by apply split_nosep.
  - rewrite join_cons_cons. rewrite split_app_nosep by done.
    change (", " +:+ Str.join ", " (u :: toks))
      with (String "," (String " " (Str.join ", " (u :: toks)))).
    cbn [Str.split]. rewrite (IH u Hu). cbn.
    f_equal. clear. induction t as [|c t IHt]; [done|].
    change (String c t +:+ "") with (String c (t +:+ "")). by rewrite IHt.
Qed.

Lemma numeric_no_comma t : Str.all numeric_char t = true -> no_comma t.
Proof.
  apply all_impl. intros c Hc. by rewrite (numeric_not_comma _ Hc).
Qed.

Lemma before_closing_bracket_app body :
  before_closing_bracket (body +:+ "]") = Some body.
Proof.
  induction body as [|c body IH]; [done|].
  change (String c body +:+ "]") with (String c (body +:+ "]")).
  cbn [before_closing_bracket]. rewrite IH.
  destruct body; done.
Qed.

Lemma bracketed_printed text : bracketed (Describe.printed text) = Some text.
Proof. unfold Describe.printed. simpl. apply before_closing_bracket_app. Qed.

Lemma numeric_head c t : Str.all numeric_char (String c t) = true -> numeric_char c = true.
Proof. rewrite all_cons, andb_true_iff. by intros [? _]. Qed.

(** A rendered number is not one of the other element expressions. *)
Lemma parse_element_numeric clock t :
  Str.all numeric_char t = true -> parse_element clock t = option_map Int (parse_number t).
Proof.
  intros Ht. unfold parse_element.
  destruct (String.eqb_spec t "NaN") as [-> |_]; [done|].
  destruct (String.eqb_spec t "null") as [-> |_]; [done|].
  by destruct (String.eqb_spec t "Date.now()") as [-> |_].
Qed.

Lemma parse_elements_rendered clock (pre : string -> string) zs :
  (forall t, Str.all numeric_char t = true -> t <> "" -> trim (pre t) = t) ->
  Forall (fun z => safe_integer z = true) zs ->
  parse_elements clock (pre <$> (number_to_string <$> zs)) = Some (Int <$> zs).
Proof.
  intros Hpre. induction 1 as [|z zs Hz _ IH]; [done|].
  cbn [fmap list_fmap parse_elements]. cbn [fmap] in IH. rewrite IH.
  rewrite Hpre by auto using number_to_string_numeric, number_to_string_nonempty.
  rewrite parse_element_numeric by apply number_to_string_numeric.
  by rewrite parse_number_to_string.
Qed.

Lemma clock_readings_rendered (pre : string -> string) zs :
  (forall t, Str.all numeric_char t = true -> t <> "" -> trim (pre t) = t) ->
  clock_readings (pre <$> (number_to_string <$> zs)) = 0.
Proof.
  intros Hpre. unfold clock_readings. induction zs as [|z zs IH]; [done|].
  cbn [fmap list_fmap]. rewrite filter_cons.
  destruct (decide _) as [E|_]; [|exact IH].
  rewrite Hpre in E by auto using number_to_string_numeric, number_to_string_nonempty.
  pose proof (number_to_string_numeric z) as Hn. by rewrite E in Hn.
Qed.

(** Reading back a printed array of integers gives the array, whatever the
    clock shows. *)
Lemma parse_printed clock zs :
  Forall (fun z => safe_integer z = true) zs ->
  evaluate_literal clock (Describe.printed (Str.join ", " (number_to_string <$> zs)))
  = Some (Int <$> zs).
Proof.
  intros Hsafe. unfold evaluate_literal. rewrite bracketed_printed.
  destruct Hsafe as [|z zs Hz Hzs]; [done|].
  cbn [fmap list_fmap].
  assert (Str.all is_space (Str.join ", " (number_to_string z :: (number_to_string <$> zs))) = false) as ->.
  { pose proof (number_to_string_numeric z) as Hn.
    pose proof (number_to_string_nonempty z) as Hne.
    destruct (number_to_string z) as [|c t] eqn:E; [done|].
    rewrite all_cons, andb_true_iff in Hn. destruct Hn as [Hc _].
    destruct (number_to_string <$> zs) as [|y ys].
    - cbn [Str.join]. by rewrite all_cons, (numeric_not_space _ Hc).
    - rewrite join_cons_cons, append_cons.
      by rewrite all_cons, (numeric_not_space _ Hc). }
  cbv zeta. rewrite split_join_comma.
  - assert (forall t, Str.all numeric_char t = true -> t <> "" -> trim (String " " t) = t)
      as Hpre by (intros t Ht Hne; by apply trim_numeric).
    destruct (trim_numeric _ (number_to_string_numeric z) (number_to_string_nonempty z))
      as [Htrim _].
    assert (clock_readings (number_to_string z :: (String " " <$> (number_to_string <$> zs))) = 0)
      as ->.
    { unfold clock_readings. rewrite filter_cons.
      destruct (decide _) as [E|_].
      - rewrite Htrim in E. pose proof (number_to_string_numeric z) as Hn. by rewrite E in Hn.
      - apply (clock_readings_rendered (String " ")), Hpre. }
    cbn [parse_elements decide]. rewrite decide_True by lia. cbn [parse_elements].
    rewrite Htrim, parse_element_numeric by apply number_to_string_numeric.
    rewrite parse_number_to_string by done.
    by rewrite (parse_elements_rendered clock (String " ")).
  - apply numeric_no_comma, number_to_string_numeric.
  - apply Forall_fmap, Forall_forall. intros x _.
    apply numeric_no_comma, number_to_string_numeric.
Qed.

Lemma parse_element_safe clock tok x : parse_element clock tok = Some x -> safe_element x.
Proof.
  unfold parse_element.
  destruct (String.eqb tok "NaN"); [by intros [= <-]|].
  destruct (String.eqb tok "null"); [by intros [= <-]|].
  destruct (String.eqb tok "Date.now()").
  - destruct (safe_integer clock) eqn:E; [|done]. by intros [= <-].
  - destruct (parse_number tok) as [z|] eqn:E; [|done].
    intros [= <-]. by apply (parse_number_safe tok).
Qed.

Lemma parse_elements_safe clock toks xs :
  parse_elements clock toks = Some xs -> Forall safe_element xs.
Proof.
  revert xs. induction toks as [|tok toks IH]; intros xs; simpl.
  - intros [= <-]. constructor.
  - destruct (parse_element clock (trim tok)) as [x|] eqn:E; [|done].
    destruct (parse_elements clock toks) as [ys|]; [|done].
    intros [= <-]. constructor; eauto using parse_element_safe.
Qed.

Lemma evaluate_literal_safe clock e xs :
  evaluate_literal clock e = Some xs -> Forall safe_element xs.
Proof.
  unfold evaluate_literal. destruct (bracketed e); [|done].
  destruct (Str.all is_space s).
  - intros [= <-]. constructor.
  - cbv zeta. destruct (decide _); [|done]. apply parse_elements_safe.
Qed.

Lemma safe_elements_integers zs :
  Forall safe_element (Int <$> zs) -> Forall (fun z => safe_integer z = true) zs.
Proof. rewrite Forall_fmap. intros H. eapply Forall_impl; [exact H|]. by intros z. Qed.

Lemma append_assoc (a b c : string) : (a +:+ b) +:+ c = a +:+ (b +:+ c).
Proof. induction a as [|x a IH]; [done|]. by rewrite !append_cons, IH. Qed.

Lemma append_nil_l (a : string) : "" +:+ a = a.
Proof. done. Qed.

Lemma span_spec p s a b : Str.span p s = (a, b) -> s = a +:+ b /\ Str.all p a = true.
Proof.
  revert a b. induction s as [|c s IH]; intros a b; cbn [Str.span].
  - by intros [= <- <-].
  - destruct (p c) eqn:Hc.
    + destruct (Str.span p s) as [a' b'] eqn:E. intros [= <- <-].
      destruct (IH _ _ eq_refl) as [-> Ha]. split; [done|]. by rewrite all_cons, Hc.
    + by intros [= <- <-].
Qed.

(** *** Substrings *)

Lemma contains_refl s : Str.contains s s.
Proof.
  exists "", "". change ("" +:+ s +:+ "") with (s +:+ "").
  induction s as [|c s IH]; [done|]. rewrite append_cons. by f_equal.
Qed.

Lemma contains_trans s t u : Str.contains s t -> Str.contains t u -> Str.contains s u.
Proof.
  intros (a & b & ->) (c & d & ->). exists (a +:+ c), (d +:+ b).
  by rewrite !append_assoc.
Qed.

Lemma contains_prefix_suffix a s b : Str.contains (a +:+ s +:+ b) s.
Proof. by exists a, b. Qed.

Lemma contains_cons c s t : Str.contains s t -> Str.contains (String c s) t.
Proof. intros (a & b & ->). by exists (String c a), b. Qed.

Lemma trim_end_contains s : exists post, s = trim_end s +:+ post.
Proof.
  induction s as [|c s [post IH]]; [by exists ""|].
  cbn [trim_end]. destruct (trim_end s) as [|d t] eqn:E.
  - destruct (is_space c).
    + by exists (String c s).
    + exists s. done.
  - exists post. rewrite append_cons. by f_equal.
Qed.

Lemma trim_contains s : Str.contains s (trim s).
Proof.
  unfold trim. destruct (Str.span is_space s) as [a b] eqn:E.
  apply span_spec in E as [-> _]. cbn [snd].
  destruct (trim_end_contains b) as [post Hb].
  exists a, post. by rewrite <- Hb.
Qed.

(** The first piece starts the text, and every piece is a part of it. *)
Lemma split_pieces sep s :
  exists w ws, Str.split sep s = w :: ws
    /\ (exists post, s = w +:+ post)
    /\ (forall tok, tok ∈ ws -> Str.contains s tok).
Proof.
  induction s as [|c s (w & ws & E & [post Hw] & Hws)]; cbn [Str.split].
  - exists "", []. split; [done|]. split; [by exists ""|]. by intros tok ?%elem_of_nil.
  - rewrite E. destruct (Ascii.eqb c sep).
    + exists "", (w :: ws). split; [done|]. split; [by exists (String c s)|].
      intros tok [-> | Hin]%elem_of_cons; apply contains_cons.
      * exists "", post. exact Hw.
      * by apply Hws.
    + exists (String c w), ws. split; [done|]. split.
      * exists post. rewrite append_cons. by f_equal.
      * intros tok Hin. by apply contains_cons, Hws.
Qed.

Lemma split_contains sep s tok : tok ∈ Str.split sep s -> Str.contains s tok.
Proof.
  destruct (split_pieces sep s) as (w & ws & -> & [post Hw] & Hws).
  intros [-> | Hin]%elem_of_cons; [|by apply Hws].
  exists "", post. exact Hw.
Qed.

Lemma before_closing_bracket_spec s body :
  before_closing_bracket s = Some body -> s = body +:+ "]".
Proof.
  revert body. induction s as [|c s IH]; intros body; [done|].
  cbn [before_closing_bracket]. destruct s as [|d s].
  - destruct (Ascii.eqb_spec c "]") as [-> |]; [|done]. by intros [= <-].
  - destruct (before_closing_bracket (String d s)) as [t|]; [|done].
    intros [= <-]. rewrite append_cons. f_equal. by apply IH.
Qed.

Lemma bracketed_contains e body : bracketed e = Some body -> Str.contains e body.
Proof.
  unfold bracketed. destruct e as [|c s]; [done|].
  destruct (Ascii.eqb_spec c "[") as [-> |Hc].
  - intros ->%before_closing_bracket_spec. by exists "[", "]".
  - intros H. exfalso. revert H Hc. clear.
    destruct c as [[|] [|] [|] [|] [|] [|] [|] [|]]; try done.
Qed.

(** *** An expression that does not mention the clock *)

Lemma parse_element_clock t1 t2 tok :
  tok <> "Date.now()" -> parse_element t1 tok = parse_element t2 tok.
Proof.
  intros Hne. unfold parse_element.
  destruct (String.eqb tok "NaN"); [done|]. destruct (String.eqb tok "null"); [done|].
  by destruct (String.eqb_spec tok "Date.now()").
Qed.

Lemma parse_elements_clock t1 t2 toks :
  Forall (fun tok => trim tok <> "Date.now()") toks ->
  parse_elements t1 toks = parse_elements t2 toks.
Proof.
  induction 1 as [|tok toks Htok _ IH]; [done|].
  cbn [parse_elements]. by rewrite IH, (parse_element_clock t1 t2).
Qed.

Lemma evaluate_literal_clock t1 t2 e :
  Str.includes e "Date.now()" = false -> evaluate_literal t1 e = evaluate_literal t2 e.
Proof.
  intros Hno. unfold evaluate_literal. destruct (bracketed e) as [body|] eqn:Eb; [|done].
  destruct (Str.all is_space body); [done|]. cbv zeta.
  destruct (decide _); [|done]. apply parse_elements_clock, Forall_forall.
  intros tok Hin Htrim.
  assert (Str.contains e "Date.now()") as Hc; [|apply includes_spec in Hc; congruence].
  apply (contains_trans _ body); [by apply bracketed_contains|].
  apply (contains_trans _ tok); [by eapply split_contains|].
  rewrite <- Htrim. apply trim_contains.
Qed.

(** *** A text of the fragment holds no semicolon *)

Lemma trim_end_spec s : exists post, s = trim_end s +:+ post /\ Str.all is_space post = true.
Proof.
  induction s as [|c s (post & IH & Hpost)]; [by exists ""|].
  cbn [trim_end]. destruct (trim_end s) as [|d t] eqn:E.
  - change ("" +:+ post) with post in IH. subst post.
    destruct (is_space c) eqn:Hc.
    + exists (String c s). split; [done|]. by rewrite all_cons, Hc.
    + exists s. done.
  - exists post. split; [|done]. rewrite append_cons. by f_equal.
Qed.

Lemma all_trim p s :
  (forall c, is_space c = true -> p c = true) ->
  Str.all p (trim s) = true -> Str.all p s = true.
Proof.
  intros Hp. unfold trim. destruct (Str.span is_space s) as [a b] eqn:E.
  apply span_spec in E as [-> Ha]. cbn [snd].
  destruct (trim_end_spec b) as (post & Hb & Hpost). intros Ht.
  rewrite Hb, !all_app, Ht, (all_impl is_space p a Hp Ha), (all_impl is_space p post Hp Hpost).
  done.
Qed.

Lemma all_split p sep s :
  p sep = true -> Forall (fun tok => Str.all p tok = true) (Str.split sep s) ->
  Str.all p s = true.
Proof.
  intros Hsep. induction s as [|c s IH]; [done|]. cbn [Str.split].
  destruct (Ascii.eqb_spec c sep) as [-> |Hne].
  - intros [_ H]%Forall_cons. by rewrite all_cons, Hsep, IH.
  - pose proof (split_nonempty sep s) as Hnil.
    destruct (Str.split sep s) as [|w ws]; [done|].
    intros [Hw H]%Forall_cons. rewrite all_cons in Hw. apply andb_true_iff in Hw as [Hc Hw].
    rewrite all_cons, Hc, IH; [done|]. by constructor.
Qed.

Lemma parse_number_rendered tok z : parse_number tok = Some z -> tok = number_to_string z.
Proof.
  unfold parse_number. destruct (NilZero.int_of_string tok) as [d|]; [|done].
  destruct (String.eqb_spec (number_to_string (Z.of_int d)) tok) as [E|]; [|done].
  destruct (safe_integer _); [|done]. cbn. by intros [= <-].
Qed.

Local Abbreviation no_semicolon := (fun c => negb (Ascii.eqb c ";")).

Lemma numeric_no_semicolon c : numeric_char c = true -> no_semicolon c = true.
Proof. destruct c as [[|] [|] [|] [|] [|] [|] [|] [|]]; try done. Qed.

Lemma space_no_semicolon c : is_space c = true -> no_semicolon c = true.
Proof. destruct c as [[|] [|] [|] [|] [|] [|] [|] [|]]; try done. Qed.

Lemma parse_element_no_semicolon t tok x :
  parse_element t tok = Some x -> Str.all no_semicolon tok = true.
Proof.
  unfold parse_element.
  destruct (String.eqb_spec tok "NaN") as [-> |_]; [done|].
  destruct (String.eqb_spec tok "null") as [-> |_]; [done|].
  destruct (String.eqb_spec tok "Date.now()") as [-> |_]; [done|].
  destruct (parse_number tok) as [z|] eqn:E; [|done]. intros _.
  apply parse_number_rendered in E as ->.
  apply (all_impl numeric_char); [apply numeric_no_semicolon|apply number_to_string_numeric].
Qed.

Lemma parse_elements_no_semicolon t toks xs :
  parse_elements t toks = Some xs -> Forall (fun tok => Str.all no_semicolon tok = true) toks.
Proof.
  revert xs. induction toks as [|tok toks IH]; intros xs; [constructor|].
  cbn [parse_elements]. destruct (parse_element t (trim tok)) as [x|] eqn:E; [|done].
  destruct (parse_elements t toks) as [ys|]; [|done]. intros _.
  constructor; [|by eapply IH].
  apply all_trim; [apply space_no_semicolon|]. by eapply parse_element_no_semicolon.
Qed.

Lemma evaluate_literal_no_semicolon t e xs :
  evaluate_literal t e = Some xs -> Str.includes e ";" = false.
Proof.
  intros He. destruct (Str.includes e ";") eqn:Hi; [|done]. exfalso.
  apply includes_true in Hi as (pre & post & ->).
  assert (Str.all no_semicolon (pre +:+ ";" +:+ post) = true) as Hall.
  2: { rewrite !all_app in Hall. apply andb_true_iff in Hall as [_ Hall].
       by apply andb_true_iff in Hall as [Hall _]. }
  revert He. generalize (pre +:+ ";" +:+ post). clear. intros e.
  unfold evaluate_literal, bracketed. destruct e as [|c s]; [done|].
  destruct (Ascii.eqb_spec c "[") as [-> |Hc].
  2: { intros H. exfalso. revert H Hc. clear.
       destruct c as [[|] [|] [|] [|] [|] [|] [|] [|]]; try done. }
  destruct (before_closing_bracket s) as [body|] eqn:Eb; [|done].
  apply before_closing_bracket_spec in Eb as ->.
  rewrite all_cons, all_app. cbn [negb Ascii.eqb]. 
  destruct (Str.all is_space body) eqn:Hsp.
  - intros _. by rewrite (all_impl is_space no_semicolon body space_no_semicolon Hsp).
  - cbv zeta. destruct (decide _); [|done]. intros Hp%parse_elements_no_semicolon.
    by rewrite (all_split no_semicolon "," body eq_refl Hp).
Qed.

(** No text is both in the fragment and refused. *)
Lemma malformed_outside t e : malformed e = true -> evaluate_literal t e = None.
Proof.
  unfold malformed. intros [Hi _]%andb_true_iff.
  destruct (evaluate_literal t e) as [xs|] eqn:He; [|done].
  apply evaluate_literal_no_semicolon in He. congruence.
Qed.

End Numbers.

(** ** Loops *)

Section Iterate.

Context {T : Type}.

(** Loop invariants: [P k s] holds on entering iteration [k]. *)
Lemma iterate_invariant (P : nat -> T -> Prop) count i (body : nat -> T -> T) s :
  P i s ->
  (forall k s', i <= k < i + count -> P k s' -> P (S k) (body k s')) ->
  P (i + count) (iterate count i body s).
Proof.
  revert i s. induction count as [|count IH]; intros i s H0 Hstep; simpl.
  - by rewrite Nat.add_0_r.
  - replace (i + S count) with (S i + count) by lia.
    apply IH.
    + apply Hstep; [lia|done].
    + intros k s' Hk. apply Hstep. lia.
Qed.

Lemma iterate_proj {U : Type} (f : T -> U) count i
    (body : nat -> T -> T) (body' : nat -> U -> U) s :
  (forall k s', f (body k s') = body' k (f s')) ->
  f (iterate count i body s) = iterate count i body' (f s).
Proof.
  intros H. revert i s. induction count as [|count IH]; intros i s; simpl; [done|].
  by rewrite IH, H.
Qed.

Lemma iterate_related {U : Type} (R : nat -> T -> U -> Prop) count i
    (body : nat -> T -> T) (body' : nat -> U -> U) s u :
  R i s u ->
  (forall k s' u', i <= k < i + count -> R k s' u' -> R (S k) (body k s') (body' k u')) ->
  R (i + count) (iterate count i body s) (iterate count i body' u).
Proof.
  revert i s u. induction count as [|count IH]; intros i s u H0 Hstep; simpl.
  - by rewrite Nat.add_0_r.
  - replace (i + S count) with (S i + count) by lia.
    apply IH.
    + apply Hstep; [lia|done].
    + intros k s' u' Hk. apply Hstep. lia.
Qed.

End Iterate.

(** ** Bubble sort *)

(** What the loops do whatever the comparison answers. *)
Section Moves.

Context {A : Type} `{Inhabited A}.
Variable gt : A -> A -> bool.

Implicit Types xs ys : list A.

Lemma swap_at_length j xs : length (swap_at j xs) = length xs.
Proof. unfold swap_at. by rewrite !length_insert. Qed.

Lemma swap_at_lookup j xs k :
  j + 1 < length xs ->
  swap_at j xs !!! k =
    if decide (k = j) then xs !!! (j + 1)
    else if decide (k = j + 1) then xs !!! j else xs !!! k.
Proof.
  intros Hj. unfold swap_at.
  rewrite !list_lookup_total_insert, !length_insert.
  repeat case_decide; try done; lia.
Qed.

Lemma swap_at_cons j x xs : swap_at (S j) (x :: xs) = x :: swap_at j xs.
Proof. done. Qed.

Lemma swap_at_perm j xs : j + 1 < length xs -> swap_at j xs ≡ₚ xs.
Proof.
  revert xs. induction j as [|j IH]; intros xs Hj.
  - destruct xs as [|a [|b xs]]; simpl in Hj; try lia.
    unfold swap_at. simpl. apply perm_swap.
  - destruct xs as [|a xs]; simpl in Hj; [lia|].
    rewrite swap_at_cons. f_equiv. apply IH. lia.
Qed.

Lemma compare_swap_length j xs : length (compare_swap gt j xs) = length xs.
Proof. unfold compare_swap. case_match; [apply swap_at_length|done]. Qed.

Lemma compare_swap_perm j xs : j + 1 < length xs -> compare_swap gt j xs ≡ₚ xs.
Proof. intros. unfold compare_swap. case_match; [by apply swap_at_perm|done]. Qed.

Lemma pass_length m xs : length (pass gt m xs) = length xs.
Proof.
  unfold pass.
  apply (iterate_invariant (fun _ ys => length ys = length xs) m 0); [done|].
  intros k ys _ <-. apply compare_swap_length.
Qed.

Lemma pass_perm m xs : m < length xs -> pass gt m xs ≡ₚ xs.
Proof.
  intros Hm. unfold pass.
  pose (P := fun (t : nat) ys => length ys = length xs /\ ys ≡ₚ xs).
  assert (P (0 + m) (iterate m 0 (compare_swap gt) xs)) as [_ ?]; [|done].
  apply iterate_invariant; [done|].
  intros k ys [_ Hk] [Hlen Hperm]. simpl in Hk. split.
  - by rewrite compare_swap_length.
  - rewrite compare_swap_perm by lia. done.
Qed.

Lemma bubble_sort_moves xs :
  length (bubble_sort gt xs) = length xs /\ bubble_sort gt xs ≡ₚ xs.
Proof.
  unfold bubble_sort.
  pose (P := fun (i : nat) ys => length ys = length xs /\ ys ≡ₚ xs).
  change (P (length xs)
    (iterate (length xs) 0 (fun i => pass gt (length xs - i - 1)) xs)).
  replace (length xs) with (0 + length xs) at 1 by lia.
  apply iterate_invariant; [done|].
  intros i ys [_ Hi] [Hlen Hperm]. simpl in Hi. split.
  - by rewrite pass_length.
  - rewrite pass_perm by lia. done.
Qed.

Lemma bubble_sort_perm xs : bubble_sort gt xs ≡ₚ xs.
Proof. apply bubble_sort_moves. Qed.

Lemma bubble_sort_length xs : length (bubble_sort gt xs) = length xs.
Proof. apply bubble_sort_moves. Qed.

(** An array in which no element is greater than the next is left as it
    is. *)
Lemma compare_swap_idle j xs :
  gt (xs !!! j) (xs !!! (j + 1)) = false -> compare_swap gt j xs = xs.
Proof. unfold compare_swap. by intros ->. Qed.

Lemma pass_idle m xs :
  (forall j, j < m -> gt (xs !!! j) (xs !!! (j + 1)) = false) -> pass gt m xs = xs.
Proof.
  intros Hno. unfold pass.
  apply (iterate_invariant (fun _ ys => ys = xs) m 0); [done|].
  intros k ys [_ Hk] ->. simpl in Hk. apply compare_swap_idle, Hno, Hk.
Qed.

Lemma bubble_sort_idle xs :
  (forall j, j + 1 < length xs -> gt (xs !!! j) (xs !!! (j + 1)) = false) ->
  bubble_sort gt xs = xs.
Proof.
  intros Hno. unfold bubble_sort.
  apply (iterate_invariant (fun _ ys => ys = xs) (length xs) 0); [done|].
  intros i ys [_ Hi] ->. simpl in Hi. apply pass_idle.
  intros j Hj. apply Hno. lia.
Qed.

End Moves.

(** On integers, compared as integers, the loops sort. *)
Section BubbleSort.

Implicit Types xs ys : list Z.

Lemma pass_spec m xs :
  m < length xs ->
  let ys := pass Z.gtb m xs in
  length ys = length xs
  /\ ys ≡ₚ xs
  /\ (forall a, a <= m -> (ys !!! a <= ys !!! m)%Z)
  /\ (forall b, m < b -> ys !!! b = xs !!! b)
  /\ (forall a, a <= m -> exists a', a' <= m /\ ys !!! a = xs !!! a').
Proof.
  intros Hm. unfold pass.
  pose (P := fun (t : nat) (ys : list Z) =>
    length ys = length xs
    /\ ys ≡ₚ xs
    /\ (forall a, a <= t -> (ys !!! a <= ys !!! t)%Z)
    /\ (forall b, m < b -> ys !!! b = xs !!! b)
    /\ (forall a, a <= m -> exists a', a' <= m /\ ys !!! a = xs !!! a')).
  change (P (0 + m) (iterate m 0 (compare_swap Z.gtb) xs)).
  apply iterate_invariant.
  - repeat split; try done.
    + intros a Ha. replace a with 0 by lia. lia.
    + intros a Ha. by exists a.
  - intros t ys [_ Ht] (Hlen & Hperm & Hmax & Hrest & Hmem).
    simpl in Ht. unfold P, compare_swap. cbv zeta.
    destruct (Z.gtb (ys !!! t) (ys !!! (t + 1))) eqn:E.
    + apply Z.gtb_lt in E.
      assert (t + 1 < length ys) as Hin by lia.
      rewrite swap_at_length. repeat split.
      * done.
      * by rewrite swap_at_perm.
      * intros a Ha. rewrite !swap_at_lookup by done.
        repeat case_decide; try lia.
        specialize (Hmax a ltac:(lia)). lia.
      * intros b Hb. rewrite swap_at_lookup by done.
        repeat case_decide; try lia. by apply Hrest.
      * intros a Ha. rewrite swap_at_lookup by done.
        repeat case_decide; subst.
        -- apply Hmem. lia.
        -- apply Hmem. lia.
        -- by apply Hmem.
    + rewrite Z.gtb_ltb in E. apply Z.ltb_ge in E.
      repeat split; try done.
      intros a Ha. replace (S t) with (t + 1) by lia.
      destruct (decide (a = t + 1)) as [->|]; [lia|].
      specialize (Hmax a ltac:(lia)). lia.
Qed.

Lemma pass_settles i xs :
  i < length xs -> settled i xs -> settled (S i) (pass Z.gtb (length xs - i - 1) xs).
Proof.
  intros Hi Hs.
  destruct (pass_spec (length xs - i - 1) xs ltac:(lia))
    as (Hlen & _ & Hmax & Hrest & Hmem).
  intros a b Hab Hb. rewrite Hlen in Hab, Hb.
  destruct (decide (b = length xs - i - 1)) as [->|Hne].
  - apply Hmax. lia.
  - rewrite (Hrest b) by lia.
    destruct (decide (a <= length xs - i - 1)) as [Ha|Ha].
    + destruct (Hmem a Ha) as (a' & Ha' & ->). apply Hs; lia.
    + rewrite (Hrest a) by lia. apply Hs; lia.
Qed.

Lemma bubble_sort_spec xs :
  length (bubble_sort Z.gtb xs) = length xs
  /\ bubble_sort Z.gtb xs ≡ₚ xs
  /\ settled (length xs) (bubble_sort Z.gtb xs).
Proof.
  unfold bubble_sort.
  pose (P := fun (i : nat) (ys : list Z) =>
    length ys = length xs /\ ys ≡ₚ xs /\ settled i ys).
  change (P (length xs)
    (iterate (length xs) 0 (fun i => pass Z.gtb (length xs - i - 1)) xs)).
  replace (length xs) with (0 + length xs) at 1 by lia.
  apply iterate_invariant.
  - repeat split; try done. intros a b Hab Hb. lia.
  - intros i ys [_ Hi] (Hlen & Hperm & Hs). simpl in Hi.
    destruct (pass_spec (length xs - i - 1) ys ltac:(lia)) as (Hlen' & Hperm' & _).
    unfold P. repeat split.
    + congruence.
    + by rewrite Hperm'.
    + rewrite <- Hlen. apply pass_settles; [lia|done].
Qed.

Lemma settled_sorted xs : settled (length xs) xs -> StronglySorted Z.le xs.
Proof.
  induction xs as [|x xs IH]; intros Hs; constructor.
  - apply IH. intros a b Hab _.
    apply (Hs (S a) (S b)); simpl; lia.
  - apply Forall_forall. intros y Hy.
    apply list_elem_of_lookup in Hy as [k Hk].
    pose proof (lookup_lt_Some _ _ _ Hk) as Hlt.
    specialize (Hs 0 (S k)). simpl in Hs.
    rewrite (list_lookup_total_correct xs k y Hk) in Hs. apply Hs; lia.
Qed.

Lemma bubble_sort_sorted xs : Sorted Z.le (bubble_sort Z.gtb xs).
Proof.
  apply StronglySorted_Sorted, settled_sorted.
  destruct (bubble_sort_spec xs) as (Hlen & _ & Hs). by rewrite Hlen.
Qed.

End BubbleSort.

(** An array of integers is sorted as its integers are. *)
Section Integers.

Implicit Types zs : list Z.

Lemma greater_Int a b : greater (Int a) (Int b) = Z.gtb a b.
Proof. done. Qed.

Lemma lookup_total_Int zs j : j < length zs -> (Int <$> zs) !!! j = Int (zs !!! j).
Proof.
  intros Hj. apply list_lookup_total_correct.
  rewrite list_lookup_fmap, (list_lookup_lookup_total_lt zs j Hj). done.
Qed.

Lemma swap_at_Int j zs : j + 1 < length zs -> swap_at j (Int <$> zs) = Int <$> swap_at j zs.
Proof.
  intros Hj. unfold swap_at.
  rewrite !list_fmap_insert, !lookup_total_Int by lia. done.
Qed.

Lemma compare_swap_Int j zs :
  j + 1 < length zs ->
  compare_swap greater j (Int <$> zs) = Int <$> compare_swap Z.gtb j zs.
Proof.
  intros Hj. unfold compare_swap. cbv zeta.
  rewrite !lookup_total_Int, greater_Int by lia.
  destruct (Z.gtb _ _); [by apply swap_at_Int|done].
Qed.

Lemma pass_Int m zs :
  m < length zs -> pass greater m (Int <$> zs) = Int <$> pass Z.gtb m zs.
Proof.
  intros Hm. unfold pass.
  pose (R := fun (k : nat) (xs : list element) (ys : list Z) =>
    xs = Int <$> ys /\ length ys = length zs).
  assert (R (0 + m) (iterate m 0 (compare_swap greater) (Int <$> zs))
            (iterate m 0 (compare_swap Z.gtb) zs)) as [? _]; [|done].
  apply iterate_related; [done|].
  intros k xs ys [_ Hk] [-> Hlen]. simpl in Hk. split.
  - apply compare_swap_Int. lia.
  - by rewrite compare_swap_length.
Qed.

Lemma bubble_sort_Int zs : bubble_sort greater (Int <$> zs) = Int <$> bubble_sort Z.gtb zs.
Proof.
  unfold bubble_sort. rewrite length_fmap.
  pose (R := fun (k : nat) (xs : list element) (ys : list Z) =>
    xs = Int <$> ys /\ length ys = length zs).
  assert (R (0 + length zs)
            (iterate (length zs) 0 (fun i => pass greater (length zs - i - 1)) (Int <$> zs))
            (iterate (length zs) 0 (fun i => pass Z.gtb (length zs - i - 1)) zs))
    as [? _]; [|done].
  apply iterate_related; [done|].
  intros i xs ys [_ Hi] [-> Hlen]. simpl in Hi. split.
  - apply pass_Int. lia.
  - by rewrite pass_length.
Qed.

Lemma count_swap_Int j zs k :
  j + 1 < length zs ->
  count_swap greater j (Int <$> zs, k)
  = (Int <$> (count_swap Z.gtb j (zs, k)).1, (count_swap Z.gtb j (zs, k)).2).
Proof.
  intros Hj. unfold count_swap. cbn [fst snd]. cbv zeta.
  rewrite !lookup_total_Int, greater_Int by lia.
  destruct (Z.gtb _ _); [|done]. cbn [fst snd]. by rewrite swap_at_Int.
Qed.

Lemma count_swap_length {A} `{Inhabited A} (gt : A -> A -> bool) j (acc : list A * nat) :
  length (count_swap gt j acc).1 = length acc.1.
Proof.
  unfold count_swap. cbv zeta. destruct (gt _ _); [|done]. apply swap_at_length.
Qed.

Lemma swaps_performed_Int zs :
  swaps_performed greater (Int <$> zs) = swaps_performed Z.gtb zs.
Proof.
  unfold swaps_performed. rewrite length_fmap. cbv zeta.
  pose (R := fun (k : nat) (acc : list element * nat) (acc' : list Z * nat) =>
    acc.1 = Int <$> acc'.1 /\ acc.2 = acc'.2 /\ length acc'.1 = length zs).
  assert (R (0 + length zs)
            (iterate (length zs) 0
               (fun i => iterate (length zs - i - 1) 0 (count_swap greater)) (Int <$> zs, 0))
            (iterate (length zs) 0
               (fun i => iterate (length zs - i - 1) 0 (count_swap Z.gtb)) (zs, 0)))
    as (_ & ? & _); [|done].
  apply iterate_related; [done|].
  intros i acc acc' [_ Hi] HR. simpl in Hi.
  change (R (0 + (length zs - i - 1))
            (iterate (length zs - i - 1) 0 (count_swap greater) acc)
            (iterate (length zs - i - 1) 0 (count_swap Z.gtb) acc')).
  apply iterate_related; [done|].
  intros j [xs k] [ys k'] [_ Hj] (Hxs & Hk & Hlen). simpl in Hj, Hxs, Hk, Hlen. subst xs k.
  rewrite count_swap_Int by lia. split; [done|]. split; [done|].
  by rewrite count_swap_length.
Qed.

End Integers.

(** ** The value-level replay *)

Section ReplayFacts.

Variable codeLines : list string.
Variable arrName : string.

Implicit Types acc : list element * Replay.state.
Implicit Types st : Replay.state.

Lemma findLine_pos cl s k : findLine cl s k <> 0.
Proof. unfold findLine. destruct (findIndex _ cl); lia. Qed.

(** A step logged at a located line carries that line. *)
Lemma log_findLine d s st :
  Replay.log d (findLine codeLines s 0) st =
  {| Replay.vars := Replay.vars st;
     Replay.steps := Replay.steps st ++
       [{| Replay.lineNumber := findLine codeLines s 0;
           Replay.variables := Replay.vars st;
           Replay.description := d;
           Replay.output := match Replay.out st with [] => None | _ => Some (Replay.out st) end |}];
     Replay.out := [];
     Replay.line := findLine codeLines s 0 |}.
Proof.
  unfold Replay.log. destruct (decide (findLine codeLines s 0 = 0)) as [E|]; [|done].
  by apply findLine_pos in E.
Qed.

(** *** The working array *)

Lemma inner_iteration_fst l j acc :
  (Replay.inner_iteration codeLines arrName l j acc).1 = compare_swap greater j acc.1.
Proof.
  unfold Replay.inner_iteration, compare_swap. cbv zeta.
  by destruct (greater _ _).
Qed.

Lemma outer_iteration_fst n l i acc :
  (Replay.outer_iteration codeLines arrName n l i acc).1 = pass greater (n - i - 1) acc.1.
Proof.
  unfold Replay.outer_iteration, pass. cbv zeta.
  rewrite (iterate_proj fst _ _ _ (compare_swap greater)); [done|].
  intros. apply inner_iteration_fst.
Qed.

(** *** Properties kept by every assignment and every logged step *)

Section Preserved.

Variable P : Replay.state -> Prop.
Variable names : string -> Prop.
Hypothesis P_assign : forall name v st, names name -> P st -> P (Replay.assign name v st).
Hypothesis P_log : forall d l st, P st -> P (Replay.log d l st).
Hypothesis names_i : names "i".
Hypothesis names_j : names "j".
Hypothesis names_arr : names arrName.

Lemma inner_iteration_preserves l j acc :
  P acc.2 -> P (Replay.inner_iteration codeLines arrName l j acc).2.
Proof.
  intros H. unfold Replay.inner_iteration. cbv zeta.
  destruct (greater _ _); cbn [fst snd]; auto 10.
Qed.

Lemma inner_loop_preserves l m acc :
  P acc.2 -> P (iterate m 0 (Replay.inner_iteration codeLines arrName l) acc).2.
Proof.
  intros H.
  apply (iterate_invariant (fun _ a => P a.2) m 0); [done|].
  intros. by apply inner_iteration_preserves.
Qed.

Lemma outer_iteration_preserves n l i acc :
  P acc.2 -> P (Replay.outer_iteration codeLines arrName n l i acc).2.
Proof.
  intros H. unfold Replay.outer_iteration. cbv zeta.
  apply inner_loop_preserves. cbn [fst snd]. auto.
Qed.

Lemma outer_loop_preserves n l acc :
  P acc.2 -> P (iterate n 0 (Replay.outer_iteration codeLines arrName n l) acc).2.
Proof.
  intros H.
  apply (iterate_invariant (fun _ a => P a.2) n 0); [done|].
  intros. by apply outer_iteration_preserves.
Qed.

End Preserved.

End ReplayFacts.

(** *** The whole trace *)

Section SimulateFacts.

Variable codeLines : list string.
Variable arrMatch : RegExpMatch.
Variable arrValue : list element.

Local Abbreviation arrName := (group1 arrMatch).
Local Abbreviation n := (length arrValue).
Local Abbreviation acc := (Replay.loops codeLines arrMatch arrValue).
Local Abbreviation init_array_step := (Replay.init_array_step codeLines arrMatch arrValue).
Local Abbreviation init_n_step := (Replay.init_n_step codeLines arrMatch arrValue).
Local Abbreviation complete_step := (Replay.complete_step codeLines arrMatch arrValue).
Local Abbreviation printing_step := (Replay.printing_step codeLines arrMatch arrValue).
Local Abbreviation scope_names := (Replay.scope_names arrMatch).
Local Abbreviation names_within := (Replay.names_within arrMatch).

Lemma loops_fst : acc.1 = bubble_sort greater arrValue.
Proof.
  unfold Replay.loops, bubble_sort. cbv zeta.
  rewrite (iterate_proj fst _ _ _ (fun i => pass greater (length arrValue - i - 1))); [done|].
  intros. apply outer_iteration_fst.
Qed.

Lemma set_property_insert {V} name (v : V) fields :
  name <> "__proto__" -> set_property name v fields = <[name := v]> fields.
Proof. intros. unfold set_property. by case_decide. Qed.

Lemma set_property_dom {V} name (v : V) fields :
  dom (set_property name v fields) ⊆ {[name]} ∪ dom fields.
Proof.
  unfold set_property. case_decide; [set_solver|].
  rewrite dom_insert. set_solver.
Qed.

Lemma prologue_steps :
  Replay.steps (Replay.prologue codeLines arrMatch arrValue)
  = [init_array_step; init_n_step].
Proof.
  unfold Replay.prologue. cbv zeta. rewrite !log_findLine. done.
Qed.

Lemma prologue_out : Replay.out (Replay.prologue codeLines arrMatch arrValue) = [].
Proof. unfold Replay.prologue. cbv zeta. by rewrite !log_findLine. Qed.

Lemma loops_out : Replay.out acc.2 = [].
Proof.
  unfold Replay.loops. cbv zeta.
  apply (outer_loop_preserves codeLines arrName
           (fun st => Replay.out st = []) (fun _ => True)); done.
Qed.

Lemma loops_steps_prefix :
  exists rest, Replay.steps acc.2 = ([init_array_step; init_n_step] ++ rest)%list.
Proof.
  unfold Replay.loops. cbv zeta.
  apply (outer_loop_preserves codeLines arrName
           (fun st => exists rest, Replay.steps st = ([init_array_step; init_n_step] ++ rest)%list)
           (fun _ => True)); try done.
  - intros d l st [rest E]. exists (rest ++
      [{| Replay.lineNumber := if decide (l = 0) then Replay.line st else l;
          Replay.variables := Replay.vars st; Replay.description := d;
          Replay.output := match Replay.out st with [] => None | _ => Some (Replay.out st) end |}])%list.
    unfold Replay.log. cbn [Replay.steps]. rewrite E. by rewrite <- app_assoc.
  - exists []. cbn [fst snd]. by rewrite prologue_steps.
Qed.

Lemma simulate_steps :
  Replay.simulate codeLines arrMatch arrValue
  = (Replay.steps acc.2 ++ [complete_step; printing_step])%list.
Proof.
  unfold Replay.simulate, Replay.finish. cbv zeta.
  rewrite !log_findLine. cbn [Replay.steps Replay.set_out Replay.assign Replay.vars Replay.out].
  rewrite loops_out, loops_fst, set_property_insert by done.
  by rewrite <- app_assoc.
Qed.

Lemma names_within_assign name v st :
  name ∈ scope_names -> names_within st -> names_within (Replay.assign name v st).
Proof.
  intros Hn [Hv Hs]. split; [|done]. cbn [Replay.assign Replay.vars].
  intros x Hx. apply (set_property_dom name v (Replay.vars st)) in Hx.
  apply elem_of_union in Hx as [Hx|Hx]; [|by apply Hv].
  apply elem_of_singleton in Hx. by subst.
Qed.

Lemma names_within_log d l st : names_within st -> names_within (Replay.log d l st).
Proof.
  intros [Hv Hs]. split; [done|]. unfold Replay.log. cbn [Replay.steps].
  apply Forall_app. split; [done|]. by repeat constructor.
Qed.

Lemma simulate_names :
  Forall (fun s => dom (Replay.variables s) ⊆ scope_names)
         (Replay.simulate codeLines arrMatch arrValue).
Proof.
  assert (names_within acc.2) as [Hv Hs].
  { unfold Replay.loops. cbv zeta.
    apply (outer_loop_preserves codeLines arrName names_within (fun x => x ∈ scope_names));
      auto using names_within_assign, names_within_log; try (unfold Replay.scope_names; set_solver).
    cbn [fst snd]. unfold Replay.prologue. cbv zeta.
    repeat first [ apply names_within_log | apply names_within_assign ];
      try (unfold Replay.scope_names; set_solver).
    split; [|constructor]. cbn. set_solver. }
  rewrite simulate_steps. apply Forall_app. split; [done|].
  assert (dom (<["sortedArray" := JArr (to_json <$> bubble_sort greater arrValue)]> (Replay.vars acc.2))
          ⊆ scope_names).
  { intros x Hx. rewrite dom_insert in Hx.
    apply elem_of_union in Hx as [Hx|Hx]; [|by apply Hv].
    apply elem_of_singleton in Hx. subst. unfold Replay.scope_names. set_solver. }
  by repeat constructor.
Qed.

(** Once bound, [n] keeps the length of the array, unless the array itself
    is called [n]. *)
Lemma set_property_lookup_ne {V} name name' (v : V) fields :
  name <> name' -> set_property name v fields !! name' = fields !! name'.
Proof. intros. unfold set_property. case_decide; [done|]. by apply lookup_insert_ne. Qed.

Lemma loops_n_bound :
  arrName <> "n" ->
  Replay.vars acc.2 !! "n" = Some (JNum (Z.of_nat n))
  /\ Forall (fun s => Replay.variables s !! "n" = Some (JNum (Z.of_nat n)))
            (tail (Replay.steps acc.2))
  /\ Replay.steps acc.2 <> [].
Proof.
  intros Hname. unfold Replay.loops. cbv zeta.
  apply (outer_loop_preserves codeLines arrName
    (fun st =>
       Replay.vars st !! "n" = Some (JNum (Z.of_nat n))
       /\ Forall (fun s => Replay.variables s !! "n" = Some (JNum (Z.of_nat n)))
                 (tail (Replay.steps st))
       /\ Replay.steps st <> [])
    (fun name => name <> "n")); try done.
  - intros name v st Hn (Hv & Hs & Hne). split; [|done].
    cbn [Replay.assign Replay.vars]. by rewrite set_property_lookup_ne.
  - intros d l st (Hv & Hs & Hne). split; [done|]. unfold Replay.log. cbn [Replay.steps].
    split; [|by destruct (Replay.steps st)].
    destruct (Replay.steps st) as [|s0 ss]; [done|].
    cbn [tail app] in *. apply Forall_app. split; [done|]. by repeat constructor.
  - cbn [fst snd]. rewrite prologue_steps. unfold Replay.prologue. cbv zeta.
    rewrite !log_findLine. cbn [Replay.vars Replay.assign tail].
    split; [by apply lookup_insert_eq|]. split; [|done].
    repeat constructor. cbn. by apply lookup_insert_eq.
Qed.

Lemma simulate_n_bound :
  arrName <> "n" ->
  Forall (fun s => Replay.variables s !! "n" = Some (JNum (Z.of_nat n)))
         (tail (Replay.simulate codeLines arrMatch arrValue)).
Proof.
  intros Hname. destruct (loops_n_bound Hname) as (Hv & Hs & Hne).
  rewrite simulate_steps.
  destruct (Replay.steps acc.2) as [|s0 ss] eqn:E; [done|].
  cbn [tail app] in *. apply Forall_app. split; [done|].
  repeat constructor; cbn; by rewrite lookup_insert_ne.
Qed.

(** With no element the loops are not entered. *)
Lemma simulate_empty :
  n = 0 ->
  Replay.simulate codeLines arrMatch arrValue
  = [init_array_step; init_n_step; complete_step; printing_step].
Proof.
  intros Hn. rewrite simulate_steps. unfold acc, Replay.loops. cbv zeta.
  rewrite Hn. cbn [iterate snd]. by rewrite prologue_steps.
Qed.

(** With one element the outer loop is entered once and the inner loop not
    at all. *)
Lemma simulate_singleton :
  n = 1 ->
  exists outer_step,
    Replay.simulate codeLines arrMatch arrValue
    = [init_array_step; init_n_step; outer_step; complete_step; printing_step]
    /\ Replay.description outer_step = Describe.outer 0.
Proof.
  intros Hn. rewrite simulate_steps. unfold acc, Replay.loops. cbv zeta.
  rewrite Hn. cbn [iterate]. unfold Replay.outer_iteration. cbv zeta.
  cbn [iterate Nat.sub snd fst]. rewrite log_findLine. cbn [Replay.steps Replay.assign].
  rewrite prologue_steps. eexists. split; [reflexivity|done].
Qed.

End SimulateFacts.

(** *** Counting steps

    Steps are counted with a weight on descriptions that depends on the kind
    of step only; the weight 1 counts all steps, an indicator counts the
    steps of one kind. *)

Section Weighted.

Variable codeLines : list string.
Variable arrMatch : RegExpMatch.
Variable arrValue : list element.

Variable w : string -> nat.
Variables w_outer w_inner w_comparing w_true w_now : nat.
Hypothesis weight_outer : forall i, w (Describe.outer i) = w_outer.
Hypothesis weight_inner : forall j, w (Describe.inner j) = w_inner.
Hypothesis weight_comparing :
  forall j val1 val2, w (Describe.comparing (group1 arrMatch) j val1 val2) = w_comparing.
Hypothesis weight_true : forall val1 val2, w (Describe.condition_true val1 val2) = w_true.
Hypothesis weight_now : forall text, w (Describe.array_is_now text) = w_now.

Local Abbreviation arrName := (group1 arrMatch).

Lemma weigh_log d l st : weigh w (Replay.log d l st) = weigh w st + w d.
Proof.
  unfold weigh, Replay.log. cbn [Replay.steps].
  rewrite fmap_app, sum_list_with_app. simpl. lia.
Qed.

Lemma weigh_assign name v st : weigh w (Replay.assign name v st) = weigh w st.
Proof. done. Qed.

Lemma inner_iteration_weigh l j (acc : list element * Replay.state) (c : list element * nat) :
  acc.1 = c.1 ->
  (Replay.inner_iteration codeLines arrName l j acc).1 = (count_swap greater j c).1
  /\ weigh w (Replay.inner_iteration codeLines arrName l j acc).2 + (w_true + w_now) * c.2
     = weigh w acc.2 + (w_inner + w_comparing) + (w_true + w_now) * (count_swap greater j c).2.
Proof.
  intros E. unfold Replay.inner_iteration, count_swap. cbv zeta. rewrite E.
  destruct (greater _ _); cbn [fst snd]; (split; [done|]);
    rewrite ?weigh_log, ?weigh_assign, ?weigh_log, ?weigh_assign,
      ?weight_inner, ?weight_comparing, ?weight_true, ?weight_now; lia.
Qed.

Lemma inner_loop_weigh l m (acc : list element * Replay.state) (c : list element * nat) :
  acc.1 = c.1 ->
  let acc' := iterate m 0 (Replay.inner_iteration codeLines arrName l) acc in
  let c' := iterate m 0 (count_swap greater) c in
  acc'.1 = c'.1
  /\ weigh w acc'.2 + (w_true + w_now) * c.2
     = weigh w acc.2 + m * (w_inner + w_comparing) + (w_true + w_now) * c'.2.
Proof.
  intros E. cbv zeta.
  pose (R := fun (j : nat) (a : list element * Replay.state) (k : list element * nat) =>
    a.1 = k.1
    /\ weigh w a.2 + (w_true + w_now) * c.2
       = weigh w acc.2 + j * (w_inner + w_comparing) + (w_true + w_now) * k.2).
  change (R (0 + m) (iterate m 0 (Replay.inner_iteration codeLines arrName l) acc)
            (iterate m 0 (count_swap greater) c)).
  apply iterate_related.
  - split; [done|]. lia.
  - intros j a k _ [Ea Hlen].
    destruct (inner_iteration_weigh l j a k Ea) as [E1 E2].
    split; [done|]. lia.
Qed.

Lemma inner_entries_upto_S n i :
  sum_list_with (fun i => n - i - 1) (seq 0 (S i))
  = sum_list_with (fun i => n - i - 1) (seq 0 i) + (n - i - 1).
Proof. rewrite seq_S, sum_list_with_app. simpl. lia. Qed.

Lemma loops_weigh :
  weigh w (Replay.loops codeLines arrMatch arrValue).2
  = w (Describe.init_array arrName (length arrValue)) + w (Describe.init_n (length arrValue))
    + length arrValue * w_outer
    + inner_entries (length arrValue) * (w_inner + w_comparing)
    + (w_true + w_now) * swaps_performed greater arrValue.
Proof.
  unfold Replay.loops, swaps_performed, inner_entries. cbv zeta.
  pose (R := fun (i : nat) (a : list element * Replay.state) (k : list element * nat) =>
    a.1 = k.1
    /\ weigh w a.2
       = w (Describe.init_array arrName (length arrValue))
         + w (Describe.init_n (length arrValue))
         + i * w_outer
         + sum_list_with (fun i => length arrValue - i - 1) (seq 0 i)
           * (w_inner + w_comparing)
         + (w_true + w_now) * k.2).
  match goal with |- weigh w (iterate ?n 0 ?f ?a).2 = _ =>
    assert (R (0 + n) (iterate n 0 f a)
              (iterate n 0 (fun i => iterate (n - i - 1) 0 (count_swap greater)) (arrValue, 0)))
      as [_ H]; [|exact H] end.
  apply iterate_related.
  - split; [done|]. cbn [fst snd]. unfold weigh. rewrite prologue_steps. simpl. lia.
  - intros i a k _ [Ea Hlen]. unfold Replay.outer_iteration. cbv zeta.
    match goal with |- R _ (iterate _ _ _ ?a0) _ =>
      destruct (inner_loop_weigh (findLine codeLines "for (let j" 0)
                  (length arrValue - i - 1) a0 k Ea) as [E1 E2] end.
    cbv zeta in E1, E2. cbn [fst snd] in E2.
    rewrite weigh_log, weigh_assign, weight_outer in E2.
    split; [done|]. rewrite inner_entries_upto_S. lia.
Qed.

Lemma simulate_weigh :
  sum_list_with w (Replay.description <$> Replay.simulate codeLines arrMatch arrValue)
  = w (Describe.init_array arrName (length arrValue)) + w (Describe.init_n (length arrValue))
    + length arrValue * w_outer
    + inner_entries (length arrValue) * (w_inner + w_comparing)
    + (w_true + w_now) * swaps_performed greater arrValue
    + w Describe.complete + w Describe.printing.
Proof.
  rewrite simulate_steps, fmap_app, sum_list_with_app.
  fold (weigh w (Replay.loops codeLines arrMatch arrValue).2).
  rewrite loops_weigh. simpl. lia.
Qed.

End Weighted.

Section Counts.

Variable codeLines : list string.
Variable arrMatch : RegExpMatch.
Variable arrValue : list element.

Lemma sum_list_with_one {A} (l : list A) : sum_list_with (fun _ => 1) l = length l.
Proof. induction l as [|x l IH]; simpl; [done|]. by rewrite IH. Qed.

Lemma simulate_length :
  length (Replay.simulate codeLines arrMatch arrValue)
  = 2 + length arrValue + inner_entries (length arrValue) + inner_entries (length arrValue)
    + 2 * swaps_performed greater arrValue + 2.
Proof.
  rewrite <- (length_fmap Replay.description), <- sum_list_with_one.
  rewrite (simulate_weigh codeLines arrMatch arrValue (fun _ => 1) 1 1 1 1 1) by done.
  lia.
Qed.

(** The steps of each kind. *)
Lemma simulate_kinds :
  let ds := Replay.description <$> Replay.simulate codeLines arrMatch arrValue in
  kind_count "Initialize" ds = 2
  /\ kind_count "Outer loop" ds = length arrValue
  /\ kind_count "Inner loop" ds = inner_entries (length arrValue)
  /\ kind_count "Comparing" ds = inner_entries (length arrValue)
  /\ kind_count "Condition true" ds = swaps_performed greater arrValue
  /\ kind_count "Array is now" ds = swaps_performed greater arrValue
  /\ kind_count "Sorting complete" ds = 1
  /\ kind_count "Printing" ds = 1.
Proof.
  cbv zeta. unfold kind_count.
  repeat split.
  - rewrite (simulate_weigh codeLines arrMatch arrValue _ 0 0 0 0 0) by done.
    change (1 + 1 + length arrValue * 0 + inner_entries (length arrValue) * (0 + 0)
            + (0 + 0) * swaps_performed greater arrValue + 0 + 0 = 2). lia.
  - rewrite (simulate_weigh codeLines arrMatch arrValue _ 1 0 0 0 0) by done.
    change (0 + 0 + length arrValue * 1 + inner_entries (length arrValue) * (0 + 0)
            + (0 + 0) * swaps_performed greater arrValue + 0 + 0 = length arrValue). lia.
  - rewrite (simulate_weigh codeLines arrMatch arrValue _ 0 1 0 0 0) by done.
    change (0 + 0 + length arrValue * 0 + inner_entries (length arrValue) * (1 + 0)
            + (0 + 0) * swaps_performed greater arrValue + 0 + 0
            = inner_entries (length arrValue)). lia.
  - rewrite (simulate_weigh codeLines arrMatch arrValue _ 0 0 1 0 0) by done.
    change (0 + 0 + length arrValue * 0 + inner_entries (length arrValue) * (0 + 1)
            + (0 + 0) * swaps_performed greater arrValue + 0 + 0
            = inner_entries (length arrValue)). lia.
  - rewrite (simulate_weigh codeLines arrMatch arrValue _ 0 0 0 1 0) by done.
    change (0 + 0 + length arrValue * 0 + inner_entries (length arrValue) * (0 + 0)
            + (1 + 0) * swaps_performed greater arrValue + 0 + 0
            = swaps_performed greater arrValue). lia.
  - rewrite (simulate_weigh codeLines arrMatch arrValue _ 0 0 0 0 1) by done.
    change (0 + 0 + length arrValue * 0 + inner_entries (length arrValue) * (0 + 0)
            + (0 + 1) * swaps_performed greater arrValue + 0 + 0
            = swaps_performed greater arrValue). lia.
  - rewrite (simulate_weigh codeLines arrMatch arrValue _ 0 0 0 0 0) by done.
    change (0 + 0 + length arrValue * 0 + inner_entries (length arrValue) * (0 + 0)
            + (0 + 0) * swaps_performed greater arrValue + 1 + 0 = 1). lia.
  - rewrite (simulate_weigh codeLines arrMatch arrValue _ 0 0 0 0 0) by done.
    change (0 + 0 + length arrValue * 0 + inner_entries (length arrValue) * (0 + 0)
            + (0 + 0) * swaps_performed greater arrValue + 0 + 1 = 1). lia.
Qed.

End Counts.

(** ** The store *)

Section Store.

Implicit Types h : heap.
Implicit Types l r : loc.

Lemma alloc_wf o h : heap_wf h -> heap_wf (alloc o h).2.
Proof.
  intros Hwf l [x Hl]. simpl in *.
  destruct (decide (l = next_loc h)) as [->|Hne]; [lia|].
  rewrite lookup_insert_ne in Hl by done.
  specialize (Hwf l (ex_intro _ x Hl)). lia.
Qed.

Lemma wf_fresh h : heap_wf h -> objects h !! next_loc h = None.
Proof.
  intros Hwf. destruct (objects h !! next_loc h) eqn:E; [|done].
  specialize (Hwf _ (ex_intro _ _ E)). lia.
Qed.

Lemma alloc_old o h l :
  (l < next_loc h)%positive -> objects (alloc o h).2 !! l = objects h !! l.
Proof. intros. simpl. apply lookup_insert_ne. lia. Qed.

Lemma alloc_new o h : objects (alloc o h).2 !! next_loc h = Some o.
Proof. simpl. apply lookup_insert_eq. Qed.

Lemma alloc_spec o h :
  heap_wf h ->
  exists h', alloc o h = (next_loc h, h')
    /\ heap_wf h'
    /\ next_loc h' = (next_loc h + 1)%positive
    /\ objects h' !! next_loc h = Some o
    /\ (forall r, (r < next_loc h)%positive -> objects h' !! r = objects h !! r).
Proof.
  intros Hwf. exists (alloc o h).2. split; [done|]. split; [by apply alloc_wf|].
  split; [done|]. split; [apply alloc_new|]. intros. by apply alloc_old.
Qed.

Lemma record_ok_reach h l r :
  record_ok h l -> reach h l r -> is_Some (objects h !! r).
Proof.
  intros (f & Hf & Hrefs) [->|(f' & Hf' & Hr)]; [eauto|].
  rewrite Hf in Hf'. injection Hf' as <-. destruct (Hrefs r Hr) as [xs Hxs]. eauto.
Qed.

Lemma record_ok_below h l r :
  heap_wf h -> record_ok h l -> reach h l r -> (r < next_loc h)%positive.
Proof. intros Hwf Hok Hr. eapply Hwf, record_ok_reach; eauto. Qed.

(** A record is read the same in any store that agrees on its objects. *)
Lemma record_frame h h' l :
  record_ok h l ->
  (forall r, reach h l r -> objects h' !! r = objects h !! r) ->
  record_ok h' l
  /\ JSON_stringify h' l = JSON_stringify h l
  /\ (forall r, reach h' l r <-> reach h l r).
Proof.
  intros (f & Hf & Hrefs) Hsame.
  assert (objects h' !! l = Some (ORecord f)) as Hf'.
  { rewrite Hsame; [done|]. by left. }
  assert (forall r, refers f r -> objects h' !! r = objects h !! r) as Hsame'.
  { intros r Hr. apply Hsame. right. eauto. }
  split; [|split].
  - exists f. split; [done|]. intros r Hr.
    destruct (Hrefs r Hr) as [xs Hxs]. exists xs. by rewrite Hsame'.
  - unfold JSON_stringify. rewrite Hf, Hf'. f_equal.
    apply map_eq. intros name. rewrite !lookup_omap.
    destruct (f !! name) as [[z|r]|] eqn:E; simpl; try done.
    rewrite Hsame'; [done|]. by exists name.
  - intros r. unfold reach. rewrite Hf, Hf'. done.
Qed.

Lemma observe_Some h tr ps :
  observe h tr = Some ps <-> Forall2 (fun s p => observe_step h s = Some p) tr ps.
Proof. apply mapM_Some. Qed.

Lemma observe_step_frame h h' s :
  JSON_stringify h' (ExecutionStep.variables s) = JSON_stringify h (ExecutionStep.variables s) ->
  observe_step h' s = observe_step h s.
Proof. unfold observe_step. by intros ->. Qed.

(** The steps of a trace are read the same in any store that agrees on
    their objects. *)
Lemma trace_inv_frame h h' tr ps :
  trace_inv h tr ps ->
  (forall s r, s ∈ tr -> reach h (ExecutionStep.variables s) r ->
               objects h' !! r = objects h !! r) ->
  trace_inv h' tr ps
  /\ forall s r, s ∈ tr ->
       (reach h' (ExecutionStep.variables s) r <-> reach h (ExecutionStep.variables s) r).
Proof.
  intros [Hobs Hok Hdis] Hsame.
  assert (forall s, s ∈ tr ->
    record_ok h' (ExecutionStep.variables s)
    /\ JSON_stringify h' (ExecutionStep.variables s)
       = JSON_stringify h (ExecutionStep.variables s)
    /\ (forall r, reach h' (ExecutionStep.variables s) r
                  <-> reach h (ExecutionStep.variables s) r)) as Hframe.
  { intros s Hs. apply record_frame; [by apply Hok|]. intros r. by apply Hsame. }
  split; [split|].
  - apply observe_Some. apply observe_Some in Hobs.
    clear -Hobs Hframe. induction Hobs as [|s p tr ps Hs _ IH]; constructor.
    + rewrite <- Hs. apply observe_step_frame, Hframe. by left.
    + apply IH. intros s' Hs'. apply Hframe. by right.
  - intros s Hs. by apply Hframe.
  - intros i j si sj Hne Hi Hj r Hr1 Hr2.
    apply (Hdis i j si sj Hne Hi Hj r).
    + apply Hframe; [|done]. by eapply list_elem_of_lookup_2.
    + apply Hframe; [|done]. by eapply list_elem_of_lookup_2.
  - intros s r Hs. by apply Hframe.
Qed.

(** *** [JSON.parse] builds new objects only *)

(** Writing out what was read gives the text again. *)
Lemma to_json_of_json (xs : list (option Z)) : to_json <$> (of_json <$> xs) = xs.
Proof.
  rewrite <- list_fmap_compose. rewrite <- (list_fmap_id xs) at 2.
  apply list_fmap_ext. by intros _ [z|] _.
Qed.

Lemma parse_fields_spec text h :
  heap_wf h ->
  let fh := parse_fields text h in
  heap_wf fh.2
  /\ (next_loc h <= next_loc fh.2)%positive
  /\ (forall r, (r < next_loc h)%positive -> objects fh.2 !! r = objects h !! r)
  /\ (forall r, refers fh.1 r ->
        (next_loc h <= r)%positive /\ is_array fh.2 r)
  /\ omap (stringify_value fh.2) fh.1 = list_to_map text.
Proof.
  intros Hwf. induction text as [|[name v] text IH]; cbv zeta.
  - simpl. split; [done|]. split; [lia|]. split; [done|]. split; [|done].
    by intros r [k Hk].
  - cbv zeta in IH. destruct IH as (Hwf' & Hle & Hold & Hrefs & Hread).
    cbn [parse_fields]. destruct (parse_fields text h) as [f h'] eqn:E.
    cbn [fst snd] in *. destruct v as [z|xs].
    + cbn [fst snd]. split; [done|]. split; [done|]. split; [done|]. split.
      * intros r [k Hk]. destruct (decide (name = k)) as [->|Hne].
        -- by rewrite lookup_insert_eq in Hk.
        -- rewrite lookup_insert_ne in Hk by done. apply Hrefs. by exists k.
      * rewrite (omap_insert_Some _ _ _ _ (JNum z)) by done. by rewrite Hread.
    + destruct (alloc_spec (OArray (of_json <$> xs)) h' Hwf') as (h'' & Ea & Hwf'' & Hnext & Hnew & Hold').
      rewrite Ea. cbn [fst snd].
      assert (forall r, refers f r -> is_array h'' r) as Hkeep.
      { intros r Hr. destruct (Hrefs r Hr) as [_ [ys Hys]]. exists ys.
        rewrite Hold'; [done|]. apply Hwf'. eauto. }
      split; [done|]. split; [lia|]. split; [|split].
      * intros r Hr. rewrite Hold' by lia. by apply Hold.
      * intros r [k Hk]. destruct (decide (name = k)) as [->|Hne].
        -- rewrite lookup_insert_eq in Hk. injection Hk as <-.
           split; [done|]. by exists (of_json <$> xs).
        -- rewrite lookup_insert_ne in Hk by done.
           split; [apply (Hrefs r)|apply Hkeep]; by exists k.
      * rewrite (omap_insert_Some _ _ _ _ (JArr xs)).
        2:{ simpl. by rewrite Hnew, to_json_of_json. }
        cbn [list_to_map foldr]. f_equal.
        rewrite <- Hread. apply map_eq. intros k. rewrite !lookup_omap.
        destruct (f !! k) as [[z|r]|] eqn:Ek; simpl; try done.
        destruct (Hrefs r (ex_intro _ k Ek)) as [_ [ys Hys]].
        rewrite Hold'; [done|]. apply Hwf'. eauto.
Qed.

Lemma JSON_parse_spec text h :
  heap_wf h ->
  let lh := JSON_parse text h in
  heap_wf lh.2
  /\ (next_loc h <= next_loc lh.2)%positive
  /\ (forall r, (r < next_loc h)%positive -> objects lh.2 !! r = objects h !! r)
  /\ record_ok lh.2 lh.1
  /\ JSON_stringify lh.2 lh.1 = Some text
  /\ (forall r, reach lh.2 lh.1 r -> (next_loc h <= r)%positive).
Proof.
  intros Hwf. cbv zeta. unfold JSON_parse.
  destruct (parse_fields_spec (map_to_list text) h Hwf) as (Hwf' & Hle & Hold & Hrefs & Hread).
  destruct (parse_fields (map_to_list text) h) as [f h'] eqn:E. cbn [fst snd] in *.
  destruct (alloc_spec (ORecord f) h' Hwf') as (h'' & Ea & Hwf'' & Hnext & Hnew & Hold').
  rewrite Ea. cbn [fst snd].
  assert (forall r, refers f r -> objects h'' !! r = objects h' !! r) as Hkeep.
  { intros r Hr. destruct (Hrefs r Hr) as [_ [ys Hys]]. apply Hold', Hwf'. eauto. }
  split; [done|]. split; [lia|]. split; [|split; [|split]].
  - intros r Hr. rewrite Hold' by lia. by apply Hold.
  - exists f. split; [done|]. intros r Hr.
    destruct (Hrefs r Hr) as [_ [ys Hys]]. exists ys. by rewrite Hkeep.
  - unfold JSON_stringify. rewrite Hnew. f_equal.
    rewrite <- (list_to_map_to_list text), <- Hread.
    apply map_eq. intros k. rewrite !lookup_omap.
    destruct (f !! k) as [[z|r]|] eqn:Ek; simpl; try done.
    rewrite Hkeep; [done|]. by exists k.
  - intros r [->|(f' & Hf' & Hr)]; [lia|].
    rewrite Hnew in Hf'. injection Hf' as <-.
    destruct (Hrefs r Hr) as [? _]. done.
Qed.

End Store.

(** ** The simulator's operations keep the invariant *)

Section Operations.

Import BubbleSortSimulator.

Implicit Types m : machine.
Implicit Types p : Replay.state.

Lemma bind_returned {A B} (c : M A) (f : A -> M B) m a m' :
  c m = Returned (a, m') -> (c ≫= f) m = f a m'.
Proof. intros H. unfold mbind, M_bind. by rewrite H. Qed.

Lemma owns_holds m a xs : owns m a xs -> holds (mem m) a xs.
Proof. by intros [? _]. Qed.

Lemma holds_below m cl scope p a xs :
  inv m cl scope p -> holds (mem m) a xs -> (a < next_loc (mem m))%positive.
Proof. intros Hinv Ha. apply (inv_wf _ _ _ _ Hinv). by exists (OArray xs). Qed.

(** Growing the store leaves everything in place. *)
Lemma inv_extend m h' cl scope p :
  inv m cl scope p ->
  heap_wf h' ->
  (forall r, (r < next_loc (mem m))%positive -> objects h' !! r = objects (mem m) !! r) ->
  let m' := {| mem := h'; this := this m |} in
  inv m' cl scope p
  /\ preserved m m'
  /\ (forall r, reach h' scope r <-> reach (mem m) scope r)
  /\ (forall s r, s ∈ trace (this m) ->
        (reach h' (ExecutionStep.variables s) r
         <-> reach (mem m) (ExecutionStep.variables s) r)).
Proof.
  intros [Hwf Hcode Hvar Hsok Hscope Htr Hapart Hout Hline] Hwf' Hold. cbv zeta.
  destruct (record_frame (mem m) h' scope Hsok) as (Hsok' & Hscope' & Hreach').
  { intros r Hr. apply Hold. by eapply record_ok_below. }
  destruct (trace_inv_frame (mem m) h' _ _ Htr) as [Htr' Hreach''].
  { intros s r Hs Hr. apply Hold. eapply record_ok_below; [done| |done].
    by apply (tr_ok _ _ _ Htr). }
  split; [|split; [|split]].
  - split; simpl; try done.
    + by rewrite Hscope'.
    + intros s r Hs Hr Hr'. apply (Hapart s r Hs).
      * by apply Hreach''.
      * by apply Hreach'.
  - split.
    + intros b ys Hb. unfold holds in *. simpl. rewrite Hold; [done|].
      apply Hwf. eauto.
    + intros b ys (Hb & Hns & Hnt). split; [|split]; simpl.
      * unfold holds in *. rewrite Hold; [done|]. apply Hwf. eauto.
      * rewrite Hvar in *. by rewrite Hreach'.
      * intros s Hs. rewrite Hreach'' by done. by apply Hnt.
  - done.
  - done.
Qed.

Lemma new_array_sim xs m cl scope p :
  inv m cl scope p ->
  exists c m',
    new_array xs m = Returned (c, m')
    /\ inv m' cl scope p
    /\ owns m' c xs
    /\ preserved m m'
    /\ objects (mem m) !! c = None.
Proof.
  intros Hinv. pose proof (inv_wf _ _ _ _ Hinv) as Hwf.
  destruct (alloc_spec (OArray xs) (mem m) Hwf) as (h' & Ea & Hwf' & Hnext & Hnew & Hold).
  exists (next_loc (mem m)), {| mem := h'; this := this m |}.
  destruct (inv_extend m h' cl scope p Hinv Hwf' Hold) as (Hinv' & Hpres & Hrs & Hrt).
  split; [|split; [done|split; [|split; [done|by apply wf_fresh]]]].
  - unfold new_array, mbind, M_bind, get_heap. rewrite Ea. done.
  - split; [done|]. simpl. split.
    + rewrite (inv_var _ _ _ _ Hinv). rewrite Hrs. intros Hr.
      apply (record_ok_below _ _ _ Hwf (inv_scope_ok _ _ _ _ Hinv)) in Hr. lia.
    + intros s Hs. rewrite Hrt by done. intros Hr.
      apply (record_ok_below _ _ _ Hwf) in Hr; [lia|].
      by apply (tr_ok _ _ _ (inv_trace _ _ _ _ Hinv)).
Qed.

Lemma read_array_holds a xs m : holds (mem m) a xs -> read_array a m = Returned (xs, m).
Proof. intros H. unfold read_array, mbind, M_bind, get_heap. by rewrite H. Qed.

Lemma array_length_holds a xs m :
  holds (mem m) a xs -> array_length a m = Returned (length xs, m).
Proof. intros H. unfold array_length. by rewrite (bind_returned _ _ _ _ _ (read_array_holds _ _ _ H)). Qed.

Lemma array_get_holds a xs i x m :
  holds (mem m) a xs -> xs !! i = Some x -> array_get a i m = Returned (x, m).
Proof.
  intros H Hx. unfold array_get.
  rewrite (bind_returned _ _ _ _ _ (read_array_holds _ _ _ H)). by rewrite Hx.
Qed.

Lemma array_join_holds a xs sep m :
  holds (mem m) a xs ->
  array_join a sep m = Returned (Str.join sep (joined <$> xs), m).
Proof.
  intros H. unfold array_join.
  by rewrite (bind_returned _ _ _ _ _ (read_array_holds _ _ _ H)).
Qed.

Lemma spread_sim a xs m cl scope p :
  inv m cl scope p -> holds (mem m) a xs ->
  exists c m',
    spread a m = Returned (c, m')
    /\ inv m' cl scope p
    /\ owns m' c xs
    /\ preserved m m'
    /\ c <> a.
Proof.
  intros Hinv Ha. destruct (new_array_sim xs m cl scope p Hinv) as (c & m' & E & ? & ? & ? & Hc).
  exists c, m'. split; [|split; [done|split; [done|split; [done|]]]].
  - unfold spread. by rewrite (bind_returned _ _ _ _ _ (read_array_holds _ _ _ Ha)).
  - intros ->. unfold holds in Ha. congruence.
Qed.

Lemma set_output_sim out m cl scope p :
  inv m cl scope p ->
  exists m',
    set_output out m = Returned (tt, m')
    /\ inv m' cl scope (Replay.set_out out p)
    /\ preserved m m'.
Proof.
  intros [Hwf Hcode Hvar Hsok Hscope Htr Hapart Hout Hline].
  eexists. split; [reflexivity|]. split; [by split|]. by split.
Qed.

(** Reading a value does not depend on the record that is being updated. *)
Lemma stringify_value_update h scope fields fields' v :
  objects h !! scope = Some (ORecord fields) ->
  stringify_value (update scope (ORecord fields') h) v = stringify_value h v.
Proof.
  intros Hs. destruct v as [z|r]; [done|]. simpl.
  destruct (decide (scope = r)) as [<-|Hne].
  - by rewrite lookup_insert_eq, Hs.
  - by rewrite lookup_insert_ne.
Qed.

Lemma omap_set_property {V W} (g : V -> option W) name v w fields :
  g v = Some w ->
  omap g (set_property name v fields) = set_property name w (omap g fields).
Proof.
  intros Hg. unfold set_property. case_decide; [done|].
  by apply omap_insert_Some.
Qed.

Lemma refers_set_property name v fields r :
  refers (set_property name v fields) r -> refers fields r \/ v = VRef r.
Proof.
  unfold set_property. case_decide; [by left|].
  intros [k Hk]. destruct (decide (name = k)) as [->|Hne].
  - rewrite lookup_insert_eq in Hk. right. congruence.
  - rewrite lookup_insert_ne in Hk by done. left. by exists k.
Qed.

Lemma assign_variable_sim name v j m cl scope p :
  inv m cl scope p ->
  stringify_value (mem m) v = Some j ->
  (forall c, v = VRef c ->
     forall s, s ∈ trace (this m) -> ~ reach (mem m) (ExecutionStep.variables s) c) ->
  exists m',
    assign_variable name v m = Returned (tt, m')
    /\ inv m' cl scope (Replay.assign name j p)
    /\ (forall b ys, holds (mem m) b ys -> holds (mem m') b ys)
    /\ (forall b ys, v <> VRef b -> owns m b ys -> owns m' b ys).
Proof.
  intros Hinv Hv Hfree.
  destruct Hinv as [Hwf Hcode Hvar Hsok Hscope Htr Hapart Hout Hline].
  destruct Hsok as (f & Hf & Hrefs).
  set (f' := set_property name v f).
  set (h' := update scope (ORecord f') (mem m)).
  exists {| mem := h'; this := this m |}.
  assert (forall r, r <> scope -> objects h' !! r = objects (mem m) !! r) as Hother.
  { intros r Hr. unfold h'. simpl. by rewrite lookup_insert_ne. }
  assert (objects h' !! scope = Some (ORecord f')) as Hf'.
  { unfold h'. simpl. by rewrite lookup_insert_eq. }
  assert (forall s r, s ∈ trace (this m) ->
            reach (mem m) (ExecutionStep.variables s) r -> r <> scope) as Hns.
  { intros s r Hs Hr ->. apply (Hapart s scope Hs Hr). by left. }
  destruct (trace_inv_frame (mem m) h' _ _ Htr) as [Htr' Hreach].
  { intros s r Hs Hr. apply Hother. by eapply Hns. }
  assert (forall r, is_array (mem m) r -> is_array h' r) as Harr.
  { intros r [xs Hxs]. exists xs. rewrite Hother; [done|]. intros ->. congruence. }
  assert (forall r, reach h' scope r -> reach (mem m) scope r \/ v = VRef r) as Hrs.
  { intros r [->|(f0 & Hf0 & Hr)]; [left; by left|].
    rewrite Hf' in Hf0. injection Hf0 as <-.
    apply refers_set_property in Hr as [Hr|Hr]; [|by right].
    left. right. eauto. }
  split; [|split; [|split]].
  - unfold assign_variable, mbind, M_bind, gets, get_heap. rewrite Hvar, Hf. done.
  - split; simpl; try done.
    + intros l [x Hl]. apply Hwf. unfold h' in Hl. simpl in Hl.
      destruct (decide (scope = l)) as [<-|Hne]; [eauto|].
      rewrite lookup_insert_ne in Hl by done. eauto.
    + exists f'. split; [done|]. intros r Hr. apply Harr.
      apply refers_set_property in Hr as [Hr | ->]; [by apply Hrefs|].
      simpl in Hv. destruct (objects (mem m) !! r) as [[xs|]|] eqn:E; try done. by exists xs.
    + unfold JSON_stringify in *. rewrite Hf'. rewrite Hf in Hscope.
      injection Hscope as <-. f_equal. unfold f'.
      assert (forall v', stringify_value h' v' = stringify_value (mem m) v') as Hsv.
      { intros v'. by apply (stringify_value_update _ _ f). }
      rewrite <- (omap_set_property _ name v j) by done.
      apply omap_ext. intros. apply Hsv.
    + intros s r Hs Hr Hr'. apply Hreach in Hr; [|done].
      apply Hrs in Hr' as [Hr' | ->].
      * by apply (Hapart s r Hs).
      * by apply (Hfree r eq_refl s Hs).
  - intros b ys Hb. unfold holds in *. rewrite Hother; [done|]. intros ->. congruence.
  - intros b ys Hvb (Hb & Hnsb & Hnt). split; [|split]; simpl.
    + unfold holds in *. rewrite Hother; [done|]. intros ->. congruence.
    + rewrite Hvar in *. intros Hr. apply Hrs in Hr as [Hr|Hr]; [done|]. by apply Hvb.
    + intros s Hs. rewrite Hreach by done. by apply Hnt.
Qed.

Lemma assign_number_sim name z m cl scope p :
  inv m cl scope p ->
  exists m',
    assign_variable name (VNum z) m = Returned (tt, m')
    /\ inv m' cl scope (Replay.assign name (JNum z) p)
    /\ preserved m m'.
Proof.
  intros Hinv.
  destruct (assign_variable_sim name (VNum z) (JNum z) m cl scope p Hinv)
    as (m' & E & Hinv' & Hh & Ho); [done|done|].
  exists m'. split; [done|]. split; [done|]. split; [done|].
  intros b ys. by apply Ho.
Qed.

(** Binding a private array: it is private no longer. *)
Lemma assign_array_sim name c xs m cl scope p :
  inv m cl scope p ->
  owns m c xs ->
  exists m',
    assign_variable name (VRef c) m = Returned (tt, m')
    /\ inv m' cl scope (Replay.assign name (JArr (to_json <$> xs)) p)
    /\ (forall b ys, holds (mem m) b ys -> holds (mem m') b ys)
    /\ (forall b ys, b <> c -> owns m b ys -> owns m' b ys).
Proof.
  intros Hinv (Hc & _ & Hnt).
  destruct (assign_variable_sim name (VRef c) (JArr (to_json <$> xs)) m cl scope p Hinv)
    as (m' & E & Hinv' & Hh & Ho).
  - simpl. unfold holds in Hc. by rewrite Hc.
  - intros c' [= <-]. done.
  - exists m'. split; [done|]. split; [done|]. split; [done|].
    intros b ys Hb. apply Ho. congruence.
Qed.

Lemma array_set_sim a i x xs m cl scope p :
  inv m cl scope p ->
  owns m a xs ->
  i < length xs ->
  exists m',
    array_set a i x m = Returned (tt, m')
    /\ inv m' cl scope p
    /\ owns m' a (<[i := x]> xs)
    /\ (forall b ys, b <> a -> holds (mem m) b ys -> holds (mem m') b ys)
    /\ (forall b ys, b <> a -> owns m b ys -> owns m' b ys).
Proof.
  intros Hinv (Ha & Hnsa & Hnta) Hi.
  destruct Hinv as [Hwf Hcode Hvar Hsok Hscope Htr Hapart Hout Hline].
  rewrite Hvar in Hnsa.
  set (h' := update a (OArray (<[i := x]> xs)) (mem m)).
  exists {| mem := h'; this := this m |}.
  assert (forall r, r <> a -> objects h' !! r = objects (mem m) !! r) as Hother.
  { intros r Hr. unfold h'. simpl. by rewrite lookup_insert_ne. }
  destruct (record_frame (mem m) h' scope Hsok) as (Hsok' & Hscope' & Hreach').
  { intros r Hr. apply Hother. by intros ->. }
  destruct (trace_inv_frame (mem m) h' _ _ Htr) as [Htr' Hreach].
  { intros s r Hs Hr. apply Hother. intros ->. by apply (Hnta s Hs). }
  split; [|split; [|split; [|split]]].
  - unfold array_set. rewrite (bind_returned _ _ _ _ _ (read_array_holds _ _ _ Ha)).
    destruct (decide (i < length xs)); [|done]. done.
  - split; simpl; try done.
    + intros l [o Hl]. apply Hwf. unfold h' in Hl. simpl in Hl.
      destruct (decide (a = l)) as [<-|Hne]; [unfold holds in Ha; eauto|].
      rewrite lookup_insert_ne in Hl by done. eauto.
    + by rewrite Hscope'.
    + intros s r Hs Hr Hr'. apply (Hapart s r Hs).
      * by apply Hreach.
      * by apply Hreach'.
  - split; [|split]; simpl.
    + unfold holds, h'. simpl. by rewrite lookup_insert_eq.
    + rewrite Hvar. by rewrite Hreach'.
    + intros s Hs. rewrite Hreach by done. by apply Hnta.
  - intros b ys Hb Hh. unfold holds in *. by rewrite Hother.
  - intros b ys Hb (Hh & Hnsb & Hntb). split; [|split]; simpl.
    + unfold holds in *. by rewrite Hother.
    + rewrite Hvar in *. by rewrite Hreach'.
    + intros s Hs. rewrite Hreach by done. by apply Hntb.
Qed.

End Operations.

(** ** Logging a step *)

Section LogStep.

Import BubbleSortSimulator.

Implicit Types m : machine.
Implicit Types p : Replay.state.

Lemma logStep_sim d l m cl scope p :
  inv m cl scope p ->
  exists m',
    logStep d l m = Returned (tt, m')
    /\ inv m' cl scope (Replay.log d l p)
    /\ preserved m m'.
Proof.
  intros Hinv.
  pose proof Hinv as [Hwf Hcode Hvar Hsok Hscope Htr Hapart Hout Hline].
  destruct (JSON_parse_spec (Replay.vars p) (mem m) Hwf)
    as (Hwf' & Hle & Hold & Hok & Hread & Hfresh).
  destruct (JSON_parse (Replay.vars p) (mem m)) as [snapshot h'] eqn:Eparse.
  cbn [fst snd] in *.
  destruct (inv_extend m h' cl scope p Hinv Hwf' Hold)
    as ([_ _ _ Hsok' Hscope' Htr' Hapart' _ _] & [Hph Hpo] & Hrs & Hrt).
  cbn [mem this] in *.
  set (line' := if decide (l = 0) then currentLine (this m) else l).
  set (s' := ExecutionStep.make line' snapshot d
               (match output (this m) with [] => None | _ => Some (output (this m)) end)).
  exists {| mem := h';
            this := {| codeLines := codeLines (this m);
                       trace := trace (this m) ++ [s'];
                       variables := variables (this m);
                       output := [];
                       currentLine := line' |} |}.
  assert (forall s r, s ∈ trace (this m) ->
            reach h' (ExecutionStep.variables s) r -> (r < next_loc (mem m))%positive)
    as Hbelow.
  { intros s r Hs Hr. apply Hrt in Hr; [|done].
    eapply record_ok_below; [done| |done]. by apply (tr_ok _ _ _ Htr). }
  split; [|split].
  - subst scope. unfold logStep, line'.
    destruct (decide (l = 0));
      unfold mbind, M_bind, mret, M_ret, modify, gets, get_heap, put_heap;
      cbn [this mem variables]; rewrite Hscope, Eparse; reflexivity.
  - split; cbn [mem this codeLines trace variables output currentLine]; try done.
    + destruct Htr' as [Hobs Hoks Hdis]. split.
      * apply observe_Some. apply observe_Some in Hobs.
        unfold Replay.log. cbn [Replay.steps]. apply Forall2_app; [done|].
        constructor; [|constructor].
        unfold observe_step, s'. cbn. rewrite Hread, <- Hline, <- Hout. done.
      * intros s Hs. apply elem_of_app in Hs as [Hs|Hs]; [by apply Hoks|].
        apply list_elem_of_singleton in Hs as ->. done.
      * intros i j si sj Hne Hi Hj r Hri Hrj.
        apply lookup_snoc_Some in Hi as [[Hi1 Hi2]|[Hi1 <-]];
          apply lookup_snoc_Some in Hj as [[Hj1 Hj2]|[Hj1 <-]].
        -- by apply (Hdis i j si sj Hne Hi2 Hj2 r).
        -- apply (Hbelow si r) in Hri; [|by eapply list_elem_of_lookup_2].
           apply Hfresh in Hrj. lia.
        -- apply (Hbelow sj r) in Hrj; [|by eapply list_elem_of_lookup_2].
           apply Hfresh in Hri. lia.
        -- lia.
    + intros s r Hs Hr Hr'. apply elem_of_app in Hs as [Hs|Hs].
      * by apply (Hapart' s r Hs).
      * apply list_elem_of_singleton in Hs as ->. apply Hfresh in Hr.
        apply Hrs in Hr'. apply (record_ok_below _ _ _ Hwf Hsok) in Hr'. lia.
    + unfold Replay.log. cbn. unfold line'. by rewrite Hline.
  - split; [done|]. intros b ys Hb.
    pose proof (holds_below _ _ _ _ _ _ Hinv (owns_holds _ _ _ Hb)) as Hlt.
    destruct (Hpo b ys Hb) as (Hb1 & Hb2 & Hb3). cbn [mem this variables trace] in *.
    split; [done|]. split; [done|].
    intros s Hs. apply elem_of_app in Hs as [Hs|Hs]; [by apply Hb3|].
    apply list_elem_of_singleton in Hs as ->. intros Hr. apply Hfresh in Hr. lia.
Qed.

End LogStep.

(** ** The simulator on the store does what the value-level replay does *)

Section Refinement.

Import BubbleSortSimulator.

Implicit Types m : machine.
Implicit Types p : Replay.state.

Variable cl : list string.
Variable scope : loc.

Ltac exec E := rewrite (bind_returned _ _ _ _ _ E); cbv beta.

Lemma inner_iteration_sim arrName a l j xs m p :
  inv m cl scope p ->
  owns m a xs ->
  j + 1 < length xs ->
  exists m',
    inner_iteration cl arrName a l j m = Returned (tt, m')
    /\ inv m' cl scope (Replay.inner_iteration cl arrName l j (xs, p)).2
    /\ owns m' a (Replay.inner_iteration cl arrName l j (xs, p)).1.
Proof.
  intros Hinv Ha Hj.
  assert (xs !! j = Some (xs !!! j)) as Hv1
    by (apply list_lookup_lookup_total_lt; lia).
  assert (xs !! (j + 1) = Some (xs !!! (j + 1))) as Hv2
    by (apply list_lookup_lookup_total_lt; lia).
  destruct (assign_number_sim "j" (Z.of_nat j) m cl scope p Hinv)
    as (m1 & E1 & I1 & [_ P1]).
  pose proof (P1 _ _ Ha) as A1.
  destruct (logStep_sim (Describe.inner j) l m1 cl scope _ I1)
    as (m2 & E2 & I2 & [_ P2]).
  pose proof (P2 _ _ A1) as A2.
  pose proof (array_get_holds a xs j _ m2 (owns_holds _ _ _ A2) Hv1) as G1.
  pose proof (array_get_holds a xs (j + 1) _ m2 (owns_holds _ _ _ A2) Hv2) as G2.
  destruct (logStep_sim (Describe.comparing arrName j (xs !!! j) (xs !!! (j + 1)))
              (findLine cl "if (arr[j]" 0) m2 cl scope _ I2)
    as (m3 & E3 & I3 & [_ P3]).
  pose proof (P3 _ _ A2) as A3.
  unfold inner_iteration. exec E1. exec E2. exec G1. exec G2. exec E3.
  unfold Replay.inner_iteration. cbv zeta. cbn [fst snd].
  destruct (greater (xs !!! j) (xs !!! (j + 1))) eqn:Hgt.
  - destruct (logStep_sim (Describe.condition_true (xs !!! j) (xs !!! (j + 1)))
                (findLine cl ("[" +:+ arrName +:+ "[j]") 0) m3 cl scope _ I3)
      as (m4 & E4 & I4 & [_ P4]).
    pose proof (P4 _ _ A3) as A4.
    pose proof (array_get_holds a xs (j + 1) _ m4 (owns_holds _ _ _ A4) Hv2) as G3.
    pose proof (array_get_holds a xs j _ m4 (owns_holds _ _ _ A4) Hv1) as G4.
    destruct (array_set_sim a j (xs !!! (j + 1)) xs m4 cl scope _ I4 A4 ltac:(lia))
      as (m5 & E5 & I5 & A5 & _).
    destruct (array_set_sim a (j + 1) (xs !!! j) _ m5 cl scope _ I5 A5)
      as (m6 & E6 & I6 & A6 & _).
    { rewrite length_insert. lia. }
    fold (swap_at j xs) in A6, E6.
    destruct (spread_sim a _ m6 cl scope _ I6 (owns_holds _ _ _ A6))
      as (c & m7 & E7 & I7 & C7 & [_ P7] & Hca).
    pose proof (P7 _ _ A6) as A7.
    destruct (assign_array_sim arrName c _ m7 cl scope _ I7 C7)
      as (m8 & E8 & I8 & _ & P8).
    pose proof (P8 _ _ (not_eq_sym Hca) A7) as A8.
    pose proof (array_join_holds a _ ", " m8 (owns_holds _ _ _ A8)) as G5.
    destruct (logStep_sim
                (Describe.array_is_now (Str.join ", " (joined <$> swap_at j xs)))
                (findLine cl ("[" +:+ arrName +:+ "[j]") 0) m8 cl scope _ I8)
      as (m9 & E9 & I9 & [_ P9]).
    pose proof (P9 _ _ A8) as A9.
    exec E4. exec G3. exec G4. exec E5. exec E6. exec E7. exec E8. exec G5.
    exists m9. by rewrite E9.
  - exists m3. done.
Qed.

Lemma inner_loop_sim arrName a l count :
  forall j0 xs m p,
    inv m cl scope p ->
    owns m a xs ->
    (count <> 0 -> j0 + count < length xs) ->
    exists m',
      for_upto count j0 (inner_iteration cl arrName a l) m = Returned (tt, m')
      /\ inv m' cl scope (iterate count j0 (Replay.inner_iteration cl arrName l) (xs, p)).2
      /\ owns m' a (iterate count j0 (Replay.inner_iteration cl arrName l) (xs, p)).1.
Proof.
  induction count as [|count IH]; intros j0 xs m p Hinv Ha Hlen.
  - exists m. done.
  - destruct (inner_iteration_sim arrName a l j0 xs m p Hinv Ha ltac:(lia))
      as (m1 & E1 & I1 & A1).
    cbn [for_upto iterate]. exec E1.
    destruct (Replay.inner_iteration cl arrName l j0 (xs, p)) as [xs1 p1] eqn:Eacc.
    cbn [fst snd] in *.
    apply (IH (S j0) xs1 m1 p1 I1 A1).
    intros _.
    assert (length xs1 = length xs) as ->; [|lia].
    pose proof (inner_iteration_fst cl arrName l j0 (xs, p)) as Hfst.
    rewrite Eacc in Hfst. cbn [fst] in Hfst. rewrite Hfst. apply compare_swap_length.
Qed.

Lemma outer_iteration_sim arrName a n l i xs m p :
  inv m cl scope p ->
  owns m a xs ->
  length xs = n ->
  i < n ->
  exists m',
    outer_iteration cl arrName a n l i m = Returned (tt, m')
    /\ inv m' cl scope (Replay.outer_iteration cl arrName n l i (xs, p)).2
    /\ owns m' a (Replay.outer_iteration cl arrName n l i (xs, p)).1.
Proof.
  intros Hinv Ha Hn Hi.
  destruct (assign_number_sim "i" (Z.of_nat i) m cl scope p Hinv)
    as (m1 & E1 & I1 & [_ P1]).
  pose proof (P1 _ _ Ha) as A1.
  destruct (logStep_sim (Describe.outer i) l m1 cl scope _ I1)
    as (m2 & E2 & I2 & [_ P2]).
  pose proof (P2 _ _ A1) as A2.
  unfold outer_iteration. exec E1. exec E2.
  unfold for_range. rewrite Nat.sub_0_r.
  unfold Replay.outer_iteration. cbv zeta. cbn [fst snd].
  apply (inner_loop_sim arrName a _ (n - i - 1) 0 xs m2 _ I2 A2). lia.
Qed.

Lemma outer_loop_sim arrName a n l count :
  forall i0 xs m p,
    inv m cl scope p ->
    owns m a xs ->
    length xs = n ->
    i0 + count <= n ->
    exists m',
      for_upto count i0 (outer_iteration cl arrName a n l) m = Returned (tt, m')
      /\ inv m' cl scope (iterate count i0 (Replay.outer_iteration cl arrName n l) (xs, p)).2
      /\ owns m' a (iterate count i0 (Replay.outer_iteration cl arrName n l) (xs, p)).1.
Proof.
  induction count as [|count IH]; intros i0 xs m p Hinv Ha Hn Hle.
  - exists m. done.
  - destruct (outer_iteration_sim arrName a n l i0 xs m p Hinv Ha Hn ltac:(lia))
      as (m1 & E1 & I1 & A1).
    cbn [for_upto iterate]. exec E1.
    destruct (Replay.outer_iteration cl arrName n l i0 (xs, p)) as [xs1 p1] eqn:Eacc.
    cbn [fst snd] in *.
    apply (IH (S i0) xs1 m1 p1 I1 A1); [|lia].
    pose proof (outer_iteration_fst cl arrName n l i0 (xs, p)) as Hfst.
    rewrite Eacc in Hfst. cbn [fst] in Hfst. rewrite Hfst, pass_length. done.
Qed.

Lemma simulate_sim arrMatch arrValue xs m :
  inv m cl scope Replay.initial ->
  owns m arrValue xs ->
  exists m',
    simulate cl arrMatch arrValue m = Returned (trace (this m'), m')
    /\ inv m' cl scope (Replay.finish cl (Replay.loops cl arrMatch xs)).
Proof.
  intros Hinv Ha.
  pose proof (array_length_holds arrValue xs m (owns_holds _ _ _ Ha)) as G0.
  destruct (assign_array_sim (group1 arrMatch) arrValue xs m cl scope _ Hinv Ha)
    as (m1 & E1 & I1 & H1 & _).
  pose proof (H1 _ _ (owns_holds _ _ _ Ha)) as V1.
  destruct (logStep_sim (Describe.init_array (group1 arrMatch) (length xs))
              (findLine cl (group0 arrMatch) 0) m1 cl scope _ I1)
    as (m2 & E2 & I2 & [H2 _]).
  pose proof (H2 _ _ V1) as V2.
  destruct (assign_number_sim "n" (Z.of_nat (length xs)) m2 cl scope _ I2)
    as (m3 & E3 & I3 & [H3 _]).
  pose proof (H3 _ _ V2) as V3.
  destruct (logStep_sim (Describe.init_n (length xs)) (findLine cl "n =" 0) m3 cl scope _ I3)
    as (m4 & E4 & I4 & [H4 _]).
  pose proof (H4 _ _ V3) as V4.
  destruct (spread_sim arrValue xs m4 cl scope _ I4 V4)
    as (a & m5 & E5 & I5 & A5 & _ & _).
  destruct (outer_loop_sim (group1 arrMatch) a (length xs) (findLine cl "for (let i" 0)
              (length xs) 0 xs m5 _ I5 A5 eq_refl ltac:(lia))
    as (m6 & E6 & I6 & A6).
  fold (Replay.prologue cl arrMatch xs) in I6, A6.
  fold (Replay.loops cl arrMatch xs) in I6, A6.
  destruct (spread_sim a _ m6 cl scope _ I6 (owns_holds _ _ _ A6))
    as (c & m7 & E7 & I7 & C7 & [_ P7] & Hca).
  pose proof (P7 _ _ A6) as A7.
  destruct (assign_array_sim "sortedArray" c _ m7 cl scope _ I7 C7)
    as (m8 & E8 & I8 & _ & P8).
  pose proof (P8 _ _ (not_eq_sym Hca) A7) as A8.
  destruct (logStep_sim Describe.complete (findLine cl "sortedArray =" 0) m8 cl scope _ I8)
    as (m9 & E9 & I9 & [H9 _]).
  pose proof (H9 _ _ (owns_holds _ _ _ A8)) as V9.
  pose proof (array_join_holds a _ ", " m9 V9) as G9.
  destruct (set_output_sim
              [Describe.printed (Str.join ", " (joined <$> (Replay.loops cl arrMatch xs).1))]
              m9 cl scope _ I9)
    as (m10 & E10 & I10 & _).
  destruct (logStep_sim Describe.printing (findLine cl "console.log" 0) m10 cl scope _ I10)
    as (m11 & E11 & I11 & _).
  exists m11. split; [|done].
  unfold simulate. exec G0. exec E1. exec E2. exec E3. exec E4. exec E5.
  unfold for_range. rewrite Nat.sub_0_r. exec E6.
  exec E7. exec E8. exec E9. exec G9. exec E10. exec E11. done.
Qed.

End Refinement.

Section Run.

Import BubbleSortSimulator.

Lemma new_inv code h :
  heap_wf h -> inv (new code h) (Str.split LF code) (next_loc h) Replay.initial.
Proof.
  intros Hwf.
  destruct (alloc_spec (ORecord ∅) h Hwf) as (h' & Ea & Hwf' & Hnext & Hnew & Hold).
  unfold new. rewrite Ea.
  split; cbn [mem this codeLines trace variables output currentLine]; try done.
  - exists ∅. split; [done|]. by intros r [k Hk].
  - unfold JSON_stringify. rewrite Hnew. by rewrite omap_empty.
  - split; [done| |].
    + intros s Hs. by apply elem_of_nil in Hs.
    + intros i j si sj _ Hi. done.
  - intros s r Hs. by apply elem_of_nil in Hs.
Qed.

Lemma new_codeLines code h : codeLines (this (new code h)) = Str.split LF code.
Proof. done. Qed.

Lemma new_engine code h :
  clock (mem (new code h)) = clock h /\ json_error (mem (new code h)) = json_error h.
Proof. done. Qed.

Lemma evaluate_unfold expression m :
  evaluate expression m =
  match evaluate_literal (clock (mem m)) expression with
  | Some xs => new_array xs m
  | None =>
      if malformed expression && Str.starts_with "[" (trim expression)
      then Thrown (json_error (mem m) expression)
      else Unmodelled
  end.
Proof.
  unfold evaluate, mbind, M_bind, get_heap.
  destruct (evaluate_literal _ _); [done|]. by destruct (malformed _ && _).
Qed.

Lemma evaluate_sim expression xs m cl scope p :
  inv m cl scope p ->
  evaluate_literal (clock (mem m)) expression = Some xs ->
  exists c m',
    evaluate expression m = Returned (c, m')
    /\ inv m' cl scope p
    /\ owns m' c xs.
Proof.
  intros Hinv Hparse. rewrite evaluate_unfold, Hparse.
  destruct (new_array_sim xs m cl scope p Hinv) as (c & m' & E & I & A & _).
  by exists c, m'.
Qed.

Lemma run_unfold code h :
  run (new code h) =
  match arrInitRegex_match code with
  | None => Thrown no_array_message
  | Some arrMatch =>
      (evaluate (group2 arrMatch) ≫= simulate (Str.split LF code) arrMatch) (new code h)
  end.
Proof.
  unfold run. unfold mbind at 1, M_bind at 1, gets.
  rewrite new_codeLines, join_split.
  by destruct (arrInitRegex_match code).
Qed.

(** What [run] does on a new simulator. *)
Lemma run_new code h :
  heap_wf h ->
  match arrInitRegex_match code with
  | None => run (new code h) = Thrown no_array_message
  | Some arrMatch =>
      match evaluate_literal (clock h) (group2 arrMatch) with
      | None =>
          run (new code h)
          = if malformed (group2 arrMatch) && Str.starts_with "[" (trim (group2 arrMatch))
            then Thrown (json_error h (group2 arrMatch))
            else Unmodelled
      | Some xs =>
          exists m',
            run (new code h) = Returned (trace (this m'), m')
            /\ inv m' (Str.split LF code) (next_loc h)
                 (Replay.finish (Str.split LF code)
                    (Replay.loops (Str.split LF code) arrMatch xs))
      end
  end.
Proof.
  intros Hwf. pose proof (new_inv code h Hwf) as Hinv.
  rewrite run_unfold.
  destruct (arrInitRegex_match code) as [arrMatch|]; [|done].
  destruct (new_engine code h) as [Hclock Herror].
  destruct (evaluate_literal (clock h) (group2 arrMatch)) as [xs|] eqn:Hparse.
  - rewrite <- Hclock in Hparse.
    destruct (evaluate_sim _ xs _ _ _ _ Hinv Hparse) as (c & m1 & E1 & I1 & A1).
    destruct (simulate_sim _ _ arrMatch c xs m1 I1 A1) as (m' & E & I).
    exists m'. split; [|done].
    by rewrite (bind_returned _ _ _ _ _ E1).
  - unfold mbind, M_bind. rewrite evaluate_unfold, Hclock, Hparse, Herror.
    by destruct (malformed _ && _).
Qed.

End Run.

(** ** What a returned trace is *)

Section Returned.

Import BubbleSortSimulator.

Lemma empty_heap_wf : heap_wf empty_heap.
Proof. intros l [x Hl]. simpl in Hl. by rewrite lookup_empty in Hl. Qed.

Lemma run_returned code h tr m' :
  heap_wf h ->
  run (new code h) = Returned (tr, m') ->
  exists arrMatch arrValue,
    arrInitRegex_match code = Some arrMatch
    /\ evaluate_literal (clock h) (group2 arrMatch) = Some arrValue
    /\ tr = trace (this m')
    /\ inv m' (Str.split LF code) (next_loc h)
         (Replay.finish (Str.split LF code)
            (Replay.loops (Str.split LF code) arrMatch arrValue)).
Proof.
  intros Hwf Hrun. pose proof (run_new code h Hwf) as H.
  destruct (arrInitRegex_match code) as [arrMatch|]; [|congruence].
  destruct (evaluate_literal (clock h) (group2 arrMatch)) as [xs|] eqn:Hp.
  2: { rewrite H in Hrun. by destruct (malformed _ && _). }
  destruct H as (m1 & E & I). rewrite E in Hrun. injection Hrun as <- <-.
  exists arrMatch, xs. auto.
Qed.

Lemma generate_returned code language h tr h' :
  generateExecutionTrace code language h = Returned (tr, h') ->
  exists m', run (new code h) = Returned (tr, m') /\ h' = mem m'.
Proof.
  unfold generateExecutionTrace. destruct language; [done|].
  destruct (_ || _); [done|].
  destruct (run (new code h)) as [[tr1 m1]| |]; [|done|done].
  intros [= <- <-]. by exists m1.
Qed.

Lemma observe_step_inv h s p :
  observe_step h s = Some p ->
  ExecutionStep.lineNumber s = Replay.lineNumber p
  /\ JSON_stringify h (ExecutionStep.variables s) = Some (Replay.variables p)
  /\ ExecutionStep.description s = Replay.description p
  /\ ExecutionStep.output s = Replay.output p.
Proof.
  unfold observe_step. destruct (JSON_stringify _ _); [|done].
  by intros [= <-].
Qed.

(** A returned trace reads as the value-level replay of the array found in
    the source. *)
Lemma run_observed code h tr m' :
  heap_wf h ->
  run (new code h) = Returned (tr, m') ->
  exists arrMatch arrValue,
    arrInitRegex_match code = Some arrMatch
    /\ evaluate_literal (clock h) (group2 arrMatch) = Some arrValue
    /\ observe (mem m') tr = Some (Replay.simulate (Str.split LF code) arrMatch arrValue).
Proof.
  intros Hwf Hrun.
  destruct (run_returned _ _ _ _ Hwf Hrun) as (am & xs & Hm & Hp & -> & Hinv).
  exists am, xs. split; [done|]. split; [done|].
  apply (tr_observe _ _ _ (inv_trace _ _ _ _ Hinv)).
Qed.

Lemma generate_observed code language h tr h' :
  heap_wf h ->
  generateExecutionTrace code language h = Returned (tr, h') ->
  exists arrMatch arrValue,
    arrInitRegex_match code = Some arrMatch
    /\ evaluate_literal (clock h) (group2 arrMatch) = Some arrValue
    /\ observe h' tr = Some (Replay.simulate (Str.split LF code) arrMatch arrValue).
Proof.
  intros Hwf Hgen. destruct (generate_returned _ _ _ _ _ Hgen) as (m' & Hrun & ->).
  by apply (run_observed code h).
Qed.

Lemma observed_length h tr ps : observe h tr = Some ps -> length tr = length ps.
Proof. intros H. apply observe_Some in H. by apply Forall2_length in H. Qed.

Lemma observed_lookup h tr ps k p :
  observe h tr = Some ps -> ps !! k = Some p ->
  exists s, tr !! k = Some s
    /\ ExecutionStep.lineNumber s = Replay.lineNumber p
    /\ JSON_stringify h (ExecutionStep.variables s) = Some (Replay.variables p)
    /\ ExecutionStep.description s = Replay.description p
    /\ ExecutionStep.output s = Replay.output p.
Proof.
  intros H Hk. apply observe_Some in H.
  destruct (Forall2_lookup_r _ _ _ _ _ H Hk) as (s & Hs & Hobs).
  exists s. split; [done|]. by apply observe_step_inv.
Qed.

Lemma observed_descriptions h tr ps :
  observe h tr = Some ps ->
  ExecutionStep.description <$> tr = Replay.description <$> ps.
Proof.
  intros H. apply observe_Some in H.
  induction H as [|s p tr ps Hs _ IH]; [done|].
  cbn [fmap list_fmap]. f_equal; [|done].
  by apply observe_step_inv in Hs as (_ & _ & ? & _).
Qed.


Lemma simulate_lookup_printing cl am xs :
  Replay.simulate cl am xs !! (length (Replay.simulate cl am xs) - 1)
  = Some (Replay.printing_step cl am xs).
Proof.
  rewrite simulate_steps, length_app. cbn [length].
  rewrite lookup_app_r by lia.
  by replace (_ + 2 - 1 - _) with 1 by lia.
Qed.

Lemma simulate_lookup_init_n cl am xs :
  Replay.simulate cl am xs !! 1 = Some (Replay.init_n_step cl am xs).
Proof.
  rewrite simulate_steps.
  destruct (loops_steps_prefix cl am xs) as [rest ->]. done.
Qed.

End Returned.

(** ** The trace generator *)

Lemma to_json_Int (zs : list Z) : to_json <$> (Int <$> zs) = Some <$> zs.
Proof. by rewrite <- list_fmap_compose. Qed.

Lemma joined_Int (zs : list Z) : joined <$> (Int <$> zs) = number_to_string <$> zs.
Proof. by rewrite <- list_fmap_compose. Qed.

Lemma Int_inj (zs zs' : list Z) : Int <$> zs = Int <$> zs' -> zs = zs'.
Proof.
  revert zs'. induction zs as [|z zs IH]; intros [|z' zs']; try done.
  cbn [fmap list_fmap]. intros [= -> E]. f_equal. by apply IH.
Qed.

Lemma nanCode_returns :
  generateExecutionTrace nanCode javascript empty_heap
  = Returned (trace_of nanCode, heap_of nanCode).
Proof. vm_compute. reflexivity. Qed.




(** C2: a returned trace for an array of [n] elements, sorted with [k] swaps,
    has [2 + n + Σ(n-i-1) + Σ(n-i-1) + 2k + 2] steps: two initialization
    steps, [n] outer-loop steps, [Σ(n-i-1)] inner-loop steps and as many
    comparison steps, [k] condition-true steps and as many post-swap steps,
    one completion step and one output step. *)
Theorem step_count_formula code language h tr h' :
  heap_wf h ->
  generateExecutionTrace code language h = Returned (tr, h') ->
  exists arrMatch arrValue,
    arrInitRegex_match code = Some arrMatch
    /\ evaluate_literal (clock h) (group2 arrMatch) = Some arrValue
    /\ let n := length arrValue in
       let k := swaps_performed greater arrValue in
       let ds := ExecutionStep.description <$> tr in
       length tr = 2 + n + inner_entries n + inner_entries n + 2 * k + 2
       /\ kind_count "Initialize" ds = 2
       /\ kind_count "Outer loop" ds = n
       /\ kind_count "Inner loop" ds = inner_entries n
       /\ kind_count "Comparing" ds = inner_entries n
       /\ kind_count "Condition true" ds = k
       /\ kind_count "Array is now" ds = k
       /\ kind_count "Sorting complete" ds = 1
       /\ kind_count "Printing" ds = 1.
Proof.
  intros Hwf Hgen.
  destruct (generate_observed _ _ _ _ _ Hwf Hgen) as (am & xs & Hm & Hp & Hobs).
  exists am, xs. split; [done|]. split; [done|]. cbv zeta.
  rewrite (observed_descriptions _ _ _ Hobs), (observed_length _ _ _ Hobs).
  split; [apply simulate_length|]. apply simulate_kinds.
Qed.

Lemma step_count_formula_witness :
  heap_wf empty_heap
  /\ generateExecutionTrace smallCode javascript empty_heap
     = Returned (trace_of smallCode, heap_of smallCode)
  /\ exists arrMatch arrValue,
       arrInitRegex_match smallCode = Some arrMatch
       /\ evaluate_literal (clock empty_heap) (group2 arrMatch) = Some arrValue
       /\ let n := length arrValue in
          let k := swaps_performed greater arrValue in
          let ds := ExecutionStep.description <$> trace_of smallCode in
          length (trace_of smallCode)
          = 2 + n + inner_entries n + inner_entries n + 2 * k + 2
          /\ kind_count "Initialize" ds = 2
          /\ kind_count "Outer loop" ds = n
          /\ kind_count "Inner loop" ds = inner_entries n
          /\ kind_count "Comparing" ds = inner_entries n
          /\ kind_count "Condition true" ds = k
          /\ kind_count "Array is now" ds = k
          /\ kind_count "Sorting complete" ds = 1
          /\ kind_count "Printing" ds = 1.
Proof.
  split; [exact empty_heap_wf|]. split; [vm_compute; reflexivity|].
  apply (step_count_formula smallCode javascript empty_heap _ (heap_of smallCode));
    [exact empty_heap_wf | vm_compute; reflexivity].
Defined.

(** C3 (as amended): an empty array gives exactly the four steps outside the
    loops; a one-element array gives those four and one outer-loop step (for
    [i = 0]) between them, with no inner-loop, comparison or swap step. *)
Theorem edge_arrays_steps code language h tr h' :
  heap_wf h ->
  generateExecutionTrace code language h = Returned (tr, h') ->
  exists arrMatch arrValue,
    arrInitRegex_match code = Some arrMatch
    /\ evaluate_literal (clock h) (group2 arrMatch) = Some arrValue
    /\ (arrValue = [] ->
        ExecutionStep.description <$> tr
        = [Describe.init_array (group1 arrMatch) 0; Describe.init_n 0;
           Describe.complete; Describe.printing])
    /\ (forall x, arrValue = [x] ->
        ExecutionStep.description <$> tr
        = [Describe.init_array (group1 arrMatch) 1; Describe.init_n 1;
           Describe.outer 0; Describe.complete; Describe.printing]).
Proof.
  intros Hwf Hgen.
  destruct (generate_observed _ _ _ _ _ Hwf Hgen) as (am & xs & Hm & Hp & Hobs).
  exists am, xs. split; [done|]. split; [done|].
  rewrite (observed_descriptions _ _ _ Hobs). split.
  - intros ->. by rewrite simulate_empty.
  - intros x ->.
    destruct (simulate_singleton (Str.split LF code) am [x] eq_refl) as (o & -> & Ho).
    cbn [fmap list_fmap]. by rewrite Ho.
Qed.

Lemma edge_arrays_steps_witness :
  heap_wf empty_heap
  /\ generateExecutionTrace singletonCode javascript empty_heap
     = Returned (trace_of singletonCode, heap_of singletonCode)
  /\ exists arrMatch arrValue,
       arrInitRegex_match singletonCode = Some arrMatch
       /\ evaluate_literal (clock empty_heap) (group2 arrMatch) = Some arrValue
       /\ (arrValue = [] ->
           ExecutionStep.description <$> trace_of singletonCode
           = [Describe.init_array (group1 arrMatch) 0; Describe.init_n 0;
              Describe.complete; Describe.printing])
       /\ (forall x, arrValue = [x] ->
           ExecutionStep.description <$> trace_of singletonCode
           = [Describe.init_array (group1 arrMatch) 1; Describe.init_n 1;
              Describe.outer 0; Describe.complete; Describe.printing]).
Proof.
  split; [exact empty_heap_wf|]. split; [vm_compute; reflexivity|].
  apply (edge_arrays_steps singletonCode javascript empty_heap _ (heap_of singletonCode));
    [exact empty_heap_wf | vm_compute; reflexivity].
Defined.

(** C3 (as stated) fails: for the array [[5]] the trace has five steps, the
    third of which is an outer-loop step. *)
Lemma singleton_enters_outer_loop :
  exists tr h',
    generateExecutionTrace singletonCode javascript empty_heap = Returned (tr, h')
    /\ ExecutionStep.description <$> tr
       = ["Initialize array 'myArray' with 1 elements.";
          "Initialize 'n' with the length of the array, which is 1.";
          "Outer loop starts iteration. 'i' is now 0.";
          "Sorting complete. Final array assigned to 'sortedArray'.";
          "Printing the final sorted array to the console."]
    /\ length tr <> 4.
Proof.
  exists (trace_of singletonCode), (heap_of singletonCode).
  split; [vm_compute; reflexivity|]. split; [vm_compute; reflexivity|].
  vm_compute. lia.
Qed.

(** C5: the snapshots of a returned trace share nothing.  No object of one
    step's [variables] record is an object of another step's record or of the
    simulator's working scope; so whatever is done to the record of one step
    and to its arrays, every other step still reads the same. *)
Theorem snapshots_independent code h tr m' :
  heap_wf h ->
  BubbleSortSimulator.run (BubbleSortSimulator.new code h) = Returned (tr, m') ->
  let h' := BubbleSortSimulator.mem m' in
  let scope := BubbleSortSimulator.variables (BubbleSortSimulator.this m') in
  (forall i j si sj, i <> j -> tr !! i = Some si -> tr !! j = Some sj ->
     (forall r, reach h' (ExecutionStep.variables si) r ->
                ~ reach h' (ExecutionStep.variables sj) r)
     /\ (forall h'', mutated_within h' (ExecutionStep.variables si) h'' ->
           JSON_stringify h'' (ExecutionStep.variables sj)
           = JSON_stringify h' (ExecutionStep.variables sj)))
  /\ (forall s, s ∈ tr ->
        (forall r, reach h' (ExecutionStep.variables s) r -> ~ reach h' scope r)
        /\ (forall h'', mutated_within h' scope h'' ->
              JSON_stringify h'' (ExecutionStep.variables s)
              = JSON_stringify h' (ExecutionStep.variables s))).
Proof.
  intros Hwf Hrun. cbv zeta.
  destruct (run_returned _ _ _ _ Hwf Hrun) as (am & xs & _ & _ & -> & Hinv).
  destruct Hinv as [_ _ Hvar _ _ [_ Hok Hdis] Hapart _ _]. rewrite Hvar.
  split.
  - intros i j si sj Hne Hi Hj. split; [by apply (Hdis i j si sj)|].
    intros h'' Hmut.
    apply record_frame; [by eapply Hok, list_elem_of_lookup_2|].
    intros r Hr. apply Hmut. intros Hr'. by apply (Hdis i j si sj Hne Hi Hj r).
  - intros s Hs. split; [intros r; by apply Hapart|].
    intros h'' Hmut.
    apply record_frame; [by apply Hok|].
    intros r Hr. apply Hmut. intros Hr'. by apply (Hapart s r Hs).
Qed.

Lemma snapshots_independent_witness :
  heap_wf empty_heap
  /\ BubbleSortSimulator.run (BubbleSortSimulator.new smallCode empty_heap)
     = Returned (trace_of smallCode, machine_of smallCode)
  /\ let h' := BubbleSortSimulator.mem (machine_of smallCode) in
     let scope :=
       BubbleSortSimulator.variables (BubbleSortSimulator.this (machine_of smallCode)) in
     (forall i j si sj, i <> j ->
        trace_of smallCode !! i = Some si -> trace_of smallCode !! j = Some sj ->
        (forall r, reach h' (ExecutionStep.variables si) r ->
                   ~ reach h' (ExecutionStep.variables sj) r)
        /\ (forall h'', mutated_within h' (ExecutionStep.variables si) h'' ->
              JSON_stringify h'' (ExecutionStep.variables sj)
              = JSON_stringify h' (ExecutionStep.variables sj)))
     /\ (forall s, s ∈ trace_of smallCode ->
           (forall r, reach h' (ExecutionStep.variables s) r -> ~ reach h' scope r)
           /\ (forall h'', mutated_within h' scope h'' ->
                 JSON_stringify h'' (ExecutionStep.variables s)
                 = JSON_stringify h' (ExecutionStep.variables s))).
Proof.
  split; [exact empty_heap_wf|]. split; [vm_compute; reflexivity|].
  apply (snapshots_independent smallCode empty_heap);
    [exact empty_heap_wf | vm_compute; reflexivity].
Defined.

(** *** The array under its own name *)

Section OwnName.

Variable codeLines : list string.
Variable arrName : string.
Hypothesis not_n : arrName <> "n".
Hypothesis not_i : arrName <> "i".
Hypothesis not_j : arrName <> "j".
Hypothesis not_proto : arrName <> "__proto__".

Implicit Types acc : list element * Replay.state.

(** The scope shows the working array as it is. *)
Local Abbreviation shows acc :=
  (Replay.vars acc.2 !! arrName = Some (JArr (to_json <$> acc.1))).

Lemma inner_iteration_own l j acc :
  shows acc -> shows (Replay.inner_iteration codeLines arrName l j acc).
Proof.
  intros H. unfold Replay.inner_iteration. cbv zeta.
  destruct (greater _ _); cbn [fst snd Replay.vars Replay.log Replay.assign].
  - rewrite set_property_insert by done. apply lookup_insert_eq.
  - by rewrite set_property_lookup_ne.
Qed.

Lemma outer_iteration_own n l i acc :
  shows acc -> shows (Replay.outer_iteration codeLines arrName n l i acc).
Proof.
  intros H. unfold Replay.outer_iteration. cbv zeta.
  apply (iterate_invariant (fun _ a => shows a) (n - i - 1) 0).
  - cbn [fst snd Replay.vars Replay.log Replay.assign].
    by rewrite set_property_lookup_ne.
  - intros k a _. apply inner_iteration_own.
Qed.

End OwnName.

Lemma loops_own_name cl am xs :
  group1 am <> "n" -> group1 am <> "i" -> group1 am <> "j" ->
  group1 am <> "__proto__" ->
  Replay.vars (Replay.loops cl am xs).2 !! group1 am
  = Some (JArr (to_json <$> bubble_sort greater xs)).
Proof.
  intros Hn Hi Hj Hp. rewrite <- (loops_fst cl am xs).
  unfold Replay.loops. cbv zeta.
  apply (iterate_invariant
           (fun _ a => Replay.vars a.2 !! group1 am = Some (JArr (to_json <$> a.1)))
           (length xs) 0).
  - unfold Replay.prologue. cbv zeta.
    cbn [fst snd Replay.vars Replay.log Replay.assign Replay.initial].
    rewrite set_property_lookup_ne by done.
    rewrite set_property_insert by done. apply lookup_insert_eq.
  - intros k a _. by apply outer_iteration_own.
Qed.

(** C6 (as amended): for an array of integers, the text printed in the last
    step of a returned trace reads back, whatever the clock shows, as the
    array bound to [sortedArray] in that step, and the array under its own
    name shows the same unless that name is taken by one of the fixed
    names.  When the array of the source is [64, 34, 25, 12, 22, 11, 90],
    that array is [11, 12, 22, 25, 34, 64, 90] and the printed text is
    ["[11, 12, 22, 25, 34, 64, 90]"]. *)
Theorem output_reads_back code language h tr h' arrMatch zs :
  heap_wf h ->
  generateExecutionTrace code language h = Returned (tr, h') ->
  arrInitRegex_match code = Some arrMatch ->
  evaluate_literal (clock h) (group2 arrMatch) = Some (Int <$> zs) ->
  exists step text snapshot sorted,
    tr !! (length tr - 1) = Some step
    /\ ExecutionStep.description step = Describe.printing
    /\ ExecutionStep.output step = Some [text]
    /\ (forall t, evaluate_literal t text = Some (Int <$> sorted))
    /\ JSON_stringify h' (ExecutionStep.variables step) = Some snapshot
    /\ snapshot !! "sortedArray" = Some (JArr (Some <$> sorted))
    /\ (group1 arrMatch <> "n" -> group1 arrMatch <> "i" -> group1 arrMatch <> "j" ->
        group1 arrMatch <> "__proto__" ->
        snapshot !! group1 arrMatch = Some (JArr (Some <$> sorted)))
    /\ (zs = [64; 34; 25; 12; 22; 11; 90]%Z ->
        sorted = [11; 12; 22; 25; 34; 64; 90]%Z
        /\ text = "[11, 12, 22, 25, 34, 64, 90]").
Proof.
  intros Hwf Hgen Hm Hp.
  destruct (generate_observed _ _ _ _ _ Hwf Hgen) as (am & xs & Hm' & Hp' & Hobs).
  rewrite Hm in Hm'. injection Hm' as <-. rewrite Hp in Hp'. injection Hp' as <-.
  pose proof (observed_length _ _ _ Hobs) as Hlen.
  destruct (observed_lookup _ _ _ _ _ Hobs (simulate_lookup_printing _ arrMatch (Int <$> zs)))
    as (s & Hs & _ & Hsnap & Hd & Hout).
  exists s, (Describe.printed (Str.join ", " (number_to_string <$> bubble_sort Z.gtb zs))),
    (Replay.variables (Replay.printing_step (Str.split LF code) arrMatch (Int <$> zs))),
    (bubble_sort Z.gtb zs).
  rewrite Hlen.
  split; [done|]. split; [done|]. split.
  { rewrite Hout. cbn. by rewrite bubble_sort_Int, joined_Int. }
  split.
  { intros t. apply parse_printed. rewrite bubble_sort_perm.
    apply safe_elements_integers. by eapply evaluate_literal_safe. }
  split; [done|]. split.
  { cbn. rewrite bubble_sort_Int, to_json_Int. apply lookup_insert_eq. }
  split.
  { intros Hn Hi Hj Hproto. cbn. rewrite <- to_json_Int, <- bubble_sort_Int.
    destruct (decide (group1 arrMatch = "sortedArray")) as [-> |Hne].
    - apply lookup_insert_eq.
    - rewrite lookup_insert_ne by done. by apply loops_own_name. }
  intros ->. split; vm_compute; reflexivity.
Qed.

Lemma output_reads_back_witness :
  heap_wf empty_heap
  /\ generateExecutionTrace defaultCode javascript empty_heap
     = Returned (trace_of defaultCode, heap_of defaultCode)
  /\ arrInitRegex_match defaultCode
     = Some {| group0 := "let myArray = [64, 34, 25, 12, 22, 11, 90]"; group1 := "myArray";
               group2 := "[64, 34, 25, 12, 22, 11, 90]" |}
  /\ evaluate_literal (clock empty_heap) "[64, 34, 25, 12, 22, 11, 90]"
     = Some (Int <$> [64; 34; 25; 12; 22; 11; 90]%Z)
  /\ exists step text snapshot sorted,
       trace_of defaultCode !! (length (trace_of defaultCode) - 1) = Some step
       /\ ExecutionStep.description step = Describe.printing
       /\ ExecutionStep.output step = Some [text]
       /\ (forall t, evaluate_literal t text = Some (Int <$> sorted))
       /\ JSON_stringify (heap_of defaultCode) (ExecutionStep.variables step) = Some snapshot
       /\ snapshot !! "sortedArray" = Some (JArr (Some <$> sorted))
       /\ ("myArray" <> "n" -> "myArray" <> "i" -> "myArray" <> "j" ->
           "myArray" <> "__proto__" ->
           snapshot !! "myArray" = Some (JArr (Some <$> sorted)))
       /\ ([64; 34; 25; 12; 22; 11; 90]%Z = [64; 34; 25; 12; 22; 11; 90]%Z ->
           sorted = [11; 12; 22; 25; 34; 64; 90]%Z
           /\ text = "[11, 12, 22, 25, 34, 64, 90]").
Proof.
  split; [exact empty_heap_wf|]. split; [vm_compute; reflexivity|].
  split; [vm_compute; reflexivity|]. split; [vm_compute; reflexivity|].
  apply (output_reads_back defaultCode javascript empty_heap _ _
           {| group0 := "let myArray = [64, 34, 25, 12, 22, 11, 90]"; group1 := "myArray";
              group2 := "[64, 34, 25, 12, 22, 11, 90]" |});
    [exact empty_heap_wf | vm_compute; reflexivity | vm_compute; reflexivity
    | vm_compute; reflexivity].
Defined.

(** C6 (as stated) fails.  For the array [[3, NaN, 1]] a trace is returned
    whose last step prints ["[3, NaN, 1]"], while the snapshot of that step
    binds [sortedArray] to [[3, null, 1]]: the text reads back as an array
    with [NaN], which is not the array of the snapshot. *)
Lemma output_differs_from_snapshot :
  exists tr h' step snapshot,
    generateExecutionTrace nanCode javascript empty_heap = Returned (tr, h')
    /\ tr !! (length tr - 1) = Some step
    /\ ExecutionStep.output step = Some ["[3, NaN, 1]"]
    /\ JSON_stringify h' (ExecutionStep.variables step) = Some snapshot
    /\ snapshot !! "sortedArray" = Some (JArr [Some 3; None; Some 1]%Z)
    /\ (forall t, evaluate_literal t "[3, NaN, 1]" = Some [Int 3; NaN; Int 1])
    /\ [Int 3; NaN; Int 1] <> of_json <$> [Some 3; None; Some 1]%Z.
Proof.
  assert (exists step snapshot,
    trace_of nanCode !! (length (trace_of nanCode) - 1) = Some step
    /\ ExecutionStep.output step = Some ["[3, NaN, 1]"]
    /\ JSON_stringify (heap_of nanCode) (ExecutionStep.variables step) = Some snapshot
    /\ snapshot !! "sortedArray" = Some (JArr [Some 3; None; Some 1]%Z))
    as (step & snapshot & H1 & H2 & H3 & H4).
  { vm_compute. eexists _, _. repeat split. }
  exists (trace_of nanCode), (heap_of nanCode), step, snapshot.
  split; [exact nanCode_returns|]. split; [exact H1|]. split; [exact H2|].
  split; [exact H3|]. split; [exact H4|].
  split; [intros t; vm_compute; reflexivity|]. discriminate.
Qed.

(** ** Failures *)

(** C7: when no statement of the source matches the array-initialization
    pattern, the simulator throws one error, whose message names the
    expected shape, and the entry point returns no steps: it rejects with
    that error, prefixed, whenever the source passes its two earlier checks,
    and with the error of the failed check otherwise. *)
Theorem no_array_initialization_fails code :
  arrInitRegex_match code = None ->
  (forall h,
     BubbleSortSimulator.run (BubbleSortSimulator.new code h) = Thrown BubbleSortSimulator.no_array_message)
  /\ Str.contains BubbleSortSimulator.no_array_message "let myArray = [...]"
  /\ (forall language h,
        exists message, generateExecutionTrace code language h = Thrown message)
  /\ (forall h,
        Str.includes code "bubbleSort" = true ->
        Str.includes code "arr.length" = true ->
        generateExecutionTrace code javascript h
        = Thrown ("Simulation Failed: " +:+ BubbleSortSimulator.no_array_message)).
Proof.
  intros Hnone.
  assert (forall h, BubbleSortSimulator.run (BubbleSortSimulator.new code h)
                    = Thrown BubbleSortSimulator.no_array_message) as Hrun.
  { intros h. by rewrite run_unfold, Hnone. }
  split; [done|]. split; [|split].
  - apply includes_spec. vm_compute. reflexivity.
  - intros language h. unfold generateExecutionTrace.
    destruct language; [eauto|]. destruct (_ || _); [eauto|].
    rewrite Hrun. eauto.
  - intros h H1 H2. unfold generateExecutionTrace. by rewrite H1, H2, Hrun.
Qed.

Lemma no_array_initialization_fails_witness :
  arrInitRegex_match noArrayCode = None
  /\ (forall h,
        BubbleSortSimulator.run (BubbleSortSimulator.new noArrayCode h)
        = Thrown BubbleSortSimulator.no_array_message)
  /\ Str.contains BubbleSortSimulator.no_array_message "let myArray = [...]"
  /\ (forall language h,
        exists message, generateExecutionTrace noArrayCode language h = Thrown message)
  /\ (forall h,
        Str.includes noArrayCode "bubbleSort" = true ->
        Str.includes noArrayCode "arr.length" = true ->
        generateExecutionTrace noArrayCode javascript h
        = Thrown ("Simulation Failed: " +:+ BubbleSortSimulator.no_array_message)).
Proof.
  split; [vm_compute; reflexivity|].
  apply (no_array_initialization_fails noArrayCode). vm_compute. reflexivity.
Defined.

(** C8: with the language selector [python] the entry point rejects at once,
    whatever the source text and the store, with a message that tells the
    caller to switch languages; no simulator is built. *)
Theorem python_rejected code h :
  generateExecutionTrace code python h = Thrown unsupported_language_message
  /\ Str.contains unsupported_language_message "Please switch languages".
Proof.
  split; [reflexivity|]. apply includes_spec. vm_compute. reflexivity.
Qed.

(** ** Determinism *)

Lemma generate_wf code language h tr h' :
  heap_wf h -> generateExecutionTrace code language h = Returned (tr, h') -> heap_wf h'.
Proof.
  intros Hwf Hgen. destruct (generate_returned _ _ _ _ _ Hgen) as (m' & Hrun & ->).
  destruct (run_returned _ _ _ _ Hwf Hrun) as (am & xs & _ & _ & _ & Hinv).
  apply (inv_wf _ _ _ _ Hinv).
Qed.

Lemma set_clock_wf t h : heap_wf h -> heap_wf (set_clock t h).
Proof. done. Qed.

Lemma generate_outcome code language h :
  heap_wf h ->
  observe_outcome (generateExecutionTrace code language h) =
  match language with
  | python => Thrown unsupported_language_message
  | javascript =>
      if negb (Str.includes code "bubbleSort") || negb (Str.includes code "arr.length")
      then Thrown not_bubble_sort_message
      else
        match arrInitRegex_match code with
        | None => Thrown ("Simulation Failed: " +:+ BubbleSortSimulator.no_array_message)
        | Some arrMatch =>
            match evaluate_literal (clock h) (group2 arrMatch) with
            | None =>
                if malformed (group2 arrMatch) && Str.starts_with "[" (trim (group2 arrMatch))
                then Thrown ("Simulation Failed: " +:+ json_error h (group2 arrMatch))
                else Unmodelled
            | Some arrValue =>
                Returned (Some (Replay.simulate (Str.split LF code) arrMatch arrValue))
            end
        end
  end.
Proof.
  intros Hwf. unfold generateExecutionTrace. destruct language; [done|].
  destruct (_ || _); [done|].
  pose proof (run_new code h Hwf) as H.
  destruct (arrInitRegex_match code) as [am|]; [|by rewrite H].
  destruct (evaluate_literal (clock h) (group2 am)) as [xs|].
  2: { rewrite H. by destruct (malformed _ && _). }
  destruct H as (m' & -> & Hinv). cbn [observe_outcome]. f_equal.
  apply (tr_observe _ _ _ (inv_trace _ _ _ _ Hinv)).
Qed.

(** C9 (as amended): two invocations on the same source text and language
    selector, in whatever stores they run and whatever the clock shows,
    settle the same way, provided the array of the source does not read
    the clock: with the same error, or with traces of the same length that
    agree, position by position, on line number, contents of the
    [variables] snapshot, description and output. *)
Theorem generation_deterministic code language h1 h2 :
  heap_wf h1 ->
  heap_wf h2 ->
  reads_clock code = false ->
  (forall text, json_error h1 text = json_error h2 text) ->
  (forall message,
     generateExecutionTrace code language h1 = Thrown message ->
     generateExecutionTrace code language h2 = Thrown message)
  /\ (forall tr1 h1',
        generateExecutionTrace code language h1 = Returned (tr1, h1') ->
        exists tr2 h2',
          generateExecutionTrace code language h2 = Returned (tr2, h2')
          /\ length tr1 = length tr2
          /\ forall k s1 s2, tr1 !! k = Some s1 -> tr2 !! k = Some s2 ->
               ExecutionStep.lineNumber s1 = ExecutionStep.lineNumber s2
               /\ JSON_stringify h1' (ExecutionStep.variables s1)
                  = JSON_stringify h2' (ExecutionStep.variables s2)
               /\ is_Some (JSON_stringify h1' (ExecutionStep.variables s1))
               /\ ExecutionStep.description s1 = ExecutionStep.description s2
               /\ ExecutionStep.output s1 = ExecutionStep.output s2).
Proof.
  intros Hwf1 Hwf2 Hclock Herror.
  assert (observe_outcome (generateExecutionTrace code language h1)
          = observe_outcome (generateExecutionTrace code language h2)) as Heq.
  { rewrite !generate_outcome by done. destruct language; [done|].
    destruct (_ || _); [done|]. unfold reads_clock in Hclock.
    destruct (arrInitRegex_match code) as [am|]; [|done].
    by rewrite (evaluate_literal_clock (clock h1) (clock h2)), Herror. }
  split.
  - intros message H1. rewrite H1 in Heq. cbn [observe_outcome] in Heq.
    destruct (generateExecutionTrace code language h2) as [[tr2 h2']|message2|];
      cbn [observe_outcome] in Heq; congruence.
  - intros tr1 h1' H1.
    destruct (generate_observed _ _ _ _ _ Hwf1 H1) as (am & xs & Hm & Hp & Hobs1).
    rewrite H1 in Heq. cbn [observe_outcome] in Heq.
    destruct (generateExecutionTrace code language h2) as [[tr2 h2']|message2|];
      cbn [observe_outcome] in Heq; [|done..].
    exists tr2, h2'. split; [done|].
    injection Heq as Heq. rewrite Hobs1 in Heq. symmetry in Heq.
    split.
    + by rewrite (observed_length _ _ _ Hobs1), (observed_length _ _ _ Heq).
    + intros k s1 s2 Hs1 Hs2.
      apply observe_Some in Hobs1, Heq.
      destruct (Forall2_lookup_l _ _ _ _ _ Hobs1 Hs1) as (p1 & Hp1 & Ho1).
      destruct (Forall2_lookup_l _ _ _ _ _ Heq Hs2) as (p2 & Hp2 & Ho2).
      assert (p2 = p1) as -> by congruence.
      apply observe_step_inv in Ho1 as (-> & -> & -> & ->).
      apply observe_step_inv in Ho2 as (-> & -> & -> & ->).
      eauto 10.
Qed.

(** The second invocation runs later, in the store the first one left
    behind. *)
Lemma generation_deterministic_witness :
  heap_wf empty_heap
  /\ heap_wf (set_clock 600 (heap_of smallCode))
  /\ reads_clock smallCode = false
  /\ (forall text,
        json_error empty_heap text = json_error (set_clock 600 (heap_of smallCode)) text)
  /\ (forall message,
        generateExecutionTrace smallCode javascript empty_heap = Thrown message ->
        generateExecutionTrace smallCode javascript (set_clock 600 (heap_of smallCode))
        = Thrown message)
  /\ (forall tr1 h1',
        generateExecutionTrace smallCode javascript empty_heap = Returned (tr1, h1') ->
        exists tr2 h2',
          generateExecutionTrace smallCode javascript (set_clock 600 (heap_of smallCode))
          = Returned (tr2, h2')
          /\ length tr1 = length tr2
          /\ forall k s1 s2, tr1 !! k = Some s1 -> tr2 !! k = Some s2 ->
               ExecutionStep.lineNumber s1 = ExecutionStep.lineNumber s2
               /\ JSON_stringify h1' (ExecutionStep.variables s1)
                  = JSON_stringify h2' (ExecutionStep.variables s2)
               /\ is_Some (JSON_stringify h1' (ExecutionStep.variables s1))
               /\ ExecutionStep.description s1 = ExecutionStep.description s2
               /\ ExecutionStep.output s1 = ExecutionStep.output s2).
Proof.
  assert (heap_wf (set_clock 600 (heap_of smallCode))) as Hwf.
  { apply set_clock_wf.
    apply (generate_wf smallCode javascript empty_heap (trace_of smallCode));
      [exact empty_heap_wf | vm_compute; reflexivity]. }
  assert (reads_clock smallCode = false) as Hclock by (vm_compute; reflexivity).
  assert (forall text,
    json_error empty_heap text = json_error (set_clock 600 (heap_of smallCode)) text)
    as Herror by (intros text; vm_compute; reflexivity).
  split; [exact empty_heap_wf|]. split; [exact Hwf|]. split; [exact Hclock|].
  split; [exact Herror|].
  exact (generation_deterministic smallCode javascript empty_heap
           (set_clock 600 (heap_of smallCode)) empty_heap_wf Hwf Hclock Herror).
Defined.

(** C9 (as stated) fails.  The array of the source is evaluated as
    JavaScript at every invocation, and [[Date.now(), 0]] is the time of
    the call: a second invocation, 600 ms after the first and in the store
    the first one left, returns a trace that prints another array. *)
Lemma later_invocation_differs :
  exists tr1 h1' tr2 h2' s1 s2,
    generateExecutionTrace clockCode javascript (set_clock 1700000000000 empty_heap)
    = Returned (tr1, h1')
    /\ generateExecutionTrace clockCode javascript (set_clock 1700000000600 h1')
       = Returned (tr2, h2')
    /\ length tr1 = length tr2
    /\ last tr1 = Some s1
    /\ last tr2 = Some s2
    /\ ExecutionStep.output s1 = Some ["[0, 1700000000000]"]
    /\ ExecutionStep.output s2 = Some ["[0, 1700000000600]"]
    /\ tr1 <> tr2.
Proof.
  destruct (generateExecutionTrace clockCode javascript (set_clock 1700000000000 empty_heap))
    as [[tr1 h1']| |] eqn:E1; [|by vm_compute in E1..].
  destruct (generateExecutionTrace clockCode javascript (set_clock 1700000000600 h1'))
    as [[tr2 h2']| |] eqn:E2.
  2, 3: vm_compute in E1; injection E1 as <- <-; by vm_compute in E2.
  assert (exists s1 s2, length tr1 = length tr2 /\ last tr1 = Some s1 /\ last tr2 = Some s2
    /\ ExecutionStep.output s1 = Some ["[0, 1700000000000]"]
    /\ ExecutionStep.output s2 = Some ["[0, 1700000000600]"])
    as (s1 & s2 & Hlen & L1 & L2 & O1 & O2).
  { vm_compute in E1. injection E1 as <- <-. vm_compute in E2. injection E2 as <- <-.
    vm_compute. eexists _, _. repeat split. }
  exists tr1, h1', tr2, h2', s1, s2. repeat (split; [done|]).
  intros ->. rewrite L1 in L2. injection L2 as ->. rewrite O1 in O2. discriminate O2.
Qed.

(** ** Names *)

(** C10: every snapshot of a returned trace binds names among the array's
    own name, taken from the source, and the fixed names [n], [i], [j] and
    [sortedArray].  The second step binds [n] to the length of the array,
    and so does every later step unless the array itself is called [n]; the
    last step binds [sortedArray] to the sorted array. *)
Theorem snapshot_names_fixed code language h tr h' :
  heap_wf h ->
  generateExecutionTrace code language h = Returned (tr, h') ->
  exists arrMatch arrValue,
    arrInitRegex_match code = Some arrMatch
    /\ evaluate_literal (clock h) (group2 arrMatch) = Some arrValue
    /\ (forall step snapshot, step ∈ tr ->
          JSON_stringify h' (ExecutionStep.variables step) = Some snapshot ->
          dom snapshot ⊆ {[ group1 arrMatch; "n"; "i"; "j"; "sortedArray" ]})
    /\ (exists step snapshot,
          tr !! 1 = Some step
          /\ JSON_stringify h' (ExecutionStep.variables step) = Some snapshot
          /\ snapshot !! "n" = Some (JNum (Z.of_nat (length arrValue))))
    /\ (group1 arrMatch <> "n" ->
        forall k step snapshot, tr !! S k = Some step ->
          JSON_stringify h' (ExecutionStep.variables step) = Some snapshot ->
          snapshot !! "n" = Some (JNum (Z.of_nat (length arrValue))))
    /\ (exists step snapshot,
          tr !! (length tr - 1) = Some step
          /\ JSON_stringify h' (ExecutionStep.variables step) = Some snapshot
          /\ snapshot !! "sortedArray" = Some (JArr (to_json <$> bubble_sort greater arrValue))).
Proof.
  intros Hwf Hgen.
  destruct (generate_observed _ _ _ _ _ Hwf Hgen) as (am & xs & Hm & Hp & Hobs).
  pose proof (observed_length _ _ _ Hobs) as Hlen.
  exists am, xs. split; [done|]. split; [done|]. split; [|split; [|split]].
  - intros step snapshot Hstep Hsnap.
    apply list_elem_of_lookup in Hstep as [k Hk].
    pose proof Hobs as Hobs'. apply observe_Some in Hobs'.
    destruct (Forall2_lookup_l _ _ _ _ _ Hobs' Hk) as (p & Hp' & Ho).
    apply observe_step_inv in Ho as (_ & Hv & _ & _).
    rewrite Hsnap in Hv. injection Hv as ->.
    pose proof (simulate_names (Str.split LF code) am xs) as Hnames.
    rewrite Forall_forall in Hnames. apply Hnames.
    by eapply list_elem_of_lookup_2.
  - destruct (observed_lookup _ _ _ _ _ Hobs (simulate_lookup_init_n _ am xs))
      as (s & Hs & _ & Hsnap & _ & _).
    exists s, (Replay.variables (Replay.init_n_step (Str.split LF code) am xs)).
    split; [done|]. split; [done|]. cbn. apply lookup_insert_eq.
  - intros Hname k step snapshot Hk Hsnap.
    pose proof Hobs as Hobs'. apply observe_Some in Hobs'.
    destruct (Forall2_lookup_l _ _ _ _ _ Hobs' Hk) as (p & Hp' & Ho).
    apply observe_step_inv in Ho as (_ & Hv & _ & _).
    rewrite Hsnap in Hv. injection Hv as ->.
    pose proof (simulate_n_bound (Str.split LF code) am xs Hname) as Hn.
    rewrite Forall_forall in Hn. apply Hn.
    apply (list_elem_of_lookup_2 _ k). by rewrite lookup_tail.
  - destruct (observed_lookup _ _ _ _ _ Hobs (simulate_lookup_printing _ am xs))
      as (s & Hs & _ & Hsnap & _ & _).
    exists s, (Replay.variables (Replay.printing_step (Str.split LF code) am xs)).
    rewrite Hlen. split; [done|]. split; [done|]. cbn. apply lookup_insert_eq.
Qed.

Lemma snapshot_names_fixed_witness :
  heap_wf empty_heap
  /\ generateExecutionTrace smallCode javascript empty_heap
     = Returned (trace_of smallCode, heap_of smallCode)
  /\ exists arrMatch arrValue,
       arrInitRegex_match smallCode = Some arrMatch
       /\ evaluate_literal (clock empty_heap) (group2 arrMatch) = Some arrValue
       /\ (forall step snapshot, step ∈ trace_of smallCode ->
             JSON_stringify (heap_of smallCode) (ExecutionStep.variables step) = Some snapshot ->
             dom snapshot ⊆ {[ group1 arrMatch; "n"; "i"; "j"; "sortedArray" ]})
       /\ (exists step snapshot,
             trace_of smallCode !! 1 = Some step
             /\ JSON_stringify (heap_of smallCode) (ExecutionStep.variables step) = Some snapshot
             /\ snapshot !! "n" = Some (JNum (Z.of_nat (length arrValue))))
       /\ (group1 arrMatch <> "n" ->
           forall k step snapshot, trace_of smallCode !! S k = Some step ->
             JSON_stringify (heap_of smallCode) (ExecutionStep.variables step) = Some snapshot ->
             snapshot !! "n" = Some (JNum (Z.of_nat (length arrValue))))
       /\ (exists step snapshot,
             trace_of smallCode !! (length (trace_of smallCode) - 1) = Some step
             /\ JSON_stringify (heap_of smallCode) (ExecutionStep.variables step) = Some snapshot
             /\ snapshot !! "sortedArray" = Some (JArr (to_json <$> bubble_sort greater arrValue))).
Proof.
  split; [exact empty_heap_wf|]. split; [vm_compute; reflexivity|].
  apply (snapshot_names_fixed smallCode javascript empty_heap);
    [exact empty_heap_wf | vm_compute; reflexivity].
Defined.

(** * Further properties of the traces *)

Section TraceFacts.

Lemma findLine_in_range cl s : cl <> [] -> 1 <= findLine cl s 0 <= length cl.
Proof.
  intros Hne. unfold findLine, findIndex.
  destruct (findIndex_from _ cl 0) as [k|] eqn:E.
  - apply findIndex_from_Some in E as (_ & (x & Hx & _) & _).
    apply lookup_lt_Some in Hx. lia.
  - destruct cl; [done|]. simpl. lia.
Qed.

(** What holds of every step of the replay holds of every step of the trace
    in the store. *)
Lemma observed_Forall
    (Q : nat -> gmap string json -> string -> option (list string) -> Prop) h tr ps :
  observe h tr = Some ps ->
  Forall (fun p => Q (Replay.lineNumber p) (Replay.variables p)
                     (Replay.description p) (Replay.output p)) ps ->
  Forall (fun s => exists snapshot,
            JSON_stringify h (ExecutionStep.variables s) = Some snapshot
            /\ Q (ExecutionStep.lineNumber s) snapshot
                 (ExecutionStep.description s) (ExecutionStep.output s)) tr.
Proof.
  intros H HQ. apply observe_Some in H.
  induction H as [|s p tr ps Hs _ IH]; [constructor|].
  apply Forall_cons in HQ as [Hp HQ]. constructor; [|by apply IH].
  apply observe_step_inv in Hs as (Hl & Hv & Hd & Ho).
  exists (Replay.variables p). by rewrite Hl, Hd, Ho.
Qed.

(** *** Properties kept by assignments and by steps logged at located lines *)

Section Located.

Variable codeLines : list string.
Variable P : Replay.state -> Prop.
Hypothesis P_assign : forall name v st, P st -> P (Replay.assign name v st).
Hypothesis P_log : forall d s st, P st -> P (Replay.log d (findLine codeLines s 0) st).
Hypothesis P_set_out : forall o st, P st -> P (Replay.set_out o st).

Lemma inner_iteration_located arrName s j (acc : list element * Replay.state) :
  P acc.2 ->
  P (Replay.inner_iteration codeLines arrName (findLine codeLines s 0) j acc).2.
Proof.
  intros H. unfold Replay.inner_iteration. cbv zeta.
  destruct (greater _ _); cbn [fst snd]; auto 10.
Qed.

Lemma outer_iteration_located arrName n s i (acc : list element * Replay.state) :
  P acc.2 ->
  P (Replay.outer_iteration codeLines arrName n (findLine codeLines s 0) i acc).2.
Proof.
  intros H. unfold Replay.outer_iteration. cbv zeta.
  apply (iterate_invariant (fun _ a => P a.2) _ 0); [cbn [fst snd]; auto|].
  intros. by apply inner_iteration_located.
Qed.

Lemma finish_located arrMatch arrValue :
  P Replay.initial ->
  P (Replay.finish codeLines (Replay.loops codeLines arrMatch arrValue)).
Proof.
  intros H. unfold Replay.finish. cbv zeta.
  apply P_log, P_set_out, P_log, P_assign.
  unfold Replay.loops. cbv zeta.
  apply (iterate_invariant (fun _ a => P a.2) _ 0).
  - cbn [fst snd]. unfold Replay.prologue. cbv zeta. auto.
  - intros. by apply outer_iteration_located.
Qed.

End Located.

Lemma simulate_lines cl am xs :
  cl <> [] ->
  Forall (fun s => 1 <= Replay.lineNumber s <= length cl) (Replay.simulate cl am xs).
Proof.
  intros Hne. unfold Replay.simulate.
  apply (finish_located cl
           (fun st => Forall (fun s => 1 <= Replay.lineNumber s <= length cl)
                             (Replay.steps st))).
  - done.
  - intros d s st H. rewrite log_findLine. cbn [Replay.steps].
    apply Forall_app. split; [done|]. constructor; [|done].
    cbn. by apply findLine_in_range.
  - done.
  - constructor.
Qed.

(** *** Output *)

Lemma loops_outputs cl am xs :
  Forall (fun s => Replay.output s = None) (Replay.steps (Replay.loops cl am xs).2).
Proof.
  cut (Replay.out (Replay.loops cl am xs).2 = []
       /\ Forall (fun s => Replay.output s = None) (Replay.steps (Replay.loops cl am xs).2));
    [tauto|].
  unfold Replay.loops. cbv zeta.
  apply (outer_loop_preserves cl (group1 am)
           (fun st => Replay.out st = []
                      /\ Forall (fun s => Replay.output s = None) (Replay.steps st))
           (fun _ => True)); try done.
  - intros d l st [Ho Hs]. split; [done|].
    unfold Replay.log. cbn [Replay.steps]. apply Forall_app. split; [done|].
    constructor; [|done]. cbn. by rewrite Ho.
  - cbn [fst snd]. rewrite prologue_steps, prologue_out. split; [done|].
    by repeat constructor.
Qed.

(** *** Names, once bound, stay *)

Lemma set_property_dom_grows {V} name (v : V) fields :
  dom fields ⊆ dom (set_property name v fields).
Proof.
  unfold set_property. destruct (decide _); [done|].
  rewrite dom_insert. intros x Hx. apply elem_of_union. by right.
Qed.

Lemma simulate_growing cl am xs i j si sj :
  i <= j ->
  Replay.simulate cl am xs !! i = Some si ->
  Replay.simulate cl am xs !! j = Some sj ->
  dom (Replay.variables si) ⊆ dom (Replay.variables sj).
Proof.
  intros Hij Hi Hj.
  cut (Forall (fun s => dom (Replay.variables s)
                        ⊆ dom (Replay.vars (Replay.finish cl (Replay.loops cl am xs))))
         (Replay.simulate cl am xs)
       /\ forall i j si sj, i <= j ->
            Replay.simulate cl am xs !! i = Some si ->
            Replay.simulate cl am xs !! j = Some sj ->
            dom (Replay.variables si) ⊆ dom (Replay.variables sj)).
  { intros [_ H]. by apply (H i j). }
  clear. unfold Replay.simulate.
  apply (finish_located cl
    (fun st => Forall (fun s => dom (Replay.variables s) ⊆ dom (Replay.vars st))
                 (Replay.steps st)
               /\ forall i j si sj, i <= j ->
                    Replay.steps st !! i = Some si -> Replay.steps st !! j = Some sj ->
                    dom (Replay.variables si) ⊆ dom (Replay.variables sj))).
  - intros name v st [Hs Hg]. split; [|done]. cbn [Replay.assign Replay.vars Replay.steps].
    eapply Forall_impl; [exact Hs|]. intros s Hsub x Hx.
    by apply set_property_dom_grows, Hsub.
  - intros d s st [Hs Hg]. rewrite log_findLine. cbn [Replay.steps Replay.vars].
    split.
    + apply Forall_app. split; [done|]. by repeat constructor.
    + intros i j si sj Hij Hi Hj.
      destruct (decide (j < length (Replay.steps st))) as [Hlt|Hge].
      * rewrite lookup_app_l in Hi, Hj by lia. by apply (Hg i j).
      * rewrite lookup_app_r in Hj by lia.
        destruct (j - length (Replay.steps st)) as [|k] eqn:Ek; [|by destruct k].
        injection Hj as <-. cbn [Replay.variables].
        destruct (decide (i < length (Replay.steps st))) as [Hlt|Hge'].
        -- rewrite lookup_app_l in Hi by lia.
           rewrite Forall_lookup in Hs. by apply (Hs i).
        -- rewrite lookup_app_r in Hi by lia.
           replace (i - length (Replay.steps st)) with 0 in Hi by lia.
           by injection Hi as <-.
  - done.
  - split; [constructor|]. intros i j si sj _ Hi. by destruct i.
Qed.

(** *** The arrays of a snapshot *)

Section Arrays.

Variable R : list element -> Prop.
Variable cl : list string.
Variable arrName : string.
Variable arr0 : list element.
Hypothesis R_length : forall ys, R ys -> length ys = length arr0.
Hypothesis R_swap : forall j ys,
  R ys -> j + 1 < length ys -> greater (ys !!! j) (ys !!! (j + 1)) = true ->
  R (swap_at j ys).

(** The JSON copies of the arrays that satisfy [R]. *)
Local Abbreviation copies := (fun js => exists ys, R ys /\ js = to_json <$> ys).

Local Abbreviation shown st :=
  (arrays_are copies arrName (Replay.vars st)
   /\ Forall (fun s => arrays_are copies arrName (Replay.variables s)) (Replay.steps st)).

Lemma arrays_are_num name z fields :
  arrays_are copies arrName fields ->
  arrays_are copies arrName (set_property name (JNum z) fields).
Proof.
  intros H k ys Hk. unfold set_property in Hk. destruct (decide _); [by apply H|].
  destruct (decide (k = name)) as [->|Hne].
  - by rewrite lookup_insert_eq in Hk.
  - rewrite lookup_insert_ne in Hk by done. by apply H.
Qed.

Lemma arrays_are_arr name zs fields :
  name = arrName \/ name = "sortedArray" -> R zs ->
  arrays_are copies arrName fields ->
  arrays_are copies arrName (set_property name (JArr (to_json <$> zs)) fields).
Proof.
  intros Hn Hzs H k ys Hk. unfold set_property in Hk. destruct (decide _); [by apply H|].
  destruct (decide (k = name)) as [->|Hne].
  - rewrite lookup_insert_eq in Hk. injection Hk as <-. split; [done|]. by exists zs.
  - rewrite lookup_insert_ne in Hk by done. by apply H.
Qed.

Lemma shown_num name z st : shown st -> shown (Replay.assign name (JNum z) st).
Proof. intros [Hv Hs]. split; [|done]. by apply arrays_are_num. Qed.

Lemma shown_arr name zs st :
  name = arrName \/ name = "sortedArray" -> R zs ->
  shown st -> shown (Replay.assign name (JArr (to_json <$> zs)) st).
Proof. intros Hn Hzs [Hv Hs]. split; [|done]. by apply arrays_are_arr. Qed.

Lemma shown_log d l st : shown st -> shown (Replay.log d l st).
Proof.
  intros [Hv Hs]. split; [done|]. unfold Replay.log. cbn [Replay.steps].
  apply Forall_app. split; [done|]. constructor; [exact Hv|constructor].
Qed.

Lemma inner_iteration_shown l j (acc : list element * Replay.state) :
  j + 1 < length arr0 ->
  R acc.1 /\ shown acc.2 ->
  R (Replay.inner_iteration cl arrName l j acc).1
  /\ shown (Replay.inner_iteration cl arrName l j acc).2.
Proof.
  intros Hj [HR Hsh]. unfold Replay.inner_iteration. cbv zeta.
  destruct (greater _ _) eqn:Hgt; cbn [fst snd].
  - assert (R (swap_at j acc.1)) as HR'.
    { apply R_swap; [done| |done]. by rewrite (R_length _ HR). }
    split; [done|].
    apply shown_log, shown_arr; [by left|done|].
    by apply shown_log, shown_log, shown_log, shown_num.
  - split; [done|]. by apply shown_log, shown_log, shown_num.
Qed.

Lemma outer_iteration_shown n l i (acc : list element * Replay.state) :
  n = length arr0 ->
  R acc.1 /\ shown acc.2 ->
  R (Replay.outer_iteration cl arrName n l i acc).1
  /\ shown (Replay.outer_iteration cl arrName n l i acc).2.
Proof.
  intros -> [HR Hsh]. unfold Replay.outer_iteration. cbv zeta.
  apply (iterate_invariant (fun _ a => R a.1 /\ shown a.2) _ 0).
  - cbn [fst snd]. split; [done|]. by apply shown_log, shown_num.
  - intros k a Hk Ha. apply inner_iteration_shown; [lia|done].
Qed.

End Arrays.

Lemma simulate_arrays (R : list element -> Prop) cl am xs :
  (forall ys, R ys -> length ys = length xs) ->
  (forall j ys, R ys -> j + 1 < length ys -> greater (ys !!! j) (ys !!! (j + 1)) = true ->
                R (swap_at j ys)) ->
  R xs ->
  Forall (fun s => arrays_are (fun js => exists ys, R ys /\ js = to_json <$> ys)
                     (group1 am) (Replay.variables s))
         (Replay.simulate cl am xs).
Proof.
  intros Hlen Hswap Hxs. unfold Replay.simulate, Replay.finish. cbv zeta.
  set (copies := fun js => exists ys, R ys /\ js = to_json <$> ys).
  assert (R (Replay.loops cl am xs).1
          /\ arrays_are copies (group1 am) (Replay.vars (Replay.loops cl am xs).2)
          /\ Forall (fun s => arrays_are copies (group1 am) (Replay.variables s))
                (Replay.steps (Replay.loops cl am xs).2)) as (HR & Hsh).
  { unfold Replay.loops. cbv zeta.
    apply (iterate_invariant
             (fun _ a => R a.1 /\ arrays_are copies (group1 am) (Replay.vars a.2)
                         /\ Forall (fun s => arrays_are copies (group1 am) (Replay.variables s))
                               (Replay.steps a.2)) _ 0).
    - cbn [fst snd]. split; [done|]. unfold Replay.prologue. cbv zeta.
      apply shown_log, shown_num, shown_log, shown_arr; [by left|done|].
      split; [|constructor]. intros name ys Hk. cbn [Replay.vars Replay.initial] in Hk.
      by rewrite lookup_empty in Hk.
    - intros k a Hk Ha. by apply (outer_iteration_shown R cl (group1 am) xs). }
  apply (shown_log R (group1 am)).
  apply (shown_log R (group1 am) _ _
           (Replay.assign "sortedArray" (JArr (to_json <$> (Replay.loops cl am xs).1))
                          (Replay.loops cl am xs).2)).
  apply shown_arr; [by right|done|done].
Qed.

End TraceFacts.

(** ** Swaps and inversions *)

Section Inversions.

Implicit Types xs ys : list Z.

Lemma inner_entries_upto n k :
  k <= n -> 2 * sum_list_with (fun i => n - i - 1) (seq 0 k) + k * (k + 1) = 2 * k * n.
Proof.
  induction k as [|k IH]; intros Hk; [done|].
  rewrite inner_entries_upto_S. specialize (IH ltac:(lia)). nia.
Qed.

(** [Σ (n - i - 1) = n (n - 1) / 2] *)
Lemma inner_entries_double n : 2 * inner_entries n = n * (n - 1).
Proof.
  unfold inner_entries. pose proof (inner_entries_upto n n ltac:(lia)) as H.
  destruct n as [|n]; [done|]. nia.
Qed.

Lemma swap_at_head (a b : Z) l : swap_at 0 (a :: b :: l) = b :: a :: l.
Proof. done. Qed.

(** Swapping an adjacent pair that is out of order removes one inversion. *)
Lemma inversions_swap j ys :
  j + 1 < length ys -> (ys !!! j > ys !!! (j + 1)%nat)%Z ->
  inversions ys = S (inversions (swap_at j ys)).
Proof.
  revert ys. induction j as [|j IH]; intros ys Hj Hgt.
  - destruct ys as [|a [|b l]]; [simpl in Hj; lia..|].
    rewrite swap_at_head. change ((a :: b :: l) !!! 0) with a in Hgt.
    change ((a :: b :: l) !!! (0 + 1)) with b in Hgt.
    cbn [inversions].
    rewrite (filter_cons_True (fun y => (y < a)%Z) b l) by lia.
    rewrite (filter_cons_False (fun y => (y < b)%Z) a l) by lia.
    cbn [length]. lia.
  - destruct ys as [|x l]; [simpl in Hj; lia|].
    rewrite swap_at_cons. cbn [inversions]. simpl in Hj.
    change ((x :: l) !!! S j) with (l !!! j) in Hgt.
    change ((x :: l) !!! (S j + 1)) with (l !!! (j + 1)) in Hgt.
    rewrite (IH l) by (done || lia).
    assert (swap_at j l ≡ₚ l) as Hp by (apply swap_at_perm; lia).
    rewrite (Permutation_length (filter_Permutation (fun y => (y < x)%Z) _ _ Hp)).
    lia.
Qed.

Lemma inversions_sorted xs : Sorted Z.le xs -> inversions xs = 0.
Proof.
  intros H. apply (Sorted_StronglySorted Z.le) in H.
  induction H as [|x l Hl IH Hall]; [done|].
  cbn [inversions]. rewrite IH.
  assert (filter (fun y => (y < x)%Z) l = []) as ->; [|done].
  clear IH Hl. induction Hall as [|y l Hy Hall IH]; [done|].
  rewrite filter_cons_False by lia. done.
Qed.

Lemma inversions_bound xs : 2 * inversions xs <= length xs * (length xs - 1).
Proof.
  induction xs as [|x l IH]; [done|].
  cbn [inversions length].
  pose proof (length_filter (fun y => (y < x)%Z) l).
  destruct l as [|y l]; [simpl in *; lia|]. cbn [length] in *. nia.
Qed.

Lemma count_swap_fst j (acc : list Z * nat) : (count_swap Z.gtb j acc).1 = compare_swap Z.gtb j acc.1.
Proof. unfold count_swap, compare_swap. cbv zeta. by destruct (Z.gtb _ _). Qed.

Lemma count_swap_inversions j (acc : list Z * nat) :
  j + 1 < length acc.1 ->
  length (count_swap Z.gtb j acc).1 = length acc.1
  /\ (count_swap Z.gtb j acc).2 + inversions (count_swap Z.gtb j acc).1 = acc.2 + inversions acc.1.
Proof.
  intros Hj. unfold count_swap. cbv zeta.
  destruct (Z.gtb _ _) eqn:Hgt; cbn [fst snd]; [|done].
  split; [apply swap_at_length|].
  apply Z.gtb_lt in Hgt. rewrite (inversions_swap j acc.1) by (done || lia). lia.
Qed.

(** The swaps of the sort are the inversions of its input. *)
Lemma swaps_performed_inversions xs : swaps_performed Z.gtb xs = inversions xs.
Proof.
  unfold swaps_performed. cbv zeta.
  set (n := length xs).
  set (final := iterate n 0 (fun i => iterate (n - i - 1) 0 (count_swap Z.gtb)) (xs, 0)).
  assert (final.1 = bubble_sort Z.gtb xs) as Hfst.
  { unfold final, bubble_sort, pass. cbv zeta. fold n.
    rewrite (iterate_proj fst _ _ _ (fun i => iterate (n - i - 1) 0 (compare_swap Z.gtb))); [done|].
    intros k s. rewrite (iterate_proj fst _ _ _ (compare_swap Z.gtb)); [done|].
    intros. apply count_swap_fst. }
  assert (length final.1 = n /\ final.2 + inversions final.1 = inversions xs) as [_ Hinv].
  { unfold final.
    apply (iterate_invariant
             (fun _ a => length a.1 = n /\ a.2 + inversions a.1 = inversions xs) n 0);
      [by cbn|].
    intros i a Hi Ha.
    apply (iterate_invariant
             (fun _ a => length a.1 = n /\ a.2 + inversions a.1 = inversions xs)
             (n - i - 1) 0); [done|].
    intros j b Hj [Hlen Hb].
    destruct (count_swap_inversions j b) as [E1 E2]; [lia|].
    split; [congruence|lia]. }
  rewrite Hfst, (inversions_sorted _ (bubble_sort_sorted xs)) in Hinv. lia.
Qed.

(** An array of integers is sorted with as many swaps as it has
    inversions. *)
Lemma swaps_performed_Int_inversions xs :
  swaps_performed greater (Int <$> xs) = inversions xs.
Proof. by rewrite swaps_performed_Int, swaps_performed_inversions. Qed.

End Inversions.

(** Whatever the comparison answers, every inner iteration swaps at most
    once. *)
Section Swaps.

Context {A : Type} `{Inhabited A}.
Variable gt : A -> A -> bool.

Implicit Types xs : list A.

Lemma swaps_performed_bound xs : swaps_performed gt xs <= inner_entries (length xs).
Proof.
  unfold swaps_performed, inner_entries. cbv zeta.
  set (n := length xs).
  apply (iterate_invariant
           (fun i (a : list A * nat) =>
              a.2 <= sum_list_with (fun i => n - i - 1) (seq 0 i)) n 0); [done|].
  intros i a Hi Ha. rewrite inner_entries_upto_S.
  cut ((iterate (n - i - 1) 0 (count_swap gt) a).2 <= a.2 + (n - i - 1)); [lia|].
  apply (iterate_invariant (fun j (b : list A * nat) => b.2 <= a.2 + j) (n - i - 1) 0).
  - cbn. lia.
  - intros j b _ Hb. unfold count_swap. cbv zeta.
    destruct (gt _ _); cbn [fst snd]; lia.
Qed.

(** An array in which no element is greater than the next is sorted without
    a swap. *)
Lemma swaps_performed_idle xs :
  (forall j, j + 1 < length xs -> gt (xs !!! j) (xs !!! (j + 1)) = false) ->
  swaps_performed gt xs = 0.
Proof.
  intros Hno. unfold swaps_performed. cbv zeta.
  set (n := length xs).
  assert (iterate n 0 (fun i => iterate (n - i - 1) 0 (count_swap gt)) (xs, 0) = (xs, 0))
    as ->; [|done].
  apply (iterate_invariant (fun _ (a : list A * nat) => a = (xs, 0)) n 0); [done|].
  intros i a Hi ->.
  apply (iterate_invariant (fun _ (a : list A * nat) => a = (xs, 0)) (n - i - 1) 0); [done|].
  intros j b Hj ->. unfold count_swap. cbv zeta. cbn [fst snd].
  rewrite Hno; [done|]. unfold n in *. simpl in *. lia.
Qed.

End Swaps.

(** In a list sorted by a relation, neighbours are related. *)
Lemma Sorted_adjacent {A} `{Inhabited A} (R : A -> A -> Prop) (xs : list A) j :
  Sorted R xs -> j + 1 < length xs -> R (xs !!! j) (xs !!! (j + 1)).
Proof.
  intros Hs. revert j. induction Hs as [|x l Hl IH Hhd]; intros j Hj; [simpl in Hj; lia|].
  destruct j as [|j].
  - destruct Hhd as [|y l' Hxy]; [simpl in Hj; lia|done].
  - simpl in Hj. apply (IH j). lia.
Qed.

(** ** Every returned trace *)

Lemma smallCode_returns :
  generateExecutionTrace smallCode javascript empty_heap
  = Returned (trace_of smallCode, heap_of smallCode).
Proof. vm_compute. reflexivity. Qed.

Lemma sortedCode_returns :
  generateExecutionTrace sortedCode javascript empty_heap
  = Returned (trace_of sortedCode, heap_of sortedCode).
Proof. vm_compute. reflexivity. Qed.

Lemma observed_snoc h tr ps p :
  observe h tr = Some (ps ++ [p])%list ->
  exists front last,
    tr = (front ++ [last])%list /\ observe h front = Some ps /\ observe_step h last = Some p.
Proof.
  intros H. apply observe_Some in H.
  apply Forall2_app_inv_r in H as (front & tl & Hf & Ht & ->).
  destruct tl as [|last tl]; [by apply Forall2_length in Ht|].
  apply Forall2_cons in Ht as [Hl Ht]. apply Forall2_nil_inv_r in Ht as ->.
  exists front, last. split; [done|]. split; [by apply observe_Some|done].
Qed.

Lemma generate_lines code language h tr h' :
  heap_wf h ->
  generateExecutionTrace code language h = Returned (tr, h') ->
  Forall (fun s => 1 <= ExecutionStep.lineNumber s <= length (Str.split LF code)) tr.
Proof.
  intros Hwf Hgen.
  destruct (generate_observed _ _ _ _ _ Hwf Hgen) as (am & xs & Hm & Hp & Hobs).
  pose proof (observed_Forall
                (fun l _ _ _ => 1 <= l <= length (Str.split LF code)) _ _ _ Hobs
                (simulate_lines _ am xs (split_nonempty LF code))) as H.
  eapply Forall_impl; [exact H|]. by intros s (_ & _ & Hs).
Qed.

Lemma arrays_are_impl (R R' : list (option Z) -> Prop) arrName snapshot :
  (forall js, R js -> R' js) -> arrays_are R arrName snapshot -> arrays_are R' arrName snapshot.
Proof. intros HR H name js Hjs. destruct (H name js Hjs). auto. Qed.

Lemma simulate_permutations cl am xs :
  Forall (fun s => arrays_are (fun js => js ≡ₚ to_json <$> xs) (group1 am) (Replay.variables s))
         (Replay.simulate cl am xs).
Proof.
  eapply Forall_impl.
  - apply (simulate_arrays (fun ys => ys ≡ₚ xs)); [|intros j ys Hys Hj _|done].
    + intros ys Hys. by apply Permutation_length.
    + by rewrite swap_at_perm.
  - intros s. apply arrays_are_impl. intros js (ys & Hys & ->). by apply fmap_Permutation.
Qed.

Lemma generate_arrays code language h tr h' :
  heap_wf h ->
  generateExecutionTrace code language h = Returned (tr, h') ->
  exists arrMatch arrValue,
    arrInitRegex_match code = Some arrMatch
    /\ evaluate_literal (clock h) (group2 arrMatch) = Some arrValue
    /\ Forall (fun s => exists snapshot,
                 JSON_stringify h' (ExecutionStep.variables s) = Some snapshot
                 /\ arrays_are (fun ys => ys ≡ₚ to_json <$> arrValue)
                      (group1 arrMatch) snapshot) tr.
Proof.
  intros Hwf Hgen.
  destruct (generate_observed _ _ _ _ _ Hwf Hgen) as (am & xs & Hm & Hp & Hobs).
  exists am, xs. split; [done|]. split; [done|].
  apply (observed_Forall
           (fun _ snapshot _ _ =>
              arrays_are (fun ys => ys ≡ₚ to_json <$> xs) (group1 am) snapshot)
           _ _ _ Hobs).
  apply simulate_permutations.
Qed.

(** X1: every step of a returned trace is at a line of the source, between 1
    and the number of lines of the code. *)
Theorem line_numbers_within_source code language h tr h' :
  heap_wf h ->
  generateExecutionTrace code language h = Returned (tr, h') ->
  Forall (fun s => 1 <= ExecutionStep.lineNumber s <= length (Str.split LF code)) tr.
Proof.
  intros Hwf Hgen.
  destruct (generate_observed _ _ _ _ _ Hwf Hgen) as (am & xs & _ & _ & Hobs).
  apply observe_Some in Hobs.
  pose proof (simulate_lines (Str.split LF code) am xs (split_nonempty LF code)) as Hlines.
  rewrite Forall_forall in Hlines. apply Forall_forall. intros s Hs.
  apply list_elem_of_lookup in Hs as [k Hk].
  destruct (Forall2_lookup_l _ _ _ _ _ Hobs Hk) as (p & Hp & Hsp).
  apply observe_step_inv in Hsp as (-> & _).
  apply Hlines. by apply list_elem_of_lookup_2 in Hp.
Qed.

Lemma line_numbers_within_source_witness :
  heap_wf empty_heap
  /\ generateExecutionTrace smallCode javascript empty_heap
     = Returned (trace_of smallCode, heap_of smallCode)
  /\
  Forall (fun s => 1 <= ExecutionStep.lineNumber s <= length (Str.split LF smallCode))
         (trace_of smallCode).
Proof.
  split; [exact empty_heap_wf|]. split; [exact smallCode_returns|].
  apply (line_numbers_within_source smallCode javascript empty_heap _ (heap_of smallCode));
    [exact empty_heap_wf | exact smallCode_returns].
Defined.

(** X2: in a returned trace only the last step carries output, and it
    carries exactly one line; every step before it has none. *)
Theorem output_only_on_last_step code language h tr h' :
  heap_wf h ->
  generateExecutionTrace code language h = Returned (tr, h') ->
  exists front last text,
    tr = (front ++ [last])%list
    /\ Forall (fun s => ExecutionStep.output s = None) front
    /\ ExecutionStep.output last = Some [text].
Proof.
  intros Hwf Hgen.
  destruct (generate_observed _ _ _ _ _ Hwf Hgen) as (am & xs & Hm & Hp & Hobs).
  rewrite simulate_steps in Hobs.
  change [Replay.complete_step (Str.split LF code) am xs;
          Replay.printing_step (Str.split LF code) am xs]
    with ([Replay.complete_step (Str.split LF code) am xs]
          ++ [Replay.printing_step (Str.split LF code) am xs])%list in Hobs.
  rewrite app_assoc in Hobs.
  apply observed_snoc in Hobs as (front & last & -> & Hfront & Hlast).
  exists front, last,
    (Describe.printed (Str.join ", " (joined <$> bubble_sort greater xs))).
  split; [done|]. split.
  - assert (Forall (fun s => Replay.output s = None)
              (Replay.steps (Replay.loops (Str.split LF code) am xs).2
               ++ [Replay.complete_step (Str.split LF code) am xs])) as Hnone.
    { apply Forall_app. split; [apply loops_outputs|]. by repeat constructor. }
    pose proof (observed_Forall (fun _ _ _ o => o = None) _ _ _ Hfront Hnone) as H.
    eapply Forall_impl; [exact H|]. by intros s (_ & _ & Hs).
  - by apply observe_step_inv in Hlast as (_ & _ & _ & ->).
Qed.

Lemma output_only_on_last_step_witness :
  heap_wf empty_heap
  /\ generateExecutionTrace smallCode javascript empty_heap
     = Returned (trace_of smallCode, heap_of smallCode)
  /\
  exists front last text,
    trace_of smallCode = (front ++ [last])%list
    /\ Forall (fun s => ExecutionStep.output s = None) front
    /\ ExecutionStep.output last = Some [text].
Proof.
  split; [exact empty_heap_wf|]. split; [exact smallCode_returns|].
  apply (output_only_on_last_step smallCode javascript empty_heap _ (heap_of smallCode));
    [exact empty_heap_wf | exact smallCode_returns].
Defined.

(** X3: a name bound in the snapshot of one step is bound in the snapshot
    of every later step: the scope only grows. *)
Theorem snapshot_names_grow code language h tr h' i j si sj :
  heap_wf h ->
  generateExecutionTrace code language h = Returned (tr, h') ->
  i <= j -> tr !! i = Some si -> tr !! j = Some sj ->
  exists vi vj,
    JSON_stringify h' (ExecutionStep.variables si) = Some vi
    /\ JSON_stringify h' (ExecutionStep.variables sj) = Some vj
    /\ dom vi ⊆ dom vj.
Proof.
  intros Hwf Hgen Hij Hi Hj.
  destruct (generate_observed _ _ _ _ _ Hwf Hgen) as (am & xs & Hm & Hp & Hobs).
  apply observe_Some in Hobs.
  destruct (Forall2_lookup_l _ _ _ _ _ Hobs Hi) as (pi & Hpi & Hoi).
  destruct (Forall2_lookup_l _ _ _ _ _ Hobs Hj) as (pj & Hpj & Hoj).
  apply observe_step_inv in Hoi as (_ & Hvi & _).
  apply observe_step_inv in Hoj as (_ & Hvj & _).
  exists (Replay.variables pi), (Replay.variables pj).
  split; [done|]. split; [done|].
  by apply (simulate_growing (Str.split LF code) am xs i j).
Qed.

Lemma snapshot_names_grow_witness :
  heap_wf empty_heap
  /\ generateExecutionTrace smallCode javascript empty_heap
     = Returned (trace_of smallCode, heap_of smallCode)
  /\
  exists si sj vi vj,
    trace_of smallCode !! 0 = Some si
    /\ trace_of smallCode !! 5 = Some sj
    /\ JSON_stringify (heap_of smallCode) (ExecutionStep.variables si) = Some vi
    /\ JSON_stringify (heap_of smallCode) (ExecutionStep.variables sj) = Some vj
    /\ dom vi ⊆ dom vj.
Proof.
  split; [exact empty_heap_wf|]. split; [exact smallCode_returns|].
  assert (exists si, trace_of smallCode !! 0 = Some si) as [si Hi]
    by (vm_compute; eexists; reflexivity).
  assert (exists sj, trace_of smallCode !! 5 = Some sj) as [sj Hj]
    by (vm_compute; eexists; reflexivity).
  destruct (snapshot_names_grow smallCode javascript empty_heap _ (heap_of smallCode)
              0 5 si sj empty_heap_wf smallCode_returns ltac:(lia) Hi Hj)
    as (vi & vj & Hvi & Hvj & Hsub).
  exists si, sj, vi, vj.
  split; [exact Hi|]. split; [exact Hj|]. split; [exact Hvi|]. split; [exact Hvj|exact Hsub].
Defined.

(** X4: every array shown in any snapshot of a returned trace is bound to
    the array's own name or to [sortedArray], and is a permutation of the
    array found in the source, as JSON writes it (so it has the same
    length [n]). *)
Theorem snapshot_arrays_are_permutations code language h tr h' :
  heap_wf h ->
  generateExecutionTrace code language h = Returned (tr, h') ->
  exists arrMatch arrValue,
    arrInitRegex_match code = Some arrMatch
    /\ evaluate_literal (clock h) (group2 arrMatch) = Some arrValue
    /\ Forall (fun s => exists snapshot,
                 JSON_stringify h' (ExecutionStep.variables s) = Some snapshot
                 /\ arrays_are (fun ys => ys ≡ₚ to_json <$> arrValue)
                      (group1 arrMatch) snapshot) tr.
Proof.
  intros Hwf Hgen.
  destruct (generate_observed _ _ _ _ _ Hwf Hgen) as (am & xs & Hm & Hp & Hobs).
  exists am, xs. split; [done|]. split; [done|].
  pose proof (simulate_permutations (Str.split LF code) am xs) as Hall.
  apply observe_Some in Hobs. clear Hm Hp Hgen.
  revert Hall Hobs. generalize (Replay.simulate (Str.split LF code) am xs).
  intros ps Hall Hobs. revert Hall.
  induction Hobs as [|s p tr' ps Hs _ IH]; intros Hall; [constructor|].
  apply Forall_cons in Hall as [Hp1 Hall]. constructor; [|by apply IH].
  apply observe_step_inv in Hs as (_ & Hv & _). by exists (Replay.variables p).
Qed.

Lemma snapshot_arrays_are_permutations_witness :
  heap_wf empty_heap
  /\ generateExecutionTrace smallCode javascript empty_heap
     = Returned (trace_of smallCode, heap_of smallCode)
  /\
  exists arrMatch arrValue,
    arrInitRegex_match smallCode = Some arrMatch
    /\ evaluate_literal (clock empty_heap) (group2 arrMatch) = Some arrValue
    /\ Forall (fun s => exists snapshot,
                 JSON_stringify (heap_of smallCode) (ExecutionStep.variables s)
                 = Some snapshot
                 /\ arrays_are (fun ys => ys ≡ₚ to_json <$> arrValue)
                      (group1 arrMatch) snapshot)
              (trace_of smallCode).
Proof.
  split; [exact empty_heap_wf|]. split; [exact smallCode_returns|].
  apply (snapshot_arrays_are_permutations smallCode javascript empty_heap);
    [exact empty_heap_wf | exact smallCode_returns].
Defined.

(** X5: for an array that is sorted already, in that no element is greater
    than the next, the trace has no swap step, its length is
    [4 + n + n (n - 1)], and every array of every snapshot is the array as
    written. *)
Theorem sorted_input_never_swaps code language h tr h' arrMatch arrValue :
  heap_wf h ->
  generateExecutionTrace code language h = Returned (tr, h') ->
  arrInitRegex_match code = Some arrMatch ->
  evaluate_literal (clock h) (group2 arrMatch) = Some arrValue ->
  Sorted (fun x y => greater x y = false) arrValue ->
  let n := length arrValue in
  let ds := ExecutionStep.description <$> tr in
  length tr = 4 + n + n * (n - 1)
  /\ kind_count "Condition true" ds = 0
  /\ kind_count "Array is now" ds = 0
  /\ Forall (fun s => exists snapshot,
               JSON_stringify h' (ExecutionStep.variables s) = Some snapshot
               /\ arrays_are (fun ys => ys = to_json <$> arrValue)
                    (group1 arrMatch) snapshot) tr.
Proof.
  intros Hwf Hgen Hm Hp Hsorted.
  destruct (generate_observed _ _ _ _ _ Hwf Hgen) as (am & xs & Hm' & Hp' & Hobs).
  rewrite Hm in Hm'. injection Hm' as <-. rewrite Hp in Hp'. injection Hp' as <-.
  cbv zeta.
  rewrite (observed_descriptions _ _ _ Hobs), (observed_length _ _ _ Hobs).
  pose proof (simulate_kinds (Str.split LF code) arrMatch arrValue) as Hk. cbv zeta in Hk.
  destruct Hk as (_ & _ & _ & _ & Ht & Hn & _).
  assert (forall j, j + 1 < length arrValue ->
            greater (arrValue !!! j) (arrValue !!! (j + 1)) = false) as Hidle.
  { intros j Hj. by apply (Sorted_adjacent (fun x y => greater x y = false)). }
  rewrite simulate_length, Ht, Hn, (swaps_performed_idle greater arrValue Hidle).
  pose proof (inner_entries_double (length arrValue)).
  split; [lia|]. split; [done|]. split; [done|].
  apply (observed_Forall
           (fun _ snapshot _ _ =>
              arrays_are (fun ys => ys = to_json <$> arrValue) (group1 arrMatch) snapshot)
           _ _ _ Hobs).
  eapply Forall_impl.
  - apply (simulate_arrays (fun ys => ys = arrValue)).
    + by intros ys ->.
    + intros j ys -> Hj Hgt. rewrite (Hidle j Hj) in Hgt. discriminate Hgt.
    + done.
  - intros s. apply arrays_are_impl. by intros js (ys & -> & ->).
Qed.

Lemma sorted_input_never_swaps_witness :
  heap_wf empty_heap
  /\ generateExecutionTrace sortedCode javascript empty_heap
     = Returned (trace_of sortedCode, heap_of sortedCode)
  /\
  let tr := trace_of sortedCode in
  length tr = 4 + 3 + 3 * (3 - 1)
  /\ kind_count "Condition true" (ExecutionStep.description <$> tr) = 0
  /\ kind_count "Array is now" (ExecutionStep.description <$> tr) = 0
  /\ Forall (fun s => exists snapshot,
               JSON_stringify (heap_of sortedCode) (ExecutionStep.variables s)
               = Some snapshot
               /\ arrays_are (fun ys => ys = to_json <$> [Int 1; Int 2; Int 3])
                    "myArray" snapshot) tr.
Proof.
  split; [exact empty_heap_wf|]. split; [exact sortedCode_returns|].
  apply (sorted_input_never_swaps sortedCode javascript empty_heap _ (heap_of sortedCode)
           {| group0 := "let myArray = [1, 2, 3]"; group1 := "myArray";
              group2 := "[1, 2, 3]" |} [Int 1; Int 2; Int 3]).
  - exact empty_heap_wf.
  - exact sortedCode_returns.
  - vm_compute. reflexivity.
  - vm_compute. reflexivity.
  - repeat constructor.
Defined.

(** X6: for an array of integers, the swaps of a trace are the inversions
    of the array in the source: there are as many "Condition true" steps,
    and as many "Array is now" steps, as pairs of positions out of order,
    and the trace has [4 + n + n (n - 1) + 2 * inversions] steps. *)
Theorem swap_steps_count_inversions code language h tr h' arrMatch zs :
  heap_wf h ->
  generateExecutionTrace code language h = Returned (tr, h') ->
  arrInitRegex_match code = Some arrMatch ->
  evaluate_literal (clock h) (group2 arrMatch) = Some (Int <$> zs) ->
  let n := length zs in
  let ds := ExecutionStep.description <$> tr in
  kind_count "Condition true" ds = inversions zs
  /\ kind_count "Array is now" ds = inversions zs
  /\ length tr = 4 + n + n * (n - 1) + 2 * inversions zs.
Proof.
  intros Hwf Hgen Hm Hp.
  destruct (generate_observed _ _ _ _ _ Hwf Hgen) as (am & xs & Hm' & Hp' & Hobs).
  rewrite Hm in Hm'. injection Hm' as <-. rewrite Hp in Hp'. injection Hp' as <-.
  cbv zeta.
  rewrite (observed_descriptions _ _ _ Hobs), (observed_length _ _ _ Hobs).
  pose proof (simulate_kinds (Str.split LF code) arrMatch (Int <$> zs)) as Hk.
  cbv zeta in Hk. destruct Hk as (_ & _ & _ & _ & Ht & Hn & _).
  rewrite simulate_length, Ht, Hn, swaps_performed_Int_inversions, length_fmap.
  pose proof (inner_entries_double (length zs)).
  split; [done|]. split; [done|]. lia.
Qed.

Lemma swap_steps_count_inversions_witness :
  heap_wf empty_heap
  /\ generateExecutionTrace smallCode javascript empty_heap
     = Returned (trace_of smallCode, heap_of smallCode)
  /\ arrInitRegex_match smallCode
     = Some {| group0 := "let myArray = [3, 1, 2]"; group1 := "myArray";
               group2 := "[3, 1, 2]" |}
  /\ evaluate_literal (clock empty_heap) "[3, 1, 2]" = Some (Int <$> [3; 1; 2]%Z)
  /\ let ds := ExecutionStep.description <$> trace_of smallCode in
     kind_count "Condition true" ds = inversions [3; 1; 2]%Z
     /\ kind_count "Array is now" ds = inversions [3; 1; 2]%Z
     /\ length (trace_of smallCode) = 4 + 3 + 3 * (3 - 1) + 2 * inversions [3; 1; 2]%Z.
Proof.
  split; [exact empty_heap_wf|]. split; [exact smallCode_returns|].
  split; [vm_compute; reflexivity|]. split; [vm_compute; reflexivity|].
  apply (swap_steps_count_inversions smallCode javascript empty_heap _ (heap_of smallCode)
           {| group0 := "let myArray = [3, 1, 2]"; group1 := "myArray";
              group2 := "[3, 1, 2]" |} [3; 1; 2]%Z);
    [exact empty_heap_wf | exact smallCode_returns | vm_compute; reflexivity
    | vm_compute; reflexivity].
Defined.

(** X7: a returned trace for an array of [n] elements has at least
    [4 + n + n (n - 1)] and at most [4 + n + 2 n (n - 1)] steps; it is never
    empty. *)
Theorem trace_length_bounds code language h tr h' :
  heap_wf h ->
  generateExecutionTrace code language h = Returned (tr, h') ->
  exists arrMatch arrValue,
    arrInitRegex_match code = Some arrMatch
    /\ evaluate_literal (clock h) (group2 arrMatch) = Some arrValue
    /\ let n := length arrValue in
       4 + n + n * (n - 1) <= length tr <= 4 + n + 2 * (n * (n - 1)).
Proof.
  intros Hwf Hgen.
  destruct (generate_observed _ _ _ _ _ Hwf Hgen) as (am & xs & Hm & Hp & Hobs).
  exists am, xs. split; [done|]. split; [done|]. cbv zeta.
  rewrite (observed_length _ _ _ Hobs), simulate_length.
  pose proof (inner_entries_double (length xs)).
  pose proof (swaps_performed_bound greater xs). lia.
Qed.

Lemma trace_length_bounds_witness :
  heap_wf empty_heap
  /\ generateExecutionTrace smallCode javascript empty_heap
     = Returned (trace_of smallCode, heap_of smallCode)
  /\
  exists arrMatch arrValue,
    arrInitRegex_match smallCode = Some arrMatch
    /\ evaluate_literal (clock empty_heap) (group2 arrMatch) = Some arrValue
    /\ let n := length arrValue in
       4 + n + n * (n - 1) <= length (trace_of smallCode) <= 4 + n + 2 * (n * (n - 1)).
Proof.
  split; [exact empty_heap_wf|]. split; [exact smallCode_returns|].
  apply (trace_length_bounds smallCode javascript empty_heap _ (heap_of smallCode));
    [exact empty_heap_wf | exact smallCode_returns].
Defined.

(** ** The array initialization *)

Section Regex.

Lemma span_app p a b :
  Str.all p a = true -> (forall c r, b = String c r -> p c = false) ->
  Str.span p (a +:+ b) = (a, b).
Proof.
  intros Ha Hb. induction a as [|c a IH].
  - change ("" +:+ b) with b. destruct b as [|c r]; [done|].
    cbn [Str.span]. by rewrite (Hb c r).
  - rewrite all_cons in Ha. apply andb_true_iff in Ha as [Hc Ha].
    rewrite append_cons. cbn [Str.span]. by rewrite Hc, (IH Ha).
Qed.

Lemma up_to_last_bracket_spec s t :
  up_to_last_bracket s = Some t -> exists body rest, t = body +:+ "]" /\ s = t +:+ rest.
Proof.
  revert t. induction s as [|c s IH]; intros t; cbn [up_to_last_bracket]; [done|].
  destruct (up_to_last_bracket s) as [t'|].
  - intros [= <-]. destruct (IH _ eq_refl) as (body & rest & -> & Hs).
    exists (String c body), rest. split; [done|]. rewrite !append_cons. by f_equal.
  - destruct (Ascii.eqb_spec c "]") as [->|]; [|done]. intros [= <-]. by exists "", s.
Qed.

Lemma up_to_last_bracket_app a b : is_Some (up_to_last_bracket (a +:+ "]" +:+ b)).
Proof.
  induction a as [|c a IH].
  - change ("" +:+ "]" +:+ b) with (String "]" b). cbn [up_to_last_bracket].
    destruct (up_to_last_bracket b); [by eexists|]. by eexists.
  - rewrite append_cons. cbn [up_to_last_bracket]. destruct IH as [t ->]. by eexists.
Qed.

Lemma span_dot_bracket body post :
  Str.all is_dot body = true ->
  exists more, (Str.span is_dot (body +:+ "]" +:+ post)).1 = body +:+ "]" +:+ more.
Proof.
  intros Hbody. induction body as [|c body IH].
  - change ("" +:+ "]" +:+ post) with (String "]" post). cbn [Str.span].
    change (is_dot "]") with true. cbv iota.
    destruct (Str.span is_dot post) as [a b]. by exists a.
  - rewrite all_cons in Hbody. apply andb_true_iff in Hbody as [Hc Hbody].
    rewrite append_cons. cbn [Str.span]. rewrite Hc.
    destruct (IH Hbody) as [more Hmore].
    destruct (Str.span is_dot (body +:+ "]" +:+ post)) as [a b].
    cbn [fst] in *. subst a. by exists more.
Qed.

Lemma match_keyword_spec s kw r :
  match_keyword s = Some (kw, r) ->
  (kw = "let" \/ kw = "var" \/ kw = "const") /\ s = kw +:+ r.
Proof.
  unfold match_keyword.
  destruct (Str.starts_with "let" s) eqn:E1.
  { intros [= <- <-]. apply starts_with_inv in E1 as [t ->]. auto. }
  destruct (Str.starts_with "var" s) eqn:E2.
  { intros [= <- <-]. apply starts_with_inv in E2 as [t ->]. auto. }
  destruct (Str.starts_with "const" s) eqn:E3; [|done].
  intros [= <- <-]. apply starts_with_inv in E3 as [t ->]. auto.
Qed.

Lemma match_keyword_app kw r :
  kw = "let" \/ kw = "var" \/ kw = "const" -> match_keyword (kw +:+ r) = Some (kw, r).
Proof. by intros [->|[->| ->]]. Qed.

Lemma ident_not_space c : is_ident c = true -> is_space c = false.
Proof. destruct c as [[|] [|] [|] [|] [|] [|] [|] [|]]; try done. Qed.

Lemma arrInitRegex_match_unfold s :
  arrInitRegex_match s =
  match arrInitRegex_at s with
  | Some m => Some m
  | None => match s with
            | EmptyString => None
            | String _ rest => arrInitRegex_match rest
            end
  end.
Proof. by destruct s. Qed.

(** A match is a match at some position of the text. *)
Lemma arrInitRegex_match_at codeText m :
  arrInitRegex_match codeText = Some m ->
  exists pre rest, codeText = pre +:+ rest /\ arrInitRegex_at rest = Some m.
Proof.
  induction codeText as [|c s IH]; rewrite arrInitRegex_match_unfold.
  - destruct (arrInitRegex_at "") as [m'|] eqn:E; [|done].
    intros [= <-]. by exists "", "".
  - destruct (arrInitRegex_at (String c s)) as [m'|] eqn:E.
    + intros [= <-]. by exists "", (String c s).
    + intros H. destruct (IH H) as (pre & rest & -> & Hat).
      by exists (String c pre), rest.
Qed.

(** Where the expression matches at some position, the text has a match. *)
Lemma arrInitRegex_match_app pre rest :
  is_Some (arrInitRegex_at rest) -> is_Some (arrInitRegex_match (pre +:+ rest)).
Proof.
  intros [m Hm]. induction pre as [|c pre IH].
  - change ("" +:+ rest) with rest. rewrite arrInitRegex_match_unfold, Hm. by eexists.
  - rewrite append_cons, arrInitRegex_match_unfold.
    destruct (arrInitRegex_at (String c (pre +:+ rest))); [by eexists|exact IH].
Qed.

Lemma arrInitRegex_at_spec s m :
  arrInitRegex_at s = Some m ->
  exists kw ws1 ws2 ws3 body rest,
    (kw = "let" \/ kw = "var" \/ kw = "const")
    /\ ws1 <> "" /\ Str.all is_space ws1 = true
    /\ Str.all is_space ws2 = true /\ Str.all is_space ws3 = true
    /\ group1 m <> "" /\ Str.all is_ident (group1 m) = true
    /\ group2 m = "[" +:+ body +:+ "]" /\ Str.all is_dot body = true
    /\ group0 m = kw +:+ ws1 +:+ group1 m +:+ ws2 +:+ "=" +:+ ws3 +:+ group2 m
    /\ s = group0 m +:+ rest.
Proof.
  unfold arrInitRegex_at.
  destruct (match_keyword s) as [[kw r0]|] eqn:Hkw; [|done].
  apply match_keyword_spec in Hkw as [Hkw ->].
  destruct (Str.span is_space r0) as [ws1 r1] eqn:H1. apply span_spec in H1 as [-> H1].
  destruct (Str.span is_ident r1) as [name r2] eqn:H2. apply span_spec in H2 as [-> H2].
  destruct (Str.span is_space r2) as [ws2 r3] eqn:H3. apply span_spec in H3 as [-> H3].
  destruct ws1 as [|w ws1]; [done|]. destruct name as [|c0 name]; [done|].
  destruct r3 as [|c r4]; [done|].
  destruct (Ascii.eqb_spec c "=") as [->|Hne];
    [|by destruct c as [[|] [|] [|] [|] [|] [|] [|] [|]]].
  destruct (Str.span is_space r4) as [ws3 r5] eqn:H4. apply span_spec in H4 as [-> H4].
  destruct r5 as [|c' r6]; [done|].
  destruct (Ascii.eqb_spec c' "[") as [->|Hne];
    [|by destruct c' as [[|] [|] [|] [|] [|] [|] [|] [|]]].
  destruct (Str.span is_dot r6) as [line tail] eqn:H5. apply span_spec in H5 as [-> H5].
  cbn [fst].
  destruct (up_to_last_bracket line) as [lit|] eqn:H6; [|done].
  apply up_to_last_bracket_spec in H6 as (body & rest & -> & ->).
  intros [= <-]. cbn [group0 group1 group2].
  exists kw, (String w ws1), ws2, ws3, body, (rest +:+ tail).
  rewrite !all_app in H5. apply andb_true_iff in H5 as [H5 _].
  apply andb_true_iff in H5 as [H5 _].
  repeat (split; [done|]).
  by repeat first [rewrite append_assoc | rewrite append_cons | rewrite append_nil_l].
Qed.

End Regex.

(** X8: what [arrInitRegex] finds in a text is a piece of that text of the
    form keyword, blanks, name, optional blanks, [=], optional blanks,
    bracketed literal: the name is a non-empty run of letters, digits and
    underscores, and the literal starts with [[], ends with []] and stays on
    one line. *)
Theorem array_initialization_shape codeText m :
  arrInitRegex_match codeText = Some m ->
  exists kw ws1 ws2 ws3 body,
    (kw = "let" \/ kw = "var" \/ kw = "const")
    /\ ws1 <> "" /\ Str.all is_space ws1 = true
    /\ Str.all is_space ws2 = true /\ Str.all is_space ws3 = true
    /\ group1 m <> "" /\ Str.all is_ident (group1 m) = true
    /\ group2 m = "[" +:+ body +:+ "]" /\ Str.all is_dot body = true
    /\ group0 m = kw +:+ ws1 +:+ group1 m +:+ ws2 +:+ "=" +:+ ws3 +:+ group2 m
    /\ Str.contains codeText (group0 m).
Proof.
  intros H. apply arrInitRegex_match_at in H as (pre & rest & -> & Hat).
  apply arrInitRegex_at_spec in Hat
    as (kw & ws1 & ws2 & ws3 & body & post & Hkw & ? & ? & ? & ? & ? & ? & ? & ? & ? & ->).
  exists kw, ws1, ws2, ws3, body. repeat (split; [done|]). by exists pre, post.
Qed.

Lemma array_initialization_shape_witness :
  arrInitRegex_match smallCode
  = Some {| group0 := "let myArray = [3, 1, 2]"; group1 := "myArray";
            group2 := "[3, 1, 2]" |}
  /\ exists kw ws1 ws2 ws3 body,
       (kw = "let" \/ kw = "var" \/ kw = "const")
       /\ ws1 <> "" /\ Str.all is_space ws1 = true
       /\ Str.all is_space ws2 = true /\ Str.all is_space ws3 = true
       /\ "myArray" <> "" /\ Str.all is_ident "myArray" = true
       /\ "[3, 1, 2]" = "[" +:+ body +:+ "]" /\ Str.all is_dot body = true
       /\ "let myArray = [3, 1, 2]"
          = kw +:+ ws1 +:+ "myArray" +:+ ws2 +:+ "=" +:+ ws3 +:+ "[3, 1, 2]"
       /\ Str.contains smallCode "let myArray = [3, 1, 2]".
Proof.
  split; [vm_compute; reflexivity|].
  apply (array_initialization_shape smallCode
           {| group0 := "let myArray = [3, 1, 2]"; group1 := "myArray";
              group2 := "[3, 1, 2]" |}).
  vm_compute. reflexivity.
Defined.

(** X9: a text that contains, anywhere, a keyword [let], [var] or [const],
    blanks, a name, [=] between optional blanks and a bracketed piece of one
    line has an array initialization: the expression matches. *)
Theorem array_initialization_found pre kw ws1 name ws2 ws3 body post :
  kw = "let" \/ kw = "var" \/ kw = "const" ->
  ws1 <> "" -> Str.all is_space ws1 = true ->
  name <> "" -> Str.all is_ident name = true ->
  Str.all is_space ws2 = true -> Str.all is_space ws3 = true ->
  Str.all is_dot body = true ->
  is_Some (arrInitRegex_match
             (pre +:+ kw +:+ ws1 +:+ name +:+ ws2 +:+ "=" +:+ ws3
              +:+ "[" +:+ body +:+ "]" +:+ post)).
Proof.
  intros Hkw Hne1 Hws1 Hne Hname Hws2 Hws3 Hbody.
  apply arrInitRegex_match_app. unfold arrInitRegex_at.
  rewrite match_keyword_app by done.
  destruct name as [|c0 name]; [done|]. destruct ws1 as [|w ws1]; [done|].
  pose proof Hname as Hc0. rewrite all_cons in Hc0. apply andb_true_iff in Hc0 as [Hc0 _].
  rewrite (span_app is_space (String w ws1)); [|done|].
  2: { intros c r. rewrite append_cons. intros [= <- _]. by apply ident_not_space. }
  rewrite (span_app is_ident (String c0 name)); [|done|].
  2: { intros c r E. destruct ws2 as [|c2 ws2].
       - change ("" +:+ "=" +:+ ?t) with (String "=" t) in E. by injection E as <- _.
       - rewrite append_cons in E. injection E as <- _.
         rewrite all_cons in Hws2. apply andb_true_iff in Hws2 as [Hc2 _].
         destruct (is_ident c2) eqn:Hi; [|done].
         apply ident_not_space in Hi. congruence. }
  rewrite (span_app is_space ws2); [|done|].
  2: { intros c r. change ("=" +:+ ?t) with (String "=" t). by intros [= <- _]. }
  change ("=" +:+ ?t) with (String "=" t). cbv iota.
  rewrite (span_app is_space ws3); [|done|].
  2: { intros c r. change ("[" +:+ ?t) with (String "[" t). by intros [= <- _]. }
  change ("[" +:+ ?t) with (String "[" t). cbv iota.
  destruct (span_dot_bracket body post Hbody) as [more ->].
  destruct (up_to_last_bracket_app body more) as [lit ->]. by eexists.
Qed.

Lemma array_initialization_found_witness :
  ("const" = "let" \/ "const" = "var" \/ "const" = "const")
  /\ " " <> "" /\ Str.all is_space " " = true
  /\ "a_1" <> "" /\ Str.all is_ident "a_1" = true
  /\ Str.all is_space "" = true /\ Str.all is_space "  " = true
  /\ Str.all is_dot "1, [2], 3" = true
  /\ is_Some (arrInitRegex_match
                ("// data" +:+ "const" +:+ " " +:+ "a_1" +:+ "" +:+ "=" +:+ "  "
                 +:+ "[" +:+ "1, [2], 3" +:+ "]" +:+ ";")).
Proof.
  split; [by right; right|]. split; [discriminate|]. split; [reflexivity|].
  split; [discriminate|]. split; [reflexivity|]. split; [reflexivity|].
  split; [reflexivity|]. split; [reflexivity|].
  apply (array_initialization_found "// data" "const" " " "a_1" "" "  " "1, [2], 3" ";");
    first [reflexivity | discriminate | by right; right].
Defined.

Lemma trim_bracket s : Str.starts_with "[" (trim (String "[" s)) = true.
Proof.
  unfold trim. change (Str.span is_space (String "[" s)) with ("", String "[" s).
  cbn [snd trim_end]. by destruct (trim_end s).
Qed.

Lemma group2_bracket code arrMatch :
  arrInitRegex_match code = Some arrMatch ->
  Str.starts_with "[" (trim (group2 arrMatch)) = true.
Proof.
  intros H. apply arrInitRegex_match_at in H as (pre & rest & -> & Hat).
  apply arrInitRegex_at_spec in Hat
    as (kw & ws1 & ws2 & ws3 & body & post & _ & _ & _ & _ & _ & _ & _ & -> & _).
  apply trim_bracket.
Qed.

(** X10: from any well-formed store, for a JavaScript source that contains
    the texts [bubbleSort] and [arr.length] and an array initialization,
    what generation does is decided by the text the pattern captures, from
    the first bracket after the [=] to the last bracket of the line.  When
    that text is itself a list of integer literals, [NaN], [null] and at
    most one [Date.now()], generation returns a trace, the replay of that
    array, in a store that is well-formed again.  When that text holds a
    semicolon that nothing hides, as it does when a second statement with a
    bracket follows on the line, generation is rejected with the message of
    the engine's [JSON.parse]. *)
Theorem generation_succeeds code h arrMatch :
  heap_wf h ->
  Str.contains code "bubbleSort" ->
  Str.contains code "arr.length" ->
  arrInitRegex_match code = Some arrMatch ->
  (forall arrValue,
     evaluate_literal (clock h) (group2 arrMatch) = Some arrValue ->
     exists tr h',
       generateExecutionTrace code javascript h = Returned (tr, h')
       /\ heap_wf h'
       /\ observe h' tr = Some (Replay.simulate (Str.split LF code) arrMatch arrValue))
  /\ (malformed (group2 arrMatch) = true ->
      generateExecutionTrace code javascript h
      = Thrown ("Simulation Failed: " +:+ json_error h (group2 arrMatch))).
Proof.
  intros Hwf H1 H2 Hm.
  pose proof (generate_outcome code javascript h Hwf) as H.
  apply includes_spec in H1, H2. rewrite H1, H2, Hm in H. cbn [negb orb] in H.
  split.
  - intros arrValue Hp. rewrite Hp in H.
    destruct (generateExecutionTrace code javascript h) as [[tr h']| |] eqn:E;
      cbn [observe_outcome] in H; [|done..].
    exists tr, h'. split; [done|]. split; [by apply (generate_wf _ _ _ _ _ Hwf E)|].
    by injection H.
  - intros Hbad.
    rewrite (malformed_outside _ _ Hbad), Hbad, (group2_bracket _ _ Hm) in H.
    cbn [andb] in H.
    destruct (generateExecutionTrace code javascript h) as [[tr h']|message|];
      cbn [observe_outcome] in H; [done| |done].
    by injection H as ->.
Qed.

Lemma generation_succeeds_witness :
  heap_wf empty_heap
  /\ Str.contains smallCode "bubbleSort"
  /\ Str.contains smallCode "arr.length"
  /\ arrInitRegex_match smallCode
     = Some {| group0 := "let myArray = [3, 1, 2]"; group1 := "myArray";
               group2 := "[3, 1, 2]" |}
  /\ evaluate_literal (clock empty_heap) "[3, 1, 2]" = Some [Int 3; Int 1; Int 2]
  /\ exists tr h',
       generateExecutionTrace smallCode javascript empty_heap = Returned (tr, h')
       /\ heap_wf h'
       /\ observe h' tr
          = Some (Replay.simulate (Str.split LF smallCode)
                    {| group0 := "let myArray = [3, 1, 2]"; group1 := "myArray";
                       group2 := "[3, 1, 2]" |} [Int 3; Int 1; Int 2]).
Proof.
  assert (Str.contains smallCode "bubbleSort") as H1
    by (apply includes_spec; vm_compute; reflexivity).
  assert (Str.contains smallCode "arr.length") as H2
    by (apply includes_spec; vm_compute; reflexivity).
  assert (arrInitRegex_match smallCode
          = Some {| group0 := "let myArray = [3, 1, 2]"; group1 := "myArray";
                    group2 := "[3, 1, 2]" |}) as Hm by (vm_compute; reflexivity).
  assert (evaluate_literal (clock empty_heap) "[3, 1, 2]" = Some [Int 3; Int 1; Int 2]) as Hp
    by (vm_compute; reflexivity).
  split; [exact empty_heap_wf|]. split; [exact H1|]. split; [exact H2|].
  split; [exact Hm|]. split; [exact Hp|].
  exact (proj1 (generation_succeeds smallCode empty_heap _ empty_heap_wf H1 H2 Hm) _ Hp).
Defined.

(** X11: a JavaScript source is rejected with the message of the coarse
    check exactly when it lacks the text [bubbleSort] or the text
    [arr.length], whatever else it contains and whatever the store. *)
Theorem coarse_check_rejects code h :
  generateExecutionTrace code javascript h = Thrown not_bubble_sort_message
  <-> ~ (Str.contains code "bubbleSort" /\ Str.contains code "arr.length").
Proof.
  rewrite <- !includes_spec. unfold generateExecutionTrace.
  destruct (Str.includes code "bubbleSort"), (Str.includes code "arr.length");
    cbn [negb orb]; try (split; [intros _ [? ?]; done | done]).
  split; [|intros H; by destruct H].
  destruct (BubbleSortSimulator.run _) as [[tr m]|message|]; [done| |done].
  intros H. exfalso. change ("Simulation Failed: " +:+ message)
    with (String "S" ("imulation Failed: " +:+ message)) in H.
  unfold not_bubble_sort_message in H. discriminate H.
Qed.

(** * The visualizer *)

Section AppFacts.

Import App.

Implicit Types s : App.cells.
Implicit Types tr : list ExecutionStep.t.

Lemma generate_length code language h tr h' :
  heap_wf h -> generateExecutionTrace code language h = Returned (tr, h') ->
  4 <= length tr.
Proof.
  intros Hwf Hgen.
  destruct (generate_observed _ _ _ _ _ Hwf Hgen) as (am & xs & _ & _ & Hobs).
  rewrite (observed_length _ _ _ Hobs), simulate_length. lia.
Qed.

Lemma generate_javascript code language h tr h' :
  generateExecutionTrace code language h = Returned (tr, h') -> language = javascript.
Proof. by destruct language. Qed.

Lemma at_index_Some tr (i : Z) :
  (0 <= i <= last_index tr)%Z -> exists step, at_index tr i = Some step
                                              /\ tr !! Z.to_nat i = Some step.
Proof.
  unfold at_index, last_index. intros Hi.
  destruct (Z.leb_spec 0 i); [|lia].
  destruct (lookup_lt_is_Some_2 tr (Z.to_nat i)) as [step Hs]; [lia|].
  by exists step.
Qed.

(** *** The invariant *)

Lemma invariant_same s s' :
  store s' = store s -> isLoading s' = isLoading s ->
  executionTrace s' = executionTrace s -> currentStep s' = currentStep s ->
  error s' = error s -> language s' = language s -> code s' = code s ->
  (isPlaying s' = true -> isPlaying s = true) ->
  invariant s -> invariant s'.
Proof.
  intros Est Elo Etr Ecu Eer Ela Eco Hpl [Hst Hlo Hno Hsh]. split.
  - by rewrite Est.
  - by rewrite Elo.
  - rewrite Etr, Ecu. exact Hno.
  - intros tr Htr. rewrite Etr in Htr. rewrite Eer, Ela, Ecu, Eco, Est.
    destruct (Hsh tr Htr) as (? & ? & ? & Hp & ?). repeat (split; [done|]).
    split; [|done]. intros Hp'. by apply Hp, Hpl.
Qed.

Lemma stopAtEnd_invariant s : invariant s -> invariant (stopAtEnd s).
Proof.
  intros Hinv. unfold stopAtEnd. destruct (executionTrace s) as [tr|]; [|done].
  destruct (last_index tr <=? currentStep s)%Z; [|done].
  by apply (invariant_same s).
Qed.

Lemma stopAtEnd_fields s :
  store (stopAtEnd s) = store s /\ isLoading (stopAtEnd s) = isLoading s
  /\ executionTrace (stopAtEnd s) = executionTrace s
  /\ currentStep (stopAtEnd s) = currentStep s /\ error (stopAtEnd s) = error s
  /\ language (stopAtEnd s) = language s /\ code (stopAtEnd s) = code s
  /\ breakpoints (stopAtEnd s) = breakpoints s.
Proof.
  unfold stopAtEnd. destruct (executionTrace s) as [tr|] eqn:E; [|done].
  by destruct (last_index tr <=? currentStep s)%Z.
Qed.

Lemma stopAtEnd_playing s tr :
  executionTrace s = Some tr ->
  isPlaying (stopAtEnd s) = true ->
  isPlaying s = true /\ (currentStep s < last_index tr)%Z.
Proof.
  unfold stopAtEnd. intros ->.
  destruct (Z.leb_spec (last_index tr) (currentStep s)); [done|]. by intros ->.
Qed.

Lemma initial_invariant : invariant initialState.
Proof. split; [exact empty_heap_wf|done..]. Qed.

Lemma handleVisualize_invariant s s' :
  heap_wf (store s) -> handleVisualize s = Returned s' -> invariant s'.
Proof.
  intros Hst. unfold handleVisualize.
  destruct (generateExecutionTrace (code s) (language s) (store s))
    as [[trace h]|message|] eqn:Hgen; [| |done]; intros [= <-].
  - pose proof (generate_javascript _ _ _ _ _ Hgen) as Hjs.
    pose proof (generate_length _ _ _ _ _ Hst Hgen) as Hlen.
    split; cbn.
    + by apply (generate_wf _ _ _ _ _ Hst Hgen).
    + done.
    + done.
    + intros tr [= <-]. split; [done|]. split; [done|].
      split; [unfold last_index; lia|]. split; [done|].
      exists (store s). split; [done|]. by rewrite Hjs in Hgen.
  - split; cbn; done.
Qed.

Lemma handleStep_fields d s tr :
  executionTrace s = Some tr ->
  store (handleStep d s) = store s /\ isLoading (handleStep d s) = isLoading s
  /\ executionTrace (handleStep d s) = Some tr
  /\ error (handleStep d s) = error s /\ language (handleStep d s) = language s
  /\ code (handleStep d s) = code s /\ breakpoints (handleStep d s) = breakpoints s
  /\ isPlaying (handleStep d s) = false
  /\ currentStep (handleStep d s)
     = match d with
       | forward => Z.min (currentStep s + 1) (last_index tr)
       | backward => Z.max (currentStep s - 1) 0
       end.
Proof. unfold handleStep. intros E. rewrite E. by destruct d. Qed.

Lemma rerender_invariant s s' : invariant s' -> invariant (rerender s s').
Proof.
  intros H. unfold rerender. destruct (decide _); [done|]. by apply stopAtEnd_invariant.
Qed.

Lemma handleStep_invariant d s : invariant s -> invariant (handleStep d s).
Proof.
  intros Hinv. destruct (executionTrace s) as [tr|] eqn:Htr.
  2: { unfold handleStep. by rewrite Htr. }
  destruct (handleStep_fields d s tr Htr)
    as (Est & Elo & Etr & Eer & Ela & Eco & _ & Epl & Ecu).
  destruct Hinv as [Hst Hlo Hno Hsh]. split.
  - by rewrite Est.
  - by rewrite Elo.
  - by rewrite Etr.
  - intros tr' Htr'. rewrite Etr in Htr'. injection Htr' as <-.
    destruct (Hsh tr Htr) as (? & ? & ? & _ & ?).
    rewrite Eer, Ela, Eco, Est, Ecu, Epl. repeat (split; [done|]).
    split; [destruct d; lia|]. split; [done|done].
Qed.

Lemma tick_returns s tr :
  executionTrace s = Some tr ->
  (0 <= currentStep s < last_index tr)%Z ->
  exists step,
    tr !! Z.to_nat (currentStep s + 1) = Some step
    /\ tick s
       = Returned (setCurrentStep (currentStep s + 1)%Z
                     (if decide (ExecutionStep.lineNumber step ∈ breakpoints s)
                      then setIsPlaying false s else s)).
Proof.
  intros Htr Hc. unfold tick. rewrite Htr. cbv zeta.
  destruct (Z.leb_spec (last_index tr) (currentStep s)); [lia|].
  destruct (at_index_Some tr (currentStep s + 1)) as (step & -> & Hstep); [lia|].
  by exists step.
Qed.

Lemma stopAtEnd_establishes s :
  heap_wf (store s) -> isLoading s = false ->
  (executionTrace s = None -> currentStep s = 0%Z) ->
  (forall tr, executionTrace s = Some tr ->
     error s = None /\ language s = javascript
     /\ (0 <= currentStep s <= last_index tr)%Z
     /\ exists h, heap_wf h
          /\ generateExecutionTrace (code s) javascript h = Returned (tr, store s)) ->
  invariant (stopAtEnd s).
Proof.
  intros Hst Hlo Hno Hsh.
  destruct (stopAtEnd_fields s) as (Est & Elo & Etr & Ecu & Eer & Ela & Eco & _).
  split.
  - by rewrite Est.
  - by rewrite Elo.
  - by rewrite Etr, Ecu.
  - intros tr Htr. rewrite Etr in Htr. rewrite Eer, Ela, Ecu, Eco, Est.
    destruct (Hsh tr Htr) as (? & ? & ? & ?). repeat (split; [done|]).
    split; [|done]. intros Hp. by apply (stopAtEnd_playing s tr).
Qed.

Lemma handle_invariant ev s s' :
  invariant s -> handle ev s = Returned s' -> invariant s'.
Proof.
  intros Hinv. unfold handle.
  destruct (enabled ev s) eqn:Hen; [|by intros [= <-]].
  destruct ev as [|lang|text|lineNumber|now|d| |v|]; cbn [enabled] in Hen.
  - intros [= <-]. by apply (invariant_same s).
  - intros [= <-]. destruct Hinv as [Hst Hlo Hno Hsh]. by split.
  - intros [= <-]. destruct (executionTrace s) eqn:Htr; [done|].
    destruct Hinv as [Hst Hlo Hno Hsh]. split; cbn; [done..|].
    intros tr Htr'. congruence.
  - intros [= <-]. by apply (invariant_same s).
  - destruct (handleVisualize _) as [s1| |] eqn:Hv; [|done..].
    intros [= <-]. apply stopAtEnd_invariant.
    apply (handleVisualize_invariant (setStore (set_clock now (store s)) s) s1); [|done].
    apply set_clock_wf, Hinv.
  - intros [= <-]. by apply rerender_invariant, handleStep_invariant.
  - intros [= <-].
    destruct (executionTrace s) as [tr|] eqn:Htr; [|done].
    destruct Hinv as [Hst Hlo Hno Hsh]. split; cbn; [done..| |].
    + by rewrite Htr.
    + intros tr' Htr'. rewrite Htr in Htr'. injection Htr' as <-.
      destruct (Hsh tr Htr) as (? & ? & ? & _ & ?). repeat (split; [done|]).
      split; [|done]. intros _.
      apply andb_true_iff in Hen as [_ Hen]. apply negb_true_iff, Z.eqb_neq in Hen. lia.
  - intros [= <-]. by apply (invariant_same s).
  - destruct (executionTrace s) as [tr|] eqn:Htr; [|done].
    pose proof Hinv as [Hst Hlo Hno Hsh].
    destruct (Hsh tr Htr) as (Herr & Hla & Hc & Hp & h & Hh & Hgen).
    specialize (Hp Hen).
    destruct (tick_returns s tr Htr) as (step & Hstep & ->); [lia|].
    intros [= <-]. unfold rerender.
    destruct (decide _) as [E|_]; [cbn in E; lia|].
    apply stopAtEnd_establishes.
    + by destruct (decide _).
    + by destruct (decide _).
    + cbn. destruct (decide _); cbn; by rewrite Htr.
    + intros tr' Htr'.
      assert (tr' = tr) as -> by (destruct (decide _); cbn in Htr'; congruence).
      cbn [currentStep setCurrentStep].
      split; [by destruct (decide _)|]. split; [by destruct (decide _)|].
      split; [lia|]. exists h. split; [done|]. by destruct (decide _).
Qed.

Lemma handle_no_throw ev s message : invariant s -> handle ev s <> Thrown message.
Proof.
  intros Hinv. unfold handle. destruct (enabled ev s) eqn:Hen; [|done].
  destruct ev as [|lang|text|lineNumber|now|d| |v|]; try done; cbn [enabled] in Hen.
  - unfold handleVisualize.
    by destruct (generateExecutionTrace _ _ _) as [[? ?]| |].
  - destruct (executionTrace s) as [tr|] eqn:Htr; [|done].
    destruct Hinv as [Hst Hlo Hno Hsh].
    destruct (Hsh tr Htr) as (Herr & Hla & Hc & Hp & _).
    specialize (Hp Hen).
    by destruct (tick_returns s tr Htr) as (step & Hstep & ->); [lia|].
Qed.

Lemma run_invariant events s s' :
  invariant s -> session events s = Returned s' -> invariant s'.
Proof.
  revert s. induction events as [|ev events IH]; intros s Hinv; cbn [session].
  - by intros [= <-].
  - destruct (handle ev s) as [s1| |] eqn:Hev; [|done..].
    apply IH. by apply (handle_invariant ev s).
Qed.

End AppFacts.

(** ** Sessions *)

Lemma sampleSession_runs :
  App.session sampleSession App.initialState = Returned (App.after sampleSession).
Proof. vm_compute. reflexivity. Qed.

Lemma sampleSession_trace :
  App.executionTrace (App.after sampleSession) = Some (trace_of smallCode).
Proof. vm_compute. reflexivity. Qed.

(** X12: toggling a breakpoint flips the membership of that line and of no
    other line, and toggling it again restores the state. *)
Theorem toggleBreakpoint_flips lineNumber s :
  (forall l, l ∈ App.breakpoints (App.toggleBreakpoint lineNumber s)
             <-> (if decide (l = lineNumber) then l ∉ App.breakpoints s
                  else l ∈ App.breakpoints s))
  /\ App.toggleBreakpoint lineNumber (App.toggleBreakpoint lineNumber s) = s.
Proof.
  split.
  - intros l. unfold App.toggleBreakpoint. cbn.
    destruct (decide (lineNumber ∈ App.breakpoints s)) as [Hin|Hnot],
             (decide (l = lineNumber)) as [->|Hne].
    + rewrite elem_of_difference, elem_of_singleton. tauto.
    + rewrite elem_of_difference, elem_of_singleton. tauto.
    + rewrite elem_of_union, elem_of_singleton. tauto.
    + rewrite elem_of_union, elem_of_singleton. tauto.
  - destruct s as [t la co tr cu pl sp lo er bp st].
    unfold App.toggleBreakpoint, App.setBreakpoints. cbn.
    f_equal. destruct (decide (lineNumber ∈ bp)) as [Hin|Hnot].
    + rewrite decide_False by (rewrite elem_of_difference, elem_of_singleton; tauto).
      apply set_eq. intros x.
      rewrite elem_of_union, elem_of_difference, elem_of_singleton.
      destruct (decide (x = lineNumber)) as [->|]; tauto.
    + rewrite decide_True by (rewrite elem_of_union, elem_of_singleton; tauto).
      apply set_eq. intros x.
      rewrite elem_of_difference, elem_of_union, elem_of_singleton.
      destruct (decide (x = lineNumber)) as [->|]; tauto.
Qed.

(** X13: with a trace shown and the current step inside it, a step forward
    or backward stops playback, moves the current step by one and keeps it
    inside the trace; at the last step forward, and at the first step
    backward, it stays where it is.  A step back undoes a step forward. *)
Theorem handleStep_within_trace d s tr :
  App.executionTrace s = Some tr ->
  (0 <= App.currentStep s <= App.last_index tr)%Z ->
  let s' := App.handleStep d s in
  App.isPlaying s' = false
  /\ App.executionTrace s' = Some tr
  /\ (0 <= App.currentStep s' <= App.last_index tr)%Z
  /\ App.currentStep s'
     = match d with
       | App.forward =>
           if (App.currentStep s =? App.last_index tr)%Z then App.currentStep s
           else (App.currentStep s + 1)%Z
       | App.backward =>
           if (App.currentStep s =? 0)%Z then 0%Z else (App.currentStep s - 1)%Z
       end
  /\ ((App.currentStep s < App.last_index tr)%Z ->
      App.currentStep (App.handleStep App.backward (App.handleStep App.forward s))
      = App.currentStep s).
Proof.
  intros Htr Hc. cbv zeta.
  destruct (handleStep_fields d s tr Htr) as (_ & _ & Etr & _ & _ & _ & _ & Epl & Ecu).
  split; [done|]. split; [done|]. rewrite Ecu. split; [destruct d; lia|]. split.
  - destruct d.
    + destruct (Z.eqb_spec (App.currentStep s) (App.last_index tr)); lia.
    + destruct (Z.eqb_spec (App.currentStep s) 0); lia.
  - intros Hlt.
    destruct (handleStep_fields App.forward s tr Htr)
      as (_ & _ & Etr' & _ & _ & _ & _ & _ & Ecu').
    destruct (handleStep_fields App.backward _ tr Etr') as (_ & _ & _ & _ & _ & _ & _ & _ & ->).
    rewrite Ecu'. lia.
Qed.

Lemma handleStep_within_trace_witness :
  let s := App.after sampleSession in
  let tr := trace_of smallCode in
  App.executionTrace s = Some tr
  /\ (0 <= App.currentStep s <= App.last_index tr)%Z
  /\ App.isPlaying (App.handleStep App.forward s) = false
  /\ App.executionTrace (App.handleStep App.forward s) = Some tr
  /\ (0 <= App.currentStep (App.handleStep App.forward s) <= App.last_index tr)%Z
  /\ App.currentStep (App.handleStep App.forward s)
     = (if (App.currentStep s =? App.last_index tr)%Z then App.currentStep s
        else (App.currentStep s + 1)%Z)
  /\ ((App.currentStep s < App.last_index tr)%Z ->
      App.currentStep (App.handleStep App.backward (App.handleStep App.forward s))
      = App.currentStep s).
Proof.
  cbv zeta.
  assert (0 <= App.currentStep (App.after sampleSession)
          <= App.last_index (trace_of smallCode))%Z as Hc by (vm_compute; split; discriminate).
  split; [exact sampleSession_trace|]. split; [exact Hc|].
  exact (handleStep_within_trace App.forward (App.after sampleSession) (trace_of smallCode)
           sampleSession_trace Hc).
Defined.

(** X14: in every session, whenever a trace is shown the current step is a
    step of it, and the line it highlights is a line of the code on
    display. *)
Theorem current_step_is_shown events s tr :
  App.session events App.initialState = Returned s ->
  App.executionTrace s = Some tr ->
  exists step,
    App.currentExecutionStep s = Some step
    /\ step ∈ tr
    /\ 1 <= ExecutionStep.lineNumber step <= length (Str.split LF (App.code s)).
Proof.
  intros Hrun Htr.
  destruct (run_invariant _ _ _ initial_invariant Hrun) as [Hst Hlo Hno Hsh].
  destruct (Hsh tr Htr) as (_ & _ & Hc & _ & h & Hh & Hgen).
  destruct (at_index_Some tr (App.currentStep s) Hc) as (step & Hat & Hstep).
  exists step. unfold App.currentExecutionStep. rewrite Htr.
  split; [done|]. apply list_elem_of_lookup_2 in Hstep. split; [done|].
  pose proof (generate_lines _ _ _ _ _ Hh Hgen) as Hl.
  rewrite Forall_forall in Hl. by apply Hl.
Qed.

Lemma current_step_is_shown_witness :
  App.session sampleSession App.initialState = Returned (App.after sampleSession)
  /\ App.executionTrace (App.after sampleSession) = Some (trace_of smallCode)
  /\ exists step,
       App.currentExecutionStep (App.after sampleSession) = Some step
       /\ step ∈ trace_of smallCode
       /\ 1 <= ExecutionStep.lineNumber step
          <= length (Str.split LF (App.code (App.after sampleSession))).
Proof.
  split; [exact sampleSession_runs|]. split; [exact sampleSession_trace|].
  exact (current_step_is_shown sampleSession (App.after sampleSession) (trace_of smallCode)
           sampleSession_runs sampleSession_trace).
Defined.

(** X15: in every session, a trace that is shown is the trace of the code
    on display: it was generated from that very text, in JavaScript mode,
    and no error is shown with it. *)
Theorem shown_trace_is_of_shown_code events s tr :
  App.session events App.initialState = Returned s ->
  App.executionTrace s = Some tr ->
  App.language s = javascript
  /\ App.error s = None
  /\ App.isLoading s = false
  /\ exists h, heap_wf h
       /\ generateExecutionTrace (App.code s) javascript h = Returned (tr, App.store s).
Proof.
  intros Hrun Htr.
  destruct (run_invariant _ _ _ initial_invariant Hrun) as [Hst Hlo Hno Hsh].
  destruct (Hsh tr Htr) as (? & ? & _ & _ & ?). done.
Qed.

Lemma shown_trace_is_of_shown_code_witness :
  App.session sampleSession App.initialState = Returned (App.after sampleSession)
  /\ App.executionTrace (App.after sampleSession) = Some (trace_of smallCode)
  /\ App.language (App.after sampleSession) = javascript
  /\ App.error (App.after sampleSession) = None
  /\ App.isLoading (App.after sampleSession) = false
  /\ exists h, heap_wf h
       /\ generateExecutionTrace (App.code (App.after sampleSession)) javascript h
          = Returned (trace_of smallCode, App.store (App.after sampleSession)).
Proof.
  split; [exact sampleSession_runs|]. split; [exact sampleSession_trace|].
  exact (shown_trace_is_of_shown_code sampleSession (App.after sampleSession)
           (trace_of smallCode) sampleSession_runs sampleSession_trace).
Defined.

(** X16: no session ends in an exception: the playback callback never reads
    a step that is not there, and a failed visualization is caught and
    shown as the error. *)
Theorem no_handler_throws events message :
  App.session events App.initialState <> Thrown message.
Proof.
  cut (forall s, App.invariant s -> App.session events s <> Thrown message).
  { intros H. apply H, initial_invariant. }
  induction events as [|ev events IH]; intros s Hinv; cbn [App.session]; [done|].
  destruct (App.handle ev s) as [s1| |] eqn:Hev; [| |done].
  - apply IH. by apply (handle_invariant ev s).
  - by apply handle_no_throw in Hev.
Qed.

Lemma every_number_Some js zs : App.every_number js = Some zs -> js = Some <$> zs.
Proof.
  revert zs. induction js as [|[z|] js IH]; intros zs; cbn [App.every_number].
  - by intros [= <-].
  - destruct (App.every_number js) as [ys|]; [|done]. intros [= <-].
    cbn [fmap list_fmap]. f_equal. by apply IH.
  - done.
Qed.

(** An array that JSON writes without [null] holds integers only. *)
Lemma to_json_integers (xs : list element) (zs : list Z) :
  Some <$> zs ≡ₚ to_json <$> xs -> Int <$> zs ≡ₚ xs.
Proof.
  intros Hp.
  assert (of_json <$> (to_json <$> xs) = xs) as <-.
  { assert (Forall (fun j => is_Some j) (to_json <$> xs)) as Hall.
    { rewrite <- Hp. apply Forall_fmap, Forall_forall. intros z _. by exists z. }
    clear Hp. induction xs as [|x xs IH]; [done|].
    cbn [fmap list_fmap] in *. apply Forall_cons in Hall as [[z Hx] Hall].
    f_equal; [|by apply IH]. by destruct x. }
  rewrite <- Hp, <- !list_fmap_compose. done.
Qed.

(** X17: in every session the bar charts of the current step are drawn for
    the array's own name and for [sortedArray] only, and each shows a
    permutation of the array written in the code on display, as it was
    evaluated when the trace was generated. *)
Theorem charts_show_permutations events s name ys :
  App.session events App.initialState = Returned s ->
  App.arrayVariables s !! name = Some ys ->
  exists arrMatch arrValue now,
    arrInitRegex_match (App.code s) = Some arrMatch
    /\ evaluate_literal now (group2 arrMatch) = Some arrValue
    /\ (name = group1 arrMatch \/ name = "sortedArray")
    /\ Int <$> ys ≡ₚ arrValue.
Proof.
  intros Hrun Hys.
  destruct (run_invariant _ _ _ initial_invariant Hrun) as [Hst Hlo Hno Hsh].
  unfold App.arrayVariables in Hys.
  destruct (App.currentExecutionStep s) as [step|] eqn:Hstep; [|done].
  destruct (JSON_stringify (App.store s) (ExecutionStep.variables step))
    as [snapshot|] eqn:Hsnap; [|done].
  unfold App.currentExecutionStep in Hstep.
  destruct (App.executionTrace s) as [tr|] eqn:Htr; [|done].
  destruct (Hsh tr eq_refl) as (_ & _ & Hc & _ & h & Hh & Hgen).
  destruct (at_index_Some tr (App.currentStep s) Hc) as (step' & Hat & Hin).
  rewrite Hat in Hstep. injection Hstep as ->.
  apply list_elem_of_lookup_2 in Hin.
  destruct (generate_arrays _ _ _ _ _ Hh Hgen) as (am & xs & Hm & Hp & Hall).
  rewrite Forall_forall in Hall. destruct (Hall step Hin) as (snapshot' & Hsnap' & Harr).
  rewrite Hsnap in Hsnap'. injection Hsnap' as <-.
  exists am, xs, (clock h). split; [done|]. split; [done|].
  unfold App.array_entries in Hys. rewrite lookup_omap in Hys.
  destruct (snapshot !! name) as [[z|js]|] eqn:Hname; [done| |done].
  cbn in Hys. apply every_number_Some in Hys as ->.
  destruct (Harr name _ Hname) as [Hn Hperm]. split; [done|].
  by apply to_json_integers.
Qed.

Lemma charts_show_permutations_witness :
  App.session sampleSession App.initialState = Returned (App.after sampleSession)
  /\ App.arrayVariables (App.after sampleSession) !! "myArray" = Some [3; 1; 2]%Z
  /\ exists arrMatch arrValue now,
       arrInitRegex_match (App.code (App.after sampleSession)) = Some arrMatch
       /\ evaluate_literal now (group2 arrMatch) = Some arrValue
       /\ ("myArray" = group1 arrMatch \/ "myArray" = "sortedArray")
       /\ Int <$> [3; 1; 2]%Z ≡ₚ arrValue.
Proof.
  assert (App.arrayVariables (App.after sampleSession) !! "myArray" = Some [3; 1; 2]%Z)
    as Hys by (vm_compute; reflexivity).
  split; [exact sampleSession_runs|]. split; [exact Hys|].
  exact (charts_show_permutations sampleSession (App.after sampleSession) "myArray"
           [3; 1; 2]%Z sampleSession_runs Hys).
Defined.

(** ** Playback *)

Section Playback.

Import App.

Implicit Types s : App.cells.
Implicit Types tr : list ExecutionStep.t.

Lemma run_app events1 events2 s :
  session (events1 ++ events2) s
  = match session events1 s with
    | Returned s' => session events2 s'
    | Thrown message => Thrown message
    | Unmodelled => Unmodelled
    end.
Proof.
  revert s. induction events1 as [|ev events1 IH]; intros s; [done|].
  cbn [session app]. by destruct (handle ev s).
Qed.

(** One firing of the interval while playing. *)
Lemma handle_tick s tr c step :
  executionTrace s = Some tr -> isPlaying s = true ->
  currentStep s = Z.of_nat c -> tr !! S c = Some step ->
  exists s',
    handle Tick s = Returned s'
    /\ executionTrace s' = Some tr /\ breakpoints s' = breakpoints s
    /\ currentStep s' = Z.of_nat (S c)
    /\ isPlaying s'
       = (if decide (ExecutionStep.lineNumber step ∈ breakpoints s) then false
          else if decide (S (S c) = length tr) then false else true).
Proof.
  intros Htr Hp Hc Hs. pose proof (lookup_lt_Some _ _ _ Hs) as Hlt.
  unfold handle. cbn [enabled]. rewrite Htr, Hp.
  destruct (tick_returns s tr Htr) as (step' & Hs' & ->); [unfold last_index; lia|].
  rewrite Hc in Hs'. replace (Z.to_nat (Z.of_nat c + 1)) with (S c) in Hs' by lia.
  rewrite Hs in Hs'. injection Hs' as <-.
  eexists. split; [done|]. unfold rerender.
  destruct (decide _) as [E|_]; [cbn in E; lia|].
  destruct (stopAtEnd_fields
              (setCurrentStep (currentStep s + 1)
                 (if decide (ExecutionStep.lineNumber step ∈ breakpoints s)
                  then setIsPlaying false s else s)))
    as (_ & _ & -> & -> & _ & _ & _ & ->).
  split; [by destruct (decide _)|]. split; [by destruct (decide _)|].
  split; [cbn; lia|].
  unfold stopAtEnd.
  destruct (decide (ExecutionStep.lineNumber step ∈ breakpoints s)); cbn; rewrite Htr.
  - by destruct (_ <=? _)%Z.
  - unfold last_index.
    destruct (Z.leb_spec (Z.of_nat (length tr) - 1) (currentStep s + 1));
      destruct (decide (S (S c) = length tr)); cbn; (done || lia).
Qed.

Lemma handle_tick_paused s : isPlaying s = false -> handle Tick s = Returned s.
Proof.
  intros Hp. unfold handle. cbn [enabled]. rewrite Hp.
  by destruct (executionTrace s).
Qed.

Lemma run_ticks_paused n s : isPlaying s = false -> session (replicate n Tick) s = Returned s.
Proof.
  intros Hp. induction n as [|n IH]; [done|].
  cbn [replicate session]. by rewrite handle_tick_paused.
Qed.

Lemma playback_run d : forall s tr c,
  executionTrace s = Some tr -> isPlaying s = true -> currentStep s = Z.of_nat c ->
  c + S d < length tr ->
  (forall k step, c < k < c + S d -> tr !! k = Some step ->
                  ExecutionStep.lineNumber step ∉ breakpoints s) ->
  (S (c + S d) = length tr
   \/ exists step, tr !! (c + S d) = Some step
                   /\ ExecutionStep.lineNumber step ∈ breakpoints s) ->
  exists s',
    session (replicate (S d) Tick) s = Returned s'
    /\ currentStep s' = Z.of_nat (c + S d) /\ isPlaying s' = false
    /\ forall m, m <= d ->
         exists s'', session (replicate m Tick) s = Returned s''
                     /\ currentStep s'' = Z.of_nat (c + m) /\ isPlaying s'' = true.
Proof.
  induction d as [|d IH]; intros s tr c Htr Hp Hc Hlt Hfree Hstop.
  - destruct (lookup_lt_is_Some_2 tr (S c)) as [step Hs]; [lia|].
    destruct (handle_tick s tr c step Htr Hp Hc Hs) as (s' & Hh & _ & _ & Hc' & Hp').
    exists s'. cbn [replicate session]. rewrite Hh. split; [done|].
    split; [by replace (c + 1) with (S c) by lia|]. split.
    + rewrite Hp'. destruct (decide _); [done|]. destruct (decide _); [done|].
      destruct Hstop as [?|(step' & Hs' & Hin)]; [lia|].
      replace (c + 1) with (S c) in Hs' by lia. congruence.
    + intros m Hm. assert (m = 0) as -> by lia. exists s.
      split; [done|]. split; [by rewrite Nat.add_0_r|done].
  - destruct (lookup_lt_is_Some_2 tr (S c)) as [step Hs]; [lia|].
    destruct (handle_tick s tr c step Htr Hp Hc Hs) as (s1 & Hh & Htr1 & Hbp1 & Hc1 & Hp1).
    rewrite decide_False in Hp1 by (apply (Hfree (S c)); [lia|done]).
    rewrite decide_False in Hp1 by lia.
    destruct (IH s1 tr (S c) Htr1 Hp1 Hc1) as (s' & Hrun & Hc' & Hp' & Hbefore).
    + lia.
    + intros k step' Hk Hs'. rewrite Hbp1. apply (Hfree k); [lia|done].
    + rewrite Hbp1. by replace (S c + S d) with (c + S (S d)) by lia.
    + exists s'. split; [|split; [|split]].
      * change (replicate (S (S d)) Tick) with (Tick :: replicate (S d) Tick).
        cbn [session]. by rewrite Hh.
      * by replace (c + S (S d)) with (S c + S d) by lia.
      * done.
      * intros m Hm. destruct m as [|m].
        { exists s. split; [done|]. split; [by rewrite Nat.add_0_r|done]. }
        destruct (Hbefore m) as (s'' & Hrun'' & Hc'' & Hp''); [lia|].
        exists s''. cbn [replicate session]. rewrite Hh. split; [done|].
        split; [by replace (c + S m) with (S c + m) by lia|done].
Qed.

End Playback.

(** X18: playback runs into the next breakpoint.  Playing from step [c],
    with no breakpoint on the lines of the steps strictly between [c] and
    [t], and with step [t] the last step or a step at a line with a
    breakpoint: the interval advances the current step by one per firing,
    playing, until it reaches [t]; there playback is paused, and further
    firings change nothing. *)
Theorem playback_pauses s tr (c t : nat) :
  App.executionTrace s = Some tr -> App.isPlaying s = true ->
  App.currentStep s = Z.of_nat c ->
  c < t < length tr ->
  (forall k step, c < k < t -> tr !! k = Some step ->
                  ExecutionStep.lineNumber step ∉ App.breakpoints s) ->
  (S t = length tr
   \/ exists step, tr !! t = Some step
                   /\ ExecutionStep.lineNumber step ∈ App.breakpoints s) ->
  (forall m, m < t - c ->
     exists s', App.session (replicate m App.Tick) s = Returned s'
                /\ App.currentStep s' = Z.of_nat (c + m) /\ App.isPlaying s' = true)
  /\ exists s',
       App.currentStep s' = Z.of_nat t /\ App.isPlaying s' = false
       /\ forall extra, App.session (replicate (t - c + extra) App.Tick) s = Returned s'.
Proof.
  intros Htr Hp Hc Ht Hfree Hstop.
  destruct (playback_run (t - c - 1) s tr c Htr Hp Hc) as (s' & Hrun & Hc' & Hp' & Hbefore).
  - lia.
  - intros k step Hk. apply Hfree. lia.
  - by replace (c + S (t - c - 1)) with t by lia.
  - split.
    + intros m Hm. apply Hbefore. lia.
    + exists s'. split; [by replace (c + S (t - c - 1)) with t in Hc' by lia|].
      split; [done|]. intros extra.
      rewrite replicate_add, run_app.
      replace (t - c) with (S (t - c - 1)) by lia. rewrite Hrun.
      by apply run_ticks_paused.
Qed.

Lemma playback_pauses_witness :
  let s := App.after sampleSession in
  let tr := trace_of smallCode in
  App.executionTrace s = Some tr
  /\ App.isPlaying s = true
  /\ App.currentStep s = Z.of_nat 0
  /\ 0 < 4 < length tr
  /\ (forall k step, 0 < k < 4 -> tr !! k = Some step ->
                     ExecutionStep.lineNumber step ∉ App.breakpoints s)
  /\ (5 = length tr
      \/ exists step, tr !! 4 = Some step
                      /\ ExecutionStep.lineNumber step ∈ App.breakpoints s)
  /\ (forall m, m < 4 - 0 ->
        exists s', App.session (replicate m App.Tick) s = Returned s'
                   /\ App.currentStep s' = Z.of_nat (0 + m) /\ App.isPlaying s' = true)
  /\ exists s',
       App.currentStep s' = Z.of_nat 4 /\ App.isPlaying s' = false
       /\ forall extra, App.session (replicate (4 - 0 + extra) App.Tick) s = Returned s'.
Proof.
  cbv zeta.
  assert (App.isPlaying (App.after sampleSession) = true) as Hp by (vm_compute; reflexivity).
  assert (App.currentStep (App.after sampleSession) = Z.of_nat 0) as Hc
    by (vm_compute; reflexivity).
  assert (0 < 4 < length (trace_of smallCode)) as Ht by (vm_compute; lia).
  assert (forall k step, 0 < k < 4 -> trace_of smallCode !! k = Some step ->
            ExecutionStep.lineNumber step ∉ App.breakpoints (App.after sampleSession))
    as Hfree.
  { intros k step Hk Hs.
    assert (k = 1 \/ k = 2 \/ k = 3) as [->|[->| ->]] by lia;
      vm_compute in Hs; injection Hs as <-;
      match goal with |- ?x ∉ ?X => apply (bool_decide_eq_false_1 (x ∈ X)) end;
      vm_compute; reflexivity. }
  assert (5 = length (trace_of smallCode)
          \/ exists step, trace_of smallCode !! 4 = Some step
               /\ ExecutionStep.lineNumber step ∈ App.breakpoints (App.after sampleSession))
    as Hstop.
  { right. eexists. split; [vm_compute; reflexivity|].
    match goal with |- ?x ∈ ?X => apply (bool_decide_eq_true_1 (x ∈ X)) end.
    vm_compute. reflexivity. }
  split; [exact sampleSession_trace|]. split; [exact Hp|]. split; [exact Hc|].
  split; [exact Ht|]. split; [exact Hfree|]. split; [exact Hstop|].
  exact (playback_pauses (App.after sampleSession) (trace_of smallCode) 0 4
           sampleSession_trace Hp Hc Ht Hfree Hstop).
Defined.

(** ** Where the steps are shown *)

Section Sites.

Variable cl : list string.
Variable arrMatch : RegExpMatch.

Local Abbreviation sited st :=
  (Forall (fun s => exists text,
             log_site arrMatch (Replay.description s) text
             /\ Replay.lineNumber s = findLine cl text 0) (Replay.steps st)).

Lemma sited_assign name v st : sited st -> sited (Replay.assign name v st).
Proof. done. Qed.

Lemma sited_set_out o st : sited st -> sited (Replay.set_out o st).
Proof. done. Qed.

Lemma sited_log d text st :
  log_site arrMatch d text -> sited st -> sited (Replay.log d (findLine cl text 0) st).
Proof.
  intros Hd Hs. rewrite log_findLine. cbn [Replay.steps].
  apply Forall_app. split; [done|]. constructor; [|done]. by exists text.
Qed.

Lemma inner_iteration_sited j (acc : list element * Replay.state) :
  sited acc.2 ->
  sited (Replay.inner_iteration cl (group1 arrMatch) (findLine cl "for (let j" 0) j acc).2.
Proof.
  intros H. unfold Replay.inner_iteration. cbv zeta.
  destruct (greater _ _); cbn [fst snd].
  - apply sited_log; [constructor|]. apply sited_assign.
    apply sited_log; [constructor|].
    apply sited_log; [constructor|].
    apply sited_log; [constructor|]. by apply sited_assign.
  - apply sited_log; [constructor|].
    apply sited_log; [constructor|]. by apply sited_assign.
Qed.

Lemma simulate_sited arrValue :
  Forall (fun s => exists text,
            log_site arrMatch (Replay.description s) text
            /\ Replay.lineNumber s = findLine cl text 0)
         (Replay.simulate cl arrMatch arrValue).
Proof.
  unfold Replay.simulate, Replay.finish. cbv zeta.
  apply sited_log; [constructor|]. apply sited_set_out.
  apply sited_log; [constructor|]. apply sited_assign.
  unfold Replay.loops. cbv zeta.
  apply (iterate_invariant (fun _ a => sited a.2) _ 0).
  - cbn [fst snd]. unfold Replay.prologue. cbv zeta.
    apply sited_log; [constructor|]. apply sited_assign.
    apply sited_log; [constructor|]. apply sited_assign. constructor.
  - intros i a _ Ha. unfold Replay.outer_iteration. cbv zeta.
    apply (iterate_invariant (fun _ a => sited a.2) _ 0).
    + cbn [fst snd]. apply sited_log; [constructor|]. by apply sited_assign.
    + intros j b _ Hb. by apply inner_iteration_sited.
Qed.

Lemma forallb_lookup {A} (f : A -> bool) l i x :
  forallb f l = true -> l !! i = Some x -> f x = true.
Proof.
  revert i. induction l as [|y l IH]; intros i; [done|].
  cbn [forallb]. intros [Hy Hl]%andb_true_iff. destruct i as [|i]; cbn.
  - by intros [= <-].
  - by apply IH.
Qed.

Lemma findLine_absent text k :
  forallb (fun line => negb (Str.includes line text)) cl = true ->
  findLine cl text k = k + 1.
Proof.
  intros H. unfold findLine, findIndex.
  destruct (findIndex_from _ cl 0) as [i|] eqn:E; [|done].
  apply findIndex_from_Some in E as (_ & (line & Hl & Hp) & _).
  apply andb_true_iff in Hp as [_ Hp].
  apply (forallb_lookup _ _ _ _ H) in Hl. by rewrite Hp in Hl.
Qed.

End Sites.

Lemma generate_sited code language h tr h' :
  heap_wf h ->
  generateExecutionTrace code language h = Returned (tr, h') ->
  exists arrMatch arrValue,
    arrInitRegex_match code = Some arrMatch
    /\ evaluate_literal (clock h) (group2 arrMatch) = Some arrValue
    /\ Forall (fun s => exists text,
                 log_site arrMatch (ExecutionStep.description s) text
                 /\ ExecutionStep.lineNumber s = findLine (Str.split LF code) text 0) tr.
Proof.
  intros Hwf Hgen.
  destruct (generate_observed _ _ _ _ _ Hwf Hgen) as (am & xs & Hm & Hp & Hobs).
  exists am, xs. split; [done|]. split; [done|].
  pose proof (observed_Forall
                (fun l _ d _ => exists text,
                   log_site am d text /\ l = findLine (Str.split LF code) text 0)
                _ _ _ Hobs (simulate_sited _ am xs)) as H.
  eapply Forall_impl; [exact H|]. by intros s (_ & _ & Hs).
Qed.

(** X19: every step of a returned trace is of one of the nine kinds the
    simulator logs, and is shown at the line the locator finds for the text
    of its kind: the matched initialization, [n =], [for (let i],
    [for (let j], [if (arr[j]], [[<name>[j]] for both swap steps,
    [sortedArray =] and [console.log]. *)
Theorem steps_located_by_kind code language h tr h' :
  heap_wf h ->
  generateExecutionTrace code language h = Returned (tr, h') ->
  exists arrMatch arrValue,
    arrInitRegex_match code = Some arrMatch
    /\ evaluate_literal (clock h) (group2 arrMatch) = Some arrValue
    /\ Forall (fun s => exists text,
                 log_site arrMatch (ExecutionStep.description s) text
                 /\ ExecutionStep.lineNumber s = findLine (Str.split LF code) text 0) tr.
Proof.
  intros Hwf Hgen.
  destruct (generate_observed _ _ _ _ _ Hwf Hgen) as (am & xs & Hm & Hp & Hobs).
  exists am, xs. split; [done|]. split; [done|].
  pose proof (simulate_sited (Str.split LF code) am xs) as Hall.
  apply observe_Some in Hobs. clear Hm Hp Hgen.
  revert Hall Hobs. generalize (Replay.simulate (Str.split LF code) am xs).
  intros ps Hall Hobs. revert Hall.
  induction Hobs as [|s p tr' ps Hs _ IH]; intros Hall; [constructor|].
  apply Forall_cons in Hall as [(text & Hsite & Hline) Hall]. constructor; [|by apply IH].
  apply observe_step_inv in Hs as (-> & _ & -> & _). by exists text.
Qed.

Lemma steps_located_by_kind_witness :
  heap_wf empty_heap
  /\ generateExecutionTrace smallCode javascript empty_heap
     = Returned (trace_of smallCode, heap_of smallCode)
  /\ exists arrMatch arrValue,
       arrInitRegex_match smallCode = Some arrMatch
       /\ evaluate_literal (clock empty_heap) (group2 arrMatch) = Some arrValue
       /\ Forall (fun s => exists text,
                    log_site arrMatch (ExecutionStep.description s) text
                    /\ ExecutionStep.lineNumber s
                       = findLine (Str.split LF smallCode) text 0)
                 (trace_of smallCode).
Proof.
  split; [exact empty_heap_wf|]. split; [exact smallCode_returns|].
  apply (steps_located_by_kind smallCode javascript empty_heap _ (heap_of smallCode));
    [exact empty_heap_wf | exact smallCode_returns].
Defined.

(** X20: the swap steps are looked up with the text [[<name>[j]], built
    from the name of the array in the initialization.  When no line of the
    source contains it (as in the default program, whose function calls its
    parameter [arr] while the array is [myArray]), every "Condition true" and
    "Array is now" step is shown at line 1. *)
Theorem swap_steps_fall_back_to_line_one code language h tr h' arrMatch :
  heap_wf h ->
  generateExecutionTrace code language h = Returned (tr, h') ->
  arrInitRegex_match code = Some arrMatch ->
  forallb (fun line => negb (Str.includes line ("[" +:+ group1 arrMatch +:+ "[j]")))
          (Str.split LF code) = true ->
  Forall (fun s =>
            Str.starts_with "Condition true" (ExecutionStep.description s) = true
            \/ Str.starts_with "Array is now" (ExecutionStep.description s) = true ->
            ExecutionStep.lineNumber s = 1) tr.
Proof.
  intros Hwf Hgen Hm Habsent.
  destruct (generate_sited _ _ _ _ _ Hwf Hgen) as (am & xs & Hm' & _ & Hall).
  rewrite Hm in Hm'. injection Hm' as <-.
  eapply Forall_impl; [exact Hall|].
  intros s (text & Hsite & ->) Hkind.
  destruct Hsite; try (by destruct Hkind); by apply findLine_absent.
Qed.

Lemma swap_steps_fall_back_to_line_one_witness :
  heap_wf empty_heap
  /\ generateExecutionTrace smallCode javascript empty_heap
     = Returned (trace_of smallCode, heap_of smallCode)
  /\ arrInitRegex_match smallCode
     = Some {| group0 := "let myArray = [3, 1, 2]"; group1 := "myArray";
               group2 := "[3, 1, 2]" |}
  /\ forallb (fun line => negb (Str.includes line ("[" +:+ "myArray" +:+ "[j]")))
             (Str.split LF smallCode) = true
  /\ Forall (fun s =>
               Str.starts_with "Condition true" (ExecutionStep.description s) = true
               \/ Str.starts_with "Array is now" (ExecutionStep.description s) = true ->
               ExecutionStep.lineNumber s = 1) (trace_of smallCode).
Proof.
  assert (arrInitRegex_match smallCode
          = Some {| group0 := "let myArray = [3, 1, 2]"; group1 := "myArray";
                    group2 := "[3, 1, 2]" |}) as Hm by (vm_compute; reflexivity).
  assert (forallb (fun line => negb (Str.includes line ("[" +:+ "myArray" +:+ "[j]")))
            (Str.split LF smallCode) = true) as Habsent by (vm_compute; reflexivity).
  split; [exact empty_heap_wf|]. split; [exact smallCode_returns|].
  split; [exact Hm|]. split; [exact Habsent|].
  exact (swap_steps_fall_back_to_line_one smallCode javascript empty_heap _
           (heap_of smallCode) _ empty_heap_wf smallCode_returns Hm Habsent).
Defined.

(** ** The line of the initialization *)

Lemma append_nil_r (a : string) : a +:+ "" = a.
Proof. induction a as [|c a IH]; [done|]. by rewrite append_cons, IH. Qed.

(** A piece of text without a line feed lies within one line. *)
Lemma line_contains code sub :
  Str.contains code sub ->
  Str.all (fun c => negb (Ascii.eqb c LF)) sub = true ->
  exists i line, Str.split LF code !! i = Some line /\ Str.contains line sub.
Proof.
  intros (pre & post & ->) Hsub. induction pre as [|c pre IH].
  - change ("" +:+ sub +:+ post) with (sub +:+ post).
    rewrite (split_app_nosep LF sub post Hsub).
    destruct (Str.split LF post) as [|w ws].
    + exists 0, sub. split; [done|]. exists "", "". by rewrite append_nil_l, append_nil_r.
    + exists 0, (sub +:+ w). split; [done|]. by exists "", w.
  - destruct IH as (i & line & Hi & Hline).
    rewrite append_cons. cbn [Str.split].
    destruct (Ascii.eqb c LF).
    + by exists (S i), line.
    + destruct (Str.split LF (pre +:+ sub +:+ post)) as [|w ws]; [done|].
      destruct i as [|i].
      * injection Hi as ->. destruct Hline as (p & q & ->).
        exists 0, (String c (p +:+ sub +:+ q)). split; [done|]. by exists (String c p), q.
      * by exists (S i), line.
Qed.

Lemma simulate_lookup_init_array cl am xs :
  Replay.simulate cl am xs !! 0 = Some (Replay.init_array_step cl am xs).
Proof.
  rewrite simulate_steps.
  destruct (loops_steps_prefix cl am xs) as [rest ->]. done.
Qed.

(** X21: when the matched initialization is written on one line, the first
    step of the trace is shown at the first line of the source that
    contains it. *)
Theorem array_step_shows_initialization code language h tr h' arrMatch :
  heap_wf h ->
  generateExecutionTrace code language h = Returned (tr, h') ->
  arrInitRegex_match code = Some arrMatch ->
  Str.all (fun c => negb (Ascii.eqb c LF)) (group0 arrMatch) = true ->
  exists step line,
    tr !! 0 = Some step
    /\ 1 <= ExecutionStep.lineNumber step
    /\ Str.split LF code !! (ExecutionStep.lineNumber step - 1) = Some line
    /\ Str.contains line (group0 arrMatch)
    /\ forall k earlier,
         k < ExecutionStep.lineNumber step - 1 ->
         Str.split LF code !! k = Some earlier ->
         ~ Str.contains earlier (group0 arrMatch).
Proof.
  intros Hwf Hgen Hm Hone.
  destruct (generate_observed _ _ _ _ _ Hwf Hgen) as (am & xs & Hm' & _ & Hobs).
  rewrite Hm in Hm'. injection Hm' as <-.
  destruct (observed_lookup _ _ _ _ _ Hobs (simulate_lookup_init_array _ arrMatch xs))
    as (step & Hstep & Hline & _).
  cbn [Replay.lineNumber Replay.init_array_step] in Hline.
  assert (Str.contains code (group0 arrMatch)) as Hin.
  { apply arrInitRegex_match_at in Hm as (pre & rest & -> & Hat).
    apply arrInitRegex_at_spec in Hat
      as (? & ? & ? & ? & ? & post & _ & _ & _ & _ & _ & _ & _ & _ & _ & _ & ->).
    by exists pre, post. }
  destruct (line_contains _ _ Hin Hone) as (i & line & Hi & Hcontains).
  unfold findLine, findIndex in Hline.
  destruct (findIndex_from _ (Str.split LF code) 0) as [k|] eqn:E.
  - apply findIndex_from_Some in E as (_ & (found & Hk & Hp) & Hmin).
    rewrite Nat.sub_0_r in Hk. cbn [andb Nat.leb] in Hp. apply includes_spec in Hp.
    exists step, found. rewrite Hline. replace (k + 1 - 1) with k by lia.
    split; [done|]. split; [lia|]. split; [done|]. split; [done|].
    intros k' earlier Hk' He Hc.
    specialize (Hmin k' earlier ltac:(lia)). rewrite Nat.sub_0_r in Hmin.
    specialize (Hmin He). cbn [andb Nat.leb] in Hmin.
    apply includes_spec in Hc. congruence.
  - exfalso. pose proof (findIndex_from_None _ _ _ E i line Hi) as Hno.
    cbn [andb Nat.leb] in Hno. apply includes_spec in Hcontains. congruence.
Qed.

Lemma array_step_shows_initialization_witness :
  heap_wf empty_heap
  /\ generateExecutionTrace smallCode javascript empty_heap
     = Returned (trace_of smallCode, heap_of smallCode)
  /\ arrInitRegex_match smallCode
     = Some {| group0 := "let myArray = [3, 1, 2]"; group1 := "myArray";
               group2 := "[3, 1, 2]" |}
  /\ Str.all (fun c => negb (Ascii.eqb c LF)) "let myArray = [3, 1, 2]" = true
  /\ exists step line,
       trace_of smallCode !! 0 = Some step
       /\ 1 <= ExecutionStep.lineNumber step
       /\ Str.split LF smallCode !! (ExecutionStep.lineNumber step - 1) = Some line
       /\ Str.contains line "let myArray = [3, 1, 2]"
       /\ forall k earlier,
            k < ExecutionStep.lineNumber step - 1 ->
            Str.split LF smallCode !! k = Some earlier ->
            ~ Str.contains earlier "let myArray = [3, 1, 2]".
Proof.
  assert (arrInitRegex_match smallCode
          = Some {| group0 := "let myArray = [3, 1, 2]"; group1 := "myArray";
                    group2 := "[3, 1, 2]" |}) as Hm by (vm_compute; reflexivity).
  assert (Str.all (fun c => negb (Ascii.eqb c LF)) "let myArray = [3, 1, 2]" = true)
    as Hone by (vm_compute; reflexivity).
  split; [exact empty_heap_wf|]. split; [exact smallCode_returns|].
  split; [exact Hm|]. split; [exact Hone|].
  exact (array_step_shows_initialization smallCode javascript empty_heap _
           (heap_of smallCode) _ empty_heap_wf smallCode_returns Hm Hone).
Defined.

(** ** Visualizing *)

(** X22: a visualization settles with the spinner off, playback stopped at
    step 0 and the code, the language and the breakpoints as they were; it
    leaves either a trace of at least four steps and no error, or an error
    message and no trace.  In Python mode it always leaves the message of the
    language check. *)
Theorem handleVisualize_settles s s' :
  heap_wf (App.store s) ->
  App.handleVisualize s = Returned s' ->
  App.isLoading s' = false
  /\ App.currentStep s' = 0%Z
  /\ App.isPlaying s' = false
  /\ App.code s' = App.code s
  /\ App.language s' = App.language s
  /\ App.breakpoints s' = App.breakpoints s
  /\ ((exists tr h,
         generateExecutionTrace (App.code s) (App.language s) (App.store s)
         = Returned (tr, h)
         /\ App.executionTrace s' = Some tr /\ App.store s' = h
         /\ App.error s' = None /\ 4 <= length tr)
      \/ (exists message,
            generateExecutionTrace (App.code s) (App.language s) (App.store s)
            = Thrown message
            /\ App.executionTrace s' = None /\ App.error s' = Some message))
  /\ (App.language s = python ->
      App.executionTrace s' = None /\ App.error s' = Some unsupported_language_message).
Proof.
  intros Hwf. unfold App.handleVisualize.
  destruct (generateExecutionTrace (App.code s) (App.language s) (App.store s))
    as [[tr h]|message|] eqn:Hgen; [| |done]; intros [= <-]; cbn.
  - repeat (split; [done|]). split.
    + left. exists tr, h. repeat (split; [done|]).
      by apply (generate_length _ _ _ _ _ Hwf Hgen).
    + intros Hpy. rewrite Hpy in Hgen. done.
  - repeat (split; [done|]). split.
    + right. by exists message.
    + intros Hpy. rewrite Hpy in Hgen. by injection Hgen as <-.
Qed.

Lemma handleVisualize_settles_witness :
  let s := App.setCode smallCode App.initialState in
  let s' := App.after [App.EditCode smallCode; App.Visualize 0] in
  heap_wf (App.store s)
  /\ App.handleVisualize s = Returned s'
  /\ App.isLoading s' = false
  /\ App.currentStep s' = 0%Z
  /\ App.isPlaying s' = false
  /\ App.code s' = App.code s
  /\ App.language s' = App.language s
  /\ App.breakpoints s' = App.breakpoints s
  /\ ((exists tr h,
         generateExecutionTrace (App.code s) (App.language s) (App.store s)
         = Returned (tr, h)
         /\ App.executionTrace s' = Some tr /\ App.store s' = h
         /\ App.error s' = None /\ 4 <= length tr)
      \/ (exists message,
            generateExecutionTrace (App.code s) (App.language s) (App.store s)
            = Thrown message
            /\ App.executionTrace s' = None /\ App.error s' = Some message))
  /\ (App.language s = python ->
      App.executionTrace s' = None /\ App.error s' = Some unsupported_language_message).
Proof.
  cbv zeta.
  assert (App.handleVisualize (App.setCode smallCode App.initialState)
          = Returned (App.after [App.EditCode smallCode; App.Visualize 0])) as Hv
    by (vm_compute; reflexivity).
  split; [exact empty_heap_wf|]. split; [exact Hv|].
  exact (handleVisualize_settles (App.setCode smallCode App.initialState) _ empty_heap_wf Hv).
Defined.
